(** * endian_utils: a shallow embedding of the encode/decode engine

    The development follows the headers of the library:
    - [EndianConversions.h]   : [MZ_BSWAP16/32/64], [byteSwap];
    - [EndianConcepts.h]      : [native_endian], [basicCopy];
    - [EndianBasicBuffers.h]  : [BasicWriteBuffer], [BasicReadBuffer];
    - [EndianBasicVector.h], [EndianVector.h] : [BasicVector], [Vector];
    - [EndianByteArray.h]     : [ByteArray].

    Integers of the program are mathematical integers ([Z]) with the
    wrap-around of the C++ type written out; memory is a list of bytes and a
    pointer is an offset into it. *)

From Stdlib Require Import ZArith List Bool Lia String Ascii.
Import ListNotations.
Local Open Scope Z_scope.

(** ** EndianConversions.h *)

(** [std::endian], restricted to the two orders the library distinguishes. *)
Inductive endian := little | big.

Definition endian_eqb (a b : endian) : bool :=
  match a, b with
  | little, little | big, big => true
  | _, _ => false
  end.

(** [sizeof(T)] of a type accepted by [byteSwap]: the [if constexpr] chain
    has the four branches 1, 2, 4 and 8; any other size is rejected by the
    [static_assert]. *)
Inductive Width := W1 | W2 | W4 | W8.

Definition bytes (w : Width) : Z :=
  match w with W1 => 1 | W2 => 2 | W4 => 4 | W8 => 8 end.

Definition bits (w : Width) : Z := 8 * bytes w.

(** A type satisfying [SwappableIntegral] or [SwappableEnum]: its size, its
    signedness and whether it is an enumeration (whose values are those of
    its underlying integral type). *)
Record SwapType := mkSwapType {
  width : Width;
  is_signed : bool;
  is_enum : bool
}.

Definition sizeof (T : SwapType) : Z := bytes (width T).

(** The values of [T]. *)
Definition in_range (T : SwapType) (v : Z) : Prop :=
  if is_signed T
  then - 2 ^ (bits (width T) - 1) <= v < 2 ^ (bits (width T) - 1)
  else 0 <= v < 2 ^ bits (width T).

(** [static_cast<uintN_t>(value)] *)
Definition to_unsigned (w : Width) (v : Z) : Z := v mod 2 ^ bits w.

(** [static_cast<T>(u)] for [u] of type [uintN_t], [N = 8 * sizeof(T)]. *)
Definition of_unsigned (T : SwapType) (u : Z) : Z :=
  if is_signed T && (2 ^ (bits (width T) - 1) <=? u)
  then u - 2 ^ bits (width T)
  else u.

(** The generic (mask and shift) definitions of the swap macros; the
    intrinsics selected on the other platforms compute the same function. *)
Definition MZ_BSWAP16 (x : Z) : Z :=
  let x := x mod 2 ^ 16 in
  (Z.lor (Z.shiftr (Z.land x 0xFF00) 8)
         (Z.shiftl (Z.land x 0x00FF) 8)) mod 2 ^ 16.

Definition MZ_BSWAP32 (x : Z) : Z :=
  let x := x mod 2 ^ 32 in
  (Z.lor (Z.lor (Z.lor
     (Z.shiftr (Z.land x 0xFF000000) 24)
     (Z.shiftr (Z.land x 0x00FF0000) 8))
     (Z.shiftl (Z.land x 0x0000FF00) 8))
     (Z.shiftl (Z.land x 0x000000FF) 24)) mod 2 ^ 32.

Definition MZ_BSWAP64 (x : Z) : Z :=
  let x := x mod 2 ^ 64 in
  (Z.lor (Z.lor (Z.lor (Z.lor (Z.lor (Z.lor (Z.lor
     (Z.shiftr (Z.land x 0xFF00000000000000) 56)
     (Z.shiftr (Z.land x 0x00FF000000000000) 40))
     (Z.shiftr (Z.land x 0x0000FF0000000000) 24))
     (Z.shiftr (Z.land x 0x000000FF00000000) 8))
     (Z.shiftl (Z.land x 0x00000000FF000000) 8))
     (Z.shiftl (Z.land x 0x0000000000FF0000) 24))
     (Z.shiftl (Z.land x 0x000000000000FF00) 40))
     (Z.shiftl (Z.land x 0x00000000000000FF) 56)) mod 2 ^ 64.

(** [byteSwap] on a [SwappableIntegral] type. *)
Definition byteSwap_integral (T : SwapType) (value : Z) : Z :=
  match width T with
  | W1 => value
  | W2 => of_unsigned T (MZ_BSWAP16 (to_unsigned W2 value))
  | W4 => of_unsigned T (MZ_BSWAP32 (to_unsigned W4 value))
  | W8 => of_unsigned T (MZ_BSWAP64 (to_unsigned W8 value))
  end.

(** [byteSwap] on a [SwappableEnum] type: through the underlying type, the
    two [static_cast]s between an enumeration and its underlying type keep
    the value. *)
Definition byteSwap_enum (E : SwapType) (value : Z) : Z :=
  match width E with
  | W1 => value
  | _ => byteSwap_integral (mkSwapType (width E) (is_signed E) false) value
  end.

(** Overload resolution between the two templates. *)
Definition byteSwap (T : SwapType) (value : Z) : Z :=
  if is_enum T then byteSwap_enum T value else byteSwap_integral T value.

(** ** Memory and object representations *)

(** Memory is a list of bytes (each in [0, 256)), an address is an offset
    into it.  Sizes and addresses stay far below [2 ^ 64], so pointer and
    [size_t] arithmetic is written without wrap-around, except where a member
    adds or subtracts an arbitrary [size_t] argument (the skips): there the
    wrap-around at [2 ^ 64] is written out. *)
Definition memory := list Z.

(** [std::memcpy(m + dst, src, length src)] for source bytes [src].  A copy
    never makes room: the memory keeps its size, and a byte whose address is
    not in the memory is not stored (the C++ behaviour of such a call is
    undefined). *)
Definition memcpy (m : memory) (dst : Z) (src : list Z) : memory :=
  firstn (List.length m)
    (firstn (Z.to_nat dst) m ++ src
     ++ skipn (Z.to_nat dst + List.length src) m).

(** The [n] bytes at address [src]. *)
Definition load (m : memory) (src n : Z) : list Z :=
  firstn (Z.to_nat n) (skipn (Z.to_nat src) m).

(** Base-256 digits, least significant first. *)
Fixpoint le_bytes (n : nat) (u : Z) : list Z :=
  match n with
  | O => []
  | S n' => u mod 256 :: le_bytes n' (u / 256)
  end.

Fixpoint le_value (bs : list Z) : Z :=
  match bs with
  | [] => 0
  | b :: r => b + 256 * le_value r
  end.

(** The object representation of a value of [T] on a platform of the given
    native order (two's complement, no padding bits:
    [std::has_unique_object_representations_v<T>]). *)
Definition object_bytes (native : endian) (T : SwapType) (v : Z) : list Z :=
  let l := le_bytes (Z.to_nat (sizeof T)) (to_unsigned (width T) v) in
  match native with little => l | big => rev l end.

(** The value of [T] whose object representation is [bs]. *)
Definition object_value (native : endian) (T : SwapType) (bs : list Z) : Z :=
  of_unsigned T (le_value (match native with little => bs | big => rev bs end)).

(** The array of [n] objects of type [T] stored in [bs]. *)
Fixpoint typed_array (native : endian) (T : SwapType) (n : nat) (bs : list Z)
  : list Z :=
  match n with
  | O => []
  | S n' =>
      object_value native T (firstn (Z.to_nat (sizeof T)) bs)
      :: typed_array native T n' (skipn (Z.to_nat (sizeof T)) bs)
  end.

Definition uint32_t := mkSwapType W4 false false.

(** [char], seen through its byte (the object representation of a [char]
    is that byte whatever its signedness). *)
Definition char := mkSwapType W1 false false.

(** [std::string]: its characters as byte values. *)
Definition char_value (c : ascii) : Z := Z.of_N (N_of_ascii c).
Definition char_of_value (v : Z) : ascii := ascii_of_N (Z.to_N (v mod 256)).
Definition string_chars (s : string) : list Z :=
  map char_value (list_ascii_of_string s).
Definition chars_string (l : list Z) : string :=
  string_of_list_ascii (map char_of_value l).

(** [str.size()] *)
Definition string_size (s : string) : Z := Z.of_nat (String.length s).

(** [str.resize(n)]: truncates, or pads with ['\0']. *)
Definition string_resize (s : string) (n : Z) : string :=
  let cs := list_ascii_of_string s in
  string_of_list_ascii
    (firstn (Z.to_nat n) cs ++ repeat Ascii.zero (Z.to_nat n - List.length cs)).

(** [str.empty()] *)
Definition string_empty (s : string) : bool :=
  match s with EmptyString => true | _ => false end.

(** ** EndianConcepts.h *)

Module Concepts.
(** [stream_endian], the order of serialized data. *)
Definition stream_endian : endian := little.

Section WithEndian.
(** [native_endian] of the platform and the template argument [Encoding]. *)
Variables native_endian Encoding : endian.

Definition mismatch : bool := negb (endian_eqb native_endian Encoding).

(** [basicCopy<Encoding>(void* destination, T value)] *)
Definition basicCopy_value (T : SwapType) (destination : Z) (value : Z)
    (m : memory) : memory :=
  let m := memcpy m destination (object_bytes native_endian T value) in
  if mismatch then
    let typedPtr0 :=
      object_value native_endian T (load m destination (sizeof T)) in
    memcpy m destination
      (object_bytes native_endian T (byteSwap T typedPtr0))
  else m.

(** The loop [for (i = 0; i < source.size(); ++i)
    typedPtr[i] = byteSwap(typedPtr[i]);], [typedPtr] being the address of
    element [i] and [count] the iterations left. *)
Fixpoint swap_in_place (T : SwapType) (typedPtr : Z) (count : nat)
    (m : memory) : memory :=
  match count with
  | O => m
  | S count' =>
      let x := object_value native_endian T (load m typedPtr (sizeof T)) in
      swap_in_place T (typedPtr + sizeof T) count'
        (memcpy m typedPtr (object_bytes native_endian T (byteSwap T x)))
  end.

(** [basicCopy<Encoding>(void* destination, const std::span<T, N>& source)] *)
Definition basicCopy_span (T : SwapType) (destination : Z)
    (source : list Z) (m : memory) : memory :=
  let m :=
    memcpy m destination
      (List.concat (map (object_bytes native_endian T) source)) in
  if mismatch && (1 <? sizeof T)
  then swap_in_place T destination (List.length source) m
  else m.

(** [basicCopy<Encoding>(T& destination, const void* source)]: the new
    value of [destination]. *)
Definition basicCopy_read (T : SwapType) (source : Z) (m : memory) : Z :=
  let destination :=
    object_value native_endian T (load m source (sizeof T)) in
  if mismatch then byteSwap T destination else destination.

(** [basicCopy<Encoding>(std::span<T, N> destination, const void* source)]
    for a span of [n] elements: the new elements of [destination]. *)
Definition basicCopy_read_span (T : SwapType) (n : nat) (source : Z)
    (m : memory) : list Z :=
  let destination :=
    typed_array native_endian T n (load m source (sizeof T * Z.of_nat n)) in
  if mismatch && (1 <? sizeof T)
  then map (byteSwap T) destination
  else destination.

(** [endian_mismatch] *)
Definition endian_mismatch : bool :=
  negb (endian_eqb native_endian stream_endian).

Definition toStreamEndian (T : SwapType) (value : Z) : Z :=
  if endian_mismatch then byteSwap T value else value.

Definition toLittleEndian (T : SwapType) (value : Z) : Z :=
  if negb (endian_eqb native_endian little) then byteSwap T value else value.

Definition toBigEndian (T : SwapType) (value : Z) : Z :=
  if negb (endian_eqb native_endian big) then byteSwap T value else value.

(** [copy(void* destination, T value)], the variant for [stream_endian]. *)
Definition copy_value (T : SwapType) (destination : Z) (value : Z)
    (m : memory) : memory :=
  let m := memcpy m destination (object_bytes native_endian T value) in
  if endian_mismatch then
    let typedPtr0 :=
      object_value native_endian T (load m destination (sizeof T)) in
    memcpy m destination
      (object_bytes native_endian T (byteSwap T typedPtr0))
  else m.

(** [copy(void* destination, const std::span<T, N>& source)] *)
Definition copy_span (T : SwapType) (destination : Z) (source : list Z)
    (m : memory) : memory :=
  let m :=
    memcpy m destination
      (List.concat (map (object_bytes native_endian T) source)) in
  if endian_mismatch && (1 <? sizeof T)
  then swap_in_place T destination (List.length source) m
  else m.

(** [copy(T& destination, const void* source)]: the new value of
    [destination]. *)
Definition copy_read (T : SwapType) (source : Z) (m : memory) : Z :=
  let destination :=
    object_value native_endian T (load m source (sizeof T)) in
  if endian_mismatch then byteSwap T destination else destination.

(** [copy(std::span<T, N> destination, const void* source)] for a span of
    [n] elements: the new elements of [destination]. *)
Definition copy_read_span (T : SwapType) (n : nat) (source : Z)
    (m : memory) : list Z :=
  let destination :=
    typed_array native_endian T n (load m source (sizeof T * Z.of_nat n)) in
  if endian_mismatch && (1 <? sizeof T)
  then map (byteSwap T) destination
  else destination.

(** Modelled from the spec: [basic_copy<Encoding>], which [BasicVector]
    calls, is not defined in the headers.  The spec has the growable
    buffer append "with BoundedBuffer's encode/decode logic", i.e. the
    conversion [basicCopy] performs for the fixed buffers. *)
Definition basic_copy_value (T : SwapType) (destination : Z) (value : Z)
    (m : memory) : memory :=
  basicCopy_value T destination value m.
End WithEndian.
End Concepts.

(** ** EndianBasicBuffers.h *)

(** [std::wstring]: its [wchar_t] values. *)
Definition wstring := list Z.

Module BasicWriteBuffer.
(** The two cursors of the class, together with the caller's memory they
    point into (the buffer does not own it). *)
Record t := mk { mem : memory; m_begin : Z; m_end : Z }.

Definition empty (b : t) : bool := m_begin b =? m_end b.

(** [size()]: the pointer difference converted to [size_t]. *)
Definition size (b : t) : Z := (m_end b - m_begin b) mod 2 ^ 64.

(** [skip(bytes)]; the sum [m_begin + bytes] of a pointer and a [size_t]
    wraps at [2 ^ 64]. *)
Definition skip (bytes : Z) (b : t) : t :=
  let ptr := (m_begin b + bytes) mod 2 ^ 64 in
  mk (mem b) (if ptr <=? m_end b then ptr else m_end b) (m_end b).

Section WithEndian.
Variables native_endian Encoding : endian.
(** [wchar_t] of the platform. *)
Variable wchar_t : SwapType.

(** [unsafePushBack(T value)] *)
Definition unsafePushBack (T : SwapType) (value : Z) (b : t) : t :=
  mk (Concepts.basicCopy_value native_endian Encoding T (m_begin b) value
        (mem b))
     (m_begin b + sizeof T) (m_end b).

(** [unsafePushBack(const std::span<T, N>& span)] *)
Definition unsafePushBack_span (T : SwapType) (span : list Z) (b : t) : t :=
  mk (Concepts.basicCopy_span native_endian Encoding T (m_begin b) span
        (mem b))
     (m_begin b + sizeof T * Z.of_nat (List.length span)) (m_end b).

Definition calculateSerializedSize (str : string) : Z :=
  string_size str + 8.

(** [unsafePushBack(const std::string& str)] *)
Definition unsafePushBack_string (str : string) (b : t) : t :=
  let size := string_size str mod 2 ^ 32 in
  let b := unsafePushBack uint32_t size b in
  let b := unsafePushBack_span char (string_chars str) b in
  unsafePushBack uint32_t size b.

Definition calculateSerializedSize_wstring (wstr : wstring) : Z :=
  Z.of_nat (List.length wstr) * 2 + 8.

(** [unsafePushBack(const std::wstring& wstr)] *)
Definition unsafePushBack_wstring (wstr : wstring) (b : t) : t :=
  let size := Z.of_nat (List.length wstr) mod 2 ^ 32 in
  let b := unsafePushBack uint32_t size b in
  let b := unsafePushBack_span wchar_t wstr b in
  unsafePushBack uint32_t size b.

(** The safe operations return [true] on failure. *)
Definition pushBack (T : SwapType) (value : Z) (b : t) : bool * t :=
  if m_begin b + sizeof T <=? m_end b
  then (false, unsafePushBack T value b)
  else (true, b).

Definition pushBack_span (T : SwapType) (span : list Z) (b : t) : bool * t :=
  if m_begin b + sizeof T * Z.of_nat (List.length span) <=? m_end b
  then (false, unsafePushBack_span T span b)
  else (true, b).

Definition pushBack_string (str : string) (b : t) : bool * t :=
  let requiredSize := calculateSerializedSize str in
  if m_begin b + requiredSize <=? m_end b
  then (false, unsafePushBack_string str b)
  else (true, b).

Definition pushBack_wstring (wstr : wstring) (b : t) : bool * t :=
  let requiredSize := calculateSerializedSize_wstring wstr in
  if m_begin b + requiredSize <=? m_end b
  then (false, unsafePushBack_wstring wstr b)
  else (true, b).

(** [pushBackSome(const std::span<T, N>& span)]: the number of elements
    written and the buffer.  The pointer difference is converted to
    [size_t] before the division. *)
Definition pushBackSome (T : SwapType) (span : list Z) (b : t) : Z * t :=
  let maxElements := ((m_end b - m_begin b) mod 2 ^ 64) / sizeof T in
  let elementsToWrite :=
    if maxElements <? Z.of_nat (List.length span)
    then maxElements
    else Z.of_nat (List.length span) in
  (elementsToWrite,
   if 0 <? elementsToWrite
   then unsafePushBack_span T (firstn (Z.to_nat elementsToWrite) span) b
   else b).
End WithEndian.
End BasicWriteBuffer.

Module BasicReadBuffer.
(** The two cursors and the (read-only) memory they point into. *)
Record t := mk { mem : memory; m_begin : Z; m_end : Z }.

Definition empty (b : t) : bool := m_begin b =? m_end b.
Definition size (b : t) : Z := (m_end b - m_begin b) mod 2 ^ 64.

Definition set_begin (b : t) (p : Z) : t := mk (mem b) p (m_end b).
Definition set_end (b : t) (p : Z) : t := mk (mem b) (m_begin b) p.

(** [skipFront(bytes)] and [skipBack(bytes)]; [m_begin + bytes] and
    [m_end - bytes] wrap at [2 ^ 64]. *)
Definition skipFront (bytes : Z) (b : t) : t :=
  let ptr := (m_begin b + bytes) mod 2 ^ 64 in
  set_begin b (if ptr <=? m_end b then ptr else m_end b).

Definition skipBack (bytes : Z) (b : t) : t :=
  let ptr := (m_end b - bytes) mod 2 ^ 64 in
  set_end b (if m_begin b <=? ptr then ptr else m_begin b).

Section WithEndian.
Variables native_endian Encoding : endian.

(** [unsafePopFront(T& value)]: the new [value] and the buffer. *)
Definition unsafePopFront (T : SwapType) (b : t) : Z * t :=
  (Concepts.basicCopy_read native_endian Encoding T (m_begin b) (mem b),
   set_begin b (m_begin b + sizeof T)).

(** [unsafePopFront(std::span<T, N> span)] for a span of [n] elements. *)
Definition unsafePopFront_span (T : SwapType) (n : nat) (b : t)
  : list Z * t :=
  (Concepts.basicCopy_read_span native_endian Encoding T n (m_begin b)
     (mem b),
   set_begin b (m_begin b + sizeof T * Z.of_nat n)).

(** [unsafePopBack(T& value)] *)
Definition unsafePopBack (T : SwapType) (b : t) : Z * t :=
  let b := set_end b (m_end b - sizeof T) in
  (Concepts.basicCopy_read native_endian Encoding T (m_end b) (mem b), b).

(** [unsafePopBack(std::span<T, N> span)] *)
Definition unsafePopBack_span (T : SwapType) (n : nat) (b : t)
  : list Z * t :=
  let b := set_end b (m_end b - sizeof T * Z.of_nat n) in
  (Concepts.basicCopy_read_span native_endian Encoding T n (m_end b)
     (mem b), b).

(** The safe operations take the old [value] (an output parameter of the
    C++ function, untouched on failure) and return the failure flag, the
    new [value] and the buffer. *)
Definition popFront (T : SwapType) (value : Z) (b : t) : bool * Z * t :=
  if m_begin b + sizeof T <=? m_end b
  then let (value, b) := unsafePopFront T b in (false, value, b)
  else (true, value, b).

Definition popFront_span (T : SwapType) (span : list Z) (b : t)
  : bool * list Z * t :=
  if m_begin b + sizeof T * Z.of_nat (List.length span) <=? m_end b
  then let (span, b) := unsafePopFront_span T (List.length span) b in
       (false, span, b)
  else (true, span, b).

Definition popBack (T : SwapType) (value : Z) (b : t) : bool * Z * t :=
  if m_begin b + sizeof T <=? m_end b
  then let (value, b) := unsafePopBack T b in (false, value, b)
  else (true, value, b).

Definition popBack_span (T : SwapType) (span : list Z) (b : t)
  : bool * list Z * t :=
  if m_begin b + sizeof T * Z.of_nat (List.length span) <=? m_end b
  then let (span, b) := unsafePopBack_span T (List.length span) b in
       (false, span, b)
  else (true, span, b).

(** [popFront(std::string& str)].  The span [{&str[0], size}] covers the
    whole resized string, so reading into it replaces every character. *)
Definition popFront_string (str : string) (b : t) : bool * string * t :=
  let oldBegin := m_begin b in
  if m_begin b + 8 <=? m_end b then
    let (size, b) := unsafePopFront uint32_t b in
    if m_begin b + size + 4 <=? m_end b then
      let str := string_resize str size in
      let (str, b) :=
        if negb (string_empty str)
        then let (cs, b) := unsafePopFront_span char (Z.to_nat size) b in
             (chars_string cs, b)
        else (str, b) in
      let (sizeCheck, b) := unsafePopFront uint32_t b in
      if size =? sizeCheck
      then (false, str, b)
      else (true, EmptyString, set_begin b oldBegin)
    else (true, EmptyString, set_begin b oldBegin)
  else (true, EmptyString, set_begin b oldBegin).

(** [popBack(std::string& str)] *)
Definition popBack_string (str : string) (b : t) : bool * string * t :=
  let oldEnd := m_end b in
  if m_begin b + 8 <=? m_end b then
    let (size, b) := unsafePopBack uint32_t b in
    if m_begin b + size + 4 <=? m_end b then
      let str := string_resize str size in
      let (str, b) :=
        if negb (string_empty str)
        then let (cs, b) := unsafePopBack_span char (Z.to_nat size) b in
             (chars_string cs, b)
        else (str, b) in
      let (sizeCheck, b) := unsafePopBack uint32_t b in
      if size =? sizeCheck
      then (false, str, b)
      else (true, EmptyString, set_end b oldEnd)
    else (true, EmptyString, set_end b oldEnd)
  else (true, EmptyString, set_end b oldEnd).
End WithEndian.

Section WithWideChar.
Variables native_endian Encoding : endian.
(** [wchar_t] of the platform. *)
Variable wchar_t : SwapType.

(** [wstr.resize(n)] *)
Definition wstring_resize (wstr : wstring) (n : Z) : wstring :=
  firstn (Z.to_nat n) wstr ++ repeat 0 (Z.to_nat n - List.length wstr).

(** [popFront(std::wstring& wstr)] *)
Definition popFront_wstring (wstr : wstring) (b : t) : bool * wstring * t :=
  let oldBegin := m_begin b in
  if m_begin b + 8 <=? m_end b then
    let (size, b) := unsafePopFront native_endian Encoding uint32_t b in
    if m_begin b + size * sizeof wchar_t + 4 <=? m_end b then
      let wstr := wstring_resize wstr size in
      let (wstr, b) :=
        match wstr with
        | [] => (wstr, b)
        | _ :: _ =>
            unsafePopFront_span native_endian Encoding wchar_t
              (Z.to_nat size) b
        end in
      let (sizeCheck, b) :=
        unsafePopFront native_endian Encoding uint32_t b in
      if size =? sizeCheck
      then (false, wstr, b)
      else (true, [], set_begin b oldBegin)
    else (true, [], set_begin b oldBegin)
  else (true, [], set_begin b oldBegin).

(** [popBack(std::wstring& wstr)] *)
Definition popBack_wstring (wstr : wstring) (b : t) : bool * wstring * t :=
  let oldEnd := m_end b in
  if m_begin b + 8 <=? m_end b then
    let (size, b) := unsafePopBack native_endian Encoding uint32_t b in
    if m_begin b + size * sizeof wchar_t + 4 <=? m_end b then
      let wstr := wstring_resize wstr size in
      let (wstr, b) :=
        match wstr with
        | [] => (wstr, b)
        | _ :: _ =>
            unsafePopBack_span native_endian Encoding wchar_t
              (Z.to_nat size) b
        end in
      let (sizeCheck, b) :=
        unsafePopBack native_endian Encoding uint32_t b in
      if size =? sizeCheck
      then (false, wstr, b)
      else (true, [], set_end b oldEnd)
    else (true, [], set_end b oldEnd)
  else (true, [], set_end b oldEnd).
End WithWideChar.
End BasicReadBuffer.

(** The number of bytes the wide-string wire format occupies (spec, external
    interfaces): a [u32] length, [length] characters of [sizeof(wchar_t)]
    bytes each, a trailing [u32] length. *)
Definition wstring_wire_size (wchar_t : SwapType) (wstr : wstring) : Z :=
  4 + Z.of_nat (List.length wstr) * sizeof wchar_t + 4.

(** The sign of [std::memcmp] on two byte sequences of the same length:
    the order of the first pair of bytes that differ. *)
Fixpoint compare_bytes (a b : list Z) : Z :=
  match a, b with
  | x :: a', y :: b' =>
      if x <? y then -1 else if y <? x then 1 else compare_bytes a' b'
  | _, _ => 0
  end.

(** [std::memcmp(m1 + p1, m2 + p2, n)] *)
Definition memcmp (m1 : memory) (p1 : Z) (m2 : memory) (p2 : Z) (n : Z) : Z :=
  compare_bytes (load m1 p1 n) (load m2 p2 n).

(** ** EndianBasicVector.h and EndianVector.h *)

Module BasicVector.
(** [m_size] and [m_data]; the [std::vector<uint8_t>] is its elements and
    its capacity. *)
Record t := mk { m_size : Z; m_data : list Z; m_capacity : Z }.

(** [m_data.reserve(n)]: a reallocation gives exactly [n]. *)
Definition vector_reserve (n : Z) (v : t) : t :=
  mk (m_size v) (m_data v) (Z.max (m_capacity v) n).

(** [m_data.resize(n)]: new elements are value-initialized (zero).  When
    [n] exceeds the capacity the storage is reallocated; the capacity it
    gets is the implementation's choice, here the one of libstdc++: the old
    number of elements plus the larger of that number and the number of
    elements added. *)
Definition vector_resize (n : Z) (v : t) : t :=
  let len := Z.of_nat (List.length (m_data v)) in
  mk (m_size v)
     (firstn (Z.to_nat n) (m_data v)
      ++ repeat 0 (Z.to_nat n - List.length (m_data v)))
     (if m_capacity v <? n then len + Z.max len (n - len)
      else m_capacity v).

(** [BasicVector()] *)
Definition empty_vector : t := mk 0 [] 0.

Definition size (v : t) : Z := m_size v.
Definition capacity (v : t) : Z := m_capacity v.

(** The bytes [data()[0 .. size())]. *)
Definition contents (v : t) : list Z := firstn (Z.to_nat (size v)) (m_data v).

Definition reserveExtra (extraSize : Z) (v : t) : t :=
  let requiredSize := m_size v + extraSize in
  if Z.of_nat (List.length (m_data v)) <? requiredSize then
    let v :=
      if 1024 <? extraSize
      then let newCapacity := requiredSize + requiredSize / 2 in
           vector_reserve newCapacity v
      else v in
    vector_resize requiredSize v
  else v.

Section WithEndian.
Variables native_endian Encoding : endian.

Definition unsafePushBack (T : SwapType) (value : Z) (v : t) : t :=
  mk (m_size v + sizeof T)
     (Concepts.basic_copy_value native_endian Encoding T (size v) value
        (m_data v))
     (m_capacity v).

Definition pushBack (T : SwapType) (value : Z) (v : t) : t :=
  unsafePushBack T value (reserveExtra (sizeof T) v).
End WithEndian.

(** [clear()] *)
Definition clear (v : t) : t := mk 0 (m_data v) (m_capacity v).

(** [reserve(newCapacity)] *)
Definition reserve (newCapacity : Z) (v : t) : t :=
  let v := vector_reserve newCapacity v in
  if Z.of_nat (List.length (m_data v)) <? newCapacity
  then vector_resize newCapacity v
  else v.

(** [resize(newSize)] *)
Definition resize (newSize : Z) (v : t) : t :=
  let v :=
    if Z.of_nat (List.length (m_data v)) <? newSize
    then vector_resize newSize v
    else v in
  mk newSize (m_data v) (m_capacity v).

(** [expandToCapacity()]: the returned size and the vector. *)
Definition expandToCapacity (v : t) : Z * t :=
  let capacity := m_capacity v in
  let v := vector_resize capacity v in
  (capacity, mk capacity (m_data v) (m_capacity v)).

(** [expandBy(length)] *)
Definition expandBy (length : Z) (v : t) : t :=
  let v := reserveExtra length v in
  mk (m_size v + length) (m_data v) (m_capacity v).

(** [shrinkBy(length)]: the amount removed and the vector. *)
Definition shrinkBy (length : Z) (v : t) : Z * t :=
  let actualLength := if length <? m_size v then length else m_size v in
  (actualLength, mk (m_size v - actualLength) (m_data v) (m_capacity v)).

Definition calculateStringSize (str : string) : Z :=
  4 + string_size str + 4.

(** [pushBackRaw(const T& value)], the value given by the [sizeof(T)]
    bytes of its object representation. *)
Definition pushBackRaw (value : list Z) (v : t) : t :=
  let oldLength := size v in
  let v := expandBy (Z.of_nat (List.length value)) v in
  mk (m_size v) (memcpy (m_data v) oldLength value) (m_capacity v).

(** [popBackRaw(T& value)] for a [T] of [n] bytes: the failure flag, the
    bytes of [value] and the vector. *)
Definition popBackRaw (n : Z) (value : list Z) (v : t)
  : bool * list Z * t :=
  if n <=? m_size v then
    let v := mk (m_size v - n) (m_data v) (m_capacity v) in
    (false, load (m_data v) (size v) n, v)
  else (true, value, v).

Section WithEndianOps.
Variables native_endian Encoding : endian.
(** [wchar_t] of the platform. *)
Variable wchar_t : SwapType.

Definition calculateWideStringSize (wstr : wstring) : Z :=
  4 + Z.of_nat (List.length wstr) * sizeof wchar_t + 4.

(** [pushBack(const std::string& str)]: the temporary write buffer covers
    the bytes just added to the vector. *)
Definition pushBack_string (str : string) (v : t) : t :=
  let oldLength := size v in
  let byteSize := calculateStringSize str in
  let v := expandBy byteSize v in
  let buffer :=
    BasicWriteBuffer.mk (m_data v) oldLength (oldLength + byteSize) in
  let buffer :=
    BasicWriteBuffer.unsafePushBack native_endian Encoding uint32_t
      (string_size str mod 2 ^ 32) buffer in
  let buffer :=
    if negb (string_empty str)
    then BasicWriteBuffer.unsafePushBack_span native_endian Encoding char
           (string_chars str) buffer
    else buffer in
  let buffer :=
    BasicWriteBuffer.unsafePushBack native_endian Encoding uint32_t
      (string_size str mod 2 ^ 32) buffer in
  mk (m_size v) (BasicWriteBuffer.mem buffer) (m_capacity v).

(** [pushBack(const std::wstring& wstr)] *)
Definition pushBack_wstring (wstr : wstring) (v : t) : t :=
  let oldLength := size v in
  let byteSize := calculateWideStringSize wstr in
  let v := expandBy byteSize v in
  let buffer :=
    BasicWriteBuffer.mk (m_data v) oldLength (oldLength + byteSize) in
  let buffer :=
    BasicWriteBuffer.unsafePushBack native_endian Encoding uint32_t
      (Z.of_nat (List.length wstr) mod 2 ^ 32) buffer in
  let buffer :=
    match wstr with
    | [] => buffer
    | _ :: _ =>
        BasicWriteBuffer.unsafePushBack_span native_endian Encoding wchar_t
          wstr buffer
    end in
  let buffer :=
    BasicWriteBuffer.unsafePushBack native_endian Encoding uint32_t
      (Z.of_nat (List.length wstr) mod 2 ^ 32) buffer in
  mk (m_size v) (BasicWriteBuffer.mem buffer) (m_capacity v).

(** [popBack(std::span<T, N> span)]: the failure flag, the elements of
    [span] and the vector. *)
Definition popBack_span (T : SwapType) (span : list Z) (v : t)
  : bool * list Z * t :=
  let byteSize := sizeof T * Z.of_nat (List.length span) in
  if byteSize <=? m_size v then
    let v := mk (m_size v - byteSize) (m_data v) (m_capacity v) in
    let (span, _) :=
      BasicReadBuffer.unsafePopFront_span native_endian Encoding T
        (List.length span)
        (BasicReadBuffer.mk (m_data v) (size v) (size v + byteSize)) in
    (false, span, v)
  else (true, span, v).

(** [popBack(std::string& str)] *)
Definition popBack_string (str : string) (v : t) : bool * string * t :=
  let buffer := BasicReadBuffer.mk (m_data v) 0 (size v) in
  let '(failed, str, buffer) :=
    BasicReadBuffer.popBack_string native_endian Encoding str buffer in
  if negb failed
  then (false, str,
        mk (BasicReadBuffer.size buffer) (m_data v) (m_capacity v))
  else (true, str, v).

(** [popBack(std::wstring& wstr)] *)
Definition popBack_wstring (wstr : wstring) (v : t)
  : bool * wstring * t :=
  let buffer := BasicReadBuffer.mk (m_data v) 0 (size v) in
  let '(failed, wstr, buffer) :=
    BasicReadBuffer.popBack_wstring native_endian Encoding wchar_t wstr
      buffer in
  if negb failed
  then (false, wstr,
        mk (BasicReadBuffer.size buffer) (m_data v) (m_capacity v))
  else (true, wstr, v).
End WithEndianOps.

(** [BasicVector(const BasicVector& other)] *)
Definition copy_of (other : t) : t :=
  let v := vector_resize (m_size other) (mk (m_size other) [] 0) in
  if 0 <? m_size v
  then mk (m_size v)
         (memcpy (m_data v) 0 (load (m_data other) 0 (m_size v)))
         (m_capacity v)
  else v.
End BasicVector.

Module Vector.
(** [Vector::error()]; [size()] is the member inherited from
    [BasicVector<stream_endian>], the very function the qualified call
    names. *)
Definition error (v : BasicVector.t) : Z :=
  if BasicVector.size v <? BasicVector.size v then 1 else 0.

(** [popBackBuffer(Len)]: the read buffer over the bytes removed and the
    vector. *)
Definition popBackBuffer (Len : Z) (v : BasicVector.t)
  : BasicReadBuffer.t * BasicVector.t :=
  let (Len, v) := BasicVector.shrinkBy Len v in
  (BasicReadBuffer.mk (BasicVector.m_data v) (BasicVector.size v)
     (BasicVector.size v + Len), v).

(** [operator==] *)
Definition eqb (lhs rhs : BasicVector.t) : bool :=
  (BasicVector.size lhs =? BasicVector.size rhs)
  && (memcmp (BasicVector.m_data lhs) 0 (BasicVector.m_data rhs) 0
        (BasicVector.size lhs) =? 0).

(** [operator!=] *)
Definition neqb (lhs rhs : BasicVector.t) : bool := negb (eqb lhs rhs).
End Vector.

(** A swappable value with its type. *)
Definition typed_value : Type := SwapType * Z.

(** Appending the values one at a time to a growable buffer. *)
Definition vector_pushBack_all (native_endian Encoding : endian)
    (vals : list typed_value) (v : BasicVector.t) : BasicVector.t :=
  fold_left
    (fun v tv =>
       BasicVector.pushBack native_endian Encoding (fst tv) (snd tv) v)
    vals v.

(** Writing the values in order with the safe [pushBack] of a fixed write
    buffer; the flag is [true] when some write failed. *)
Fixpoint buffer_pushBack_all (native_endian Encoding : endian)
    (vals : list typed_value) (b : BasicWriteBuffer.t)
  : bool * BasicWriteBuffer.t :=
  match vals with
  | [] => (false, b)
  | tv :: vals' =>
      let (failed, b) :=
        BasicWriteBuffer.pushBack native_endian Encoding (fst tv) (snd tv) b in
      let (failed', b) :=
        buffer_pushBack_all native_endian Encoding vals' b in
      (failed || failed', b)
  end.

(** The total encoded length of the values. *)
Definition encoded_length (vals : list typed_value) : Z :=
  fold_right (fun tv n => sizeof (fst tv) + n) 0 vals.

(** ** EndianByteArray.h *)

Module ByteArray.
Definition HashPrime : Z := 1099511628211.
Definition HashInit : Z := 14695981039346656037.

(** [uint64_t] arithmetic wraps modulo [2 ^ 64]. *)
Definition computeNextHash (currentHash nextByte : Z) : Z :=
  let currentHash := Z.lxor currentHash nextByte in
  (currentHash * HashPrime) mod 2 ^ 64.

(** [m_bytes[i]] and [m_bytes[i] = b]. *)
Definition at_index (m_bytes : list Z) (i : Z) : Z :=
  nth (Z.to_nat i) m_bytes 0.
Definition store (m_bytes : list Z) (i : Z) (b : Z) : list Z :=
  memcpy m_bytes i [b].

Section WithSize.
(** The template argument, [N > 0]. *)
Variable N : Z.

(** [while (index < maxIndex) hash = computeNextHash(hash, m_bytes[index++]);] *)
Fixpoint hash_while (fuel : nat) (m_bytes : list Z) (maxIndex index hash : Z)
  : Z * Z :=
  match fuel with
  | O => (index, hash)
  | S fuel' =>
      if index <? maxIndex
      then hash_while fuel' m_bytes maxIndex (index + 1)
             (computeNextHash hash (at_index m_bytes index))
      else (index, hash)
  end.

(** The unrolled loop, eight bytes for each iteration. *)
Fixpoint hash_bulk (fuel : nat) (m_bytes : list Z) (bulkEnd index hash : Z)
  : Z * Z :=
  match fuel with
  | O => (index, hash)
  | S fuel' =>
      if index <? bulkEnd then
        let hash := computeNextHash hash (at_index m_bytes index) in
        let hash := computeNextHash hash (at_index m_bytes (index + 1)) in
        let hash := computeNextHash hash (at_index m_bytes (index + 2)) in
        let hash := computeNextHash hash (at_index m_bytes (index + 3)) in
        let hash := computeNextHash hash (at_index m_bytes (index + 4)) in
        let hash := computeNextHash hash (at_index m_bytes (index + 5)) in
        let hash := computeNextHash hash (at_index m_bytes (index + 6)) in
        let hash := computeNextHash hash (at_index m_bytes (index + 7)) in
        hash_bulk fuel' m_bytes bulkEnd (index + 8) hash
      else (index, hash)
  end.

Definition computeHash (m_bytes : list Z) (initialHash maxIndex : Z) : Z :=
  if maxIndex <=? 8 then
    snd (hash_while (Z.to_nat maxIndex) m_bytes maxIndex 0 initialHash)
  else
    let bulkEnd := Z.land maxIndex (Z.lnot 7 mod 2 ^ 64) in
    let (index, hash) :=
      hash_bulk (Z.to_nat maxIndex) m_bytes bulkEnd 0 initialHash in
    snd (hash_while (Z.to_nat maxIndex) m_bytes maxIndex index hash).

Definition generateHash (m_bytes : list Z) : Z := computeHash m_bytes 0 N.

(** The range-for loop of [fillHead] over the characters left, with its
    [break]. *)
Fixpoint fillHead_range (cs : list Z) (index : Z) (m_bytes : list Z)
  : Z * list Z :=
  match cs with
  | [] => (index, m_bytes)
  | c :: cs' =>
      if negb (c =? 0) then
        let m_bytes := store m_bytes index (c mod 256) in
        let index := index + 1 in
        if index =? N then (index, m_bytes)
        else fillHead_range cs' index m_bytes
      else fillHead_range cs' index m_bytes
  end.

(** The loop [for (i = 0; i < N; ++i)] of [fillHead], reading [str[i]]. *)
Fixpoint fillHead_for (fuel : nat) (str : list Z) (i index : Z)
    (m_bytes : list Z) : Z * list Z :=
  match fuel with
  | O => (index, m_bytes)
  | S fuel' =>
      if i <? N then
        let c := nth (Z.to_nat i) str 0 in
        if negb (c =? 0) then
          let m_bytes := store m_bytes index (c mod 256) in
          let index := index + 1 in
          if index =? N then (index, m_bytes)
          else fillHead_for fuel' str (i + 1) index m_bytes
        else fillHead_for fuel' str (i + 1) index m_bytes
      else (index, m_bytes)
  end.

(** [fillHead(const std::string&)]: the number of bytes filled and the
    array. *)
Definition fillHead (str : string) (m_bytes : list Z) : Z * list Z :=
  if string_size str <=? N
  then fillHead_range (string_chars str) 0 m_bytes
  else fillHead_for (Z.to_nat N) (string_chars str) 0 0 m_bytes.

(** The padding loop of [fillTail]. *)
Fixpoint fillTail_while (fuel : nat) (filledBytes hashValue : Z)
    (m_bytes : list Z) : Z * list Z :=
  match fuel with
  | O => (hashValue, m_bytes)
  | S fuel' =>
      if filledBytes <? N then
        let hashValue :=
          computeNextHash hashValue (at_index m_bytes (filledBytes mod N)) in
        let m_bytes := store m_bytes filledBytes (hashValue mod 256) in
        fillTail_while fuel' (filledBytes + 1) hashValue m_bytes
      else (hashValue, m_bytes)
  end.

(** [fillTail(filledBytes)]: the returned hash and the array. *)
Definition fillTail (filledBytes : Z) (m_bytes : list Z) : Z * list Z :=
  if filledBytes =? 0 then (0, repeat 0 (Z.to_nat N))
  else
    let hashValue := computeHash m_bytes HashInit filledBytes in
    let (filledBytes, m_bytes) :=
      if filledBytes <? N
      then (filledBytes + 1, store m_bytes filledBytes 0)
      else (filledBytes, m_bytes) in
    fillTail_while (Z.to_nat N) filledBytes hashValue m_bytes.

(** [fill(const std::string&)]; the [memset] makes the result independent
    of the previous contents of the array. *)
Definition fill (str : string) : Z * list Z :=
  let m_bytes := repeat 0 (Z.to_nat N) in
  let (filledBytes, m_bytes) := fillHead str m_bytes in
  fillTail filledBytes m_bytes.

(** [ByteArray(const std::string&)]: the array constructed. *)
Definition of_string (str : string) : list Z := snd (fill str).

(** The padding as the spec words it: each remaining position gets the low
    byte of the hash updated "with the most recently written byte", the
    byte just before that position. *)
Fixpoint spec_padding (fuel : nat) (filledBytes hashValue : Z)
    (m_bytes : list Z) : list Z :=
  match fuel with
  | O => m_bytes
  | S fuel' =>
      if filledBytes <? N then
        let hashValue :=
          computeNextHash hashValue (at_index m_bytes (filledBytes - 1)) in
        spec_padding fuel' (filledBytes + 1) hashValue
          (store m_bytes filledBytes (hashValue mod 256))
      else m_bytes
  end.

(** The array the spec describes for a copy phase that filled
    [0 < k < N] bytes: hash of the [k] bytes, terminator, padding. *)
Definition spec_of_string (str : string) : list Z :=
  let (k, m_bytes) := fillHead str (repeat 0 (Z.to_nat N)) in
  let hashValue := computeHash m_bytes HashInit k in
  spec_padding (Z.to_nat N) (k + 1) hashValue (store m_bytes k 0).

(** [clear()] *)
Definition clear (m_bytes : list Z) : list Z := repeat 0 (Z.to_nat N).

(** The loop of [fillWithRange]; [i * step + initial] is computed in
    [size_t], the [int] arguments being converted to it. *)
Fixpoint fillWithRange_for (fuel : nat) (initial step i : Z)
    (m_bytes : list Z) : list Z :=
  match fuel with
  | O => m_bytes
  | S fuel' =>
      if i <? N then
        let value :=
          ((i * (step mod 2 ^ 64)) mod 2 ^ 64 + initial mod 2 ^ 64)
          mod 2 ^ 64 in
        fillWithRange_for fuel' initial step (i + 1)
          (store m_bytes i (value mod 256))
      else m_bytes
  end.

(** [fillWithRange(initial, step)] for [int] arguments. *)
Definition fillWithRange (initial step : Z) (m_bytes : list Z) : list Z :=
  fillWithRange_for (Z.to_nat N) initial step 0 m_bytes.

(** [toString(count)] *)
Definition toString_count (count : Z) (m_bytes : list Z) : string :=
  let count := Z.min count N in
  chars_string (load m_bytes 0 count).

(** [while (nullPos < N && m_bytes[nullPos] != 0) ++nullPos;] *)
Fixpoint toString_while (fuel : nat) (nullPos : Z) (m_bytes : list Z) : Z :=
  match fuel with
  | O => nullPos
  | S fuel' =>
      if (nullPos <? N) && negb (at_index m_bytes nullPos =? 0)
      then toString_while fuel' (nullPos + 1) m_bytes
      else nullPos
  end.

(** [toString()] *)
Definition toString (m_bytes : list Z) : string :=
  let nullPos := toString_while (Z.to_nat N) 0 m_bytes in
  toString_count nullPos m_bytes.

(** The loop of [empty()], with its early [return false]. *)
Fixpoint empty_for (fuel : nat) (i : Z) (m_bytes : list Z) : bool :=
  match fuel with
  | O => true
  | S fuel' =>
      if i <? N then
        if negb (at_index m_bytes i =? 0) then false
        else empty_for fuel' (i + 1) m_bytes
      else true
  end.

(** [empty()] *)
Definition empty (m_bytes : list Z) : bool :=
  empty_for (Z.to_nat N) 0 m_bytes.

(** The comparison operators. *)
Definition ltb (lhs rhs : list Z) : bool := memcmp lhs 0 rhs 0 N <? 0.
Definition eqb (lhs rhs : list Z) : bool := memcmp lhs 0 rhs 0 N =? 0.
Definition neqb (lhs rhs : list Z) : bool := negb (eqb lhs rhs).
Definition gtb (lhs rhs : list Z) : bool := ltb rhs lhs.
Definition leb (lhs rhs : list Z) : bool := negb (gtb lhs rhs).
Definition geb (lhs rhs : list Z) : bool := negb (ltb lhs rhs).
End WithSize.

Section WithWideChar.
Variable N : Z.
Variable native_endian : endian.
(** [wchar_t] of the platform. *)
Variable wchar_t : SwapType.

(** One of the two steps of the loop body of [fillHead(const
    std::wstring&)]: a non-zero byte is stored; the flag tells whether the
    [break] was taken. *)
Definition fillHead_byte (x : Z) (index : Z) (m_bytes : list Z)
  : bool * Z * list Z :=
  if negb (x =? 0) then
    let m_bytes := store m_bytes index x in
    let index := index + 1 in
    (index =? N, index, m_bytes)
  else (false, index, m_bytes).

(** The range-for loop of [fillHead(const std::wstring&)]. *)
Fixpoint fillHead_wide (ws : list Z) (index : Z) (m_bytes : list Z)
  : Z * list Z :=
  match ws with
  | [] => (index, m_bytes)
  | w :: ws' =>
      let w :=
        if negb (endian_eqb native_endian little)
        then byteSwap wchar_t w
        else w in
      let '(stop, index, m_bytes) :=
        fillHead_byte (Z.land w 0xFF mod 256) index m_bytes in
      if stop then (index, m_bytes)
      else
        let '(stop, index, m_bytes) :=
          fillHead_byte (Z.shiftr w 8 mod 256) index m_bytes in
        if stop then (index, m_bytes)
        else fillHead_wide ws' index m_bytes
  end.

(** [fill(const std::wstring&)] *)
Definition fill_wide (wstr : wstring) : Z * list Z :=
  let m_bytes := repeat 0 (Z.to_nat N) in
  let (filledBytes, m_bytes) := fillHead_wide wstr 0 m_bytes in
  fillTail N filledBytes m_bytes.

(** [ByteArray(const std::wstring&)] *)
Definition of_wstring (wstr : wstring) : list Z := snd (fill_wide wstr).
End WithWideChar.
End ByteArray.

(** The string ["a\0\0bcde"] (seven characters, two of them zero). *)
Definition a00bcde : string :=
  String "a" (String Ascii.zero (String Ascii.zero "bcde")).

(** The test [if (c)] of the copy phase. *)
Definition nonzero (c : Z) : bool := negb (c =? 0).

(** "The first N non-zero-skipped bytes of the input": the input with its
    zero bytes removed, cut at [N] bytes. *)
Definition nonzero_prefix (N : Z) (str : string) : list Z :=
  firstn (Z.to_nat N) (filter nonzero (string_chars str)).

(** "The first N bytes of the input with zero bytes removed". *)
Definition prefix_nonzero (N : Z) (str : string) : list Z :=
  filter nonzero (firstn (Z.to_nat N) (string_chars str)).

(** An array of [N] bytes of which the first ones, [head], are filled and
    the others still zero. *)
Definition partial_array (N : nat) (head : list Z) : list Z :=
  head ++ repeat 0 (N - List.length head).

(** ** Auxiliary definitions of the proofs *)

(** The bit of [x] that a swap of [nbytes] bytes moves to position [i]. *)
Definition mirror_bit (nbytes i : Z) : Z := 8 * (nbytes - 1 - i / 8) + i mod 8.

(** The bytes [basicCopy<Encoding>] leaves in memory for a value of [T]. *)
Definition stream_bytes (native_endian Encoding : endian) (T : SwapType)
    (v : Z) : list Z :=
  object_bytes native_endian T
    (if Concepts.mismatch native_endian Encoding then byteSwap T v else v).

(** The framed encoding of ["hello"] in little-endian stream order. *)
Definition hello_wire : list Z :=
  [5; 0; 0; 0; 104; 101; 108; 108; 111; 5; 0; 0; 0].

(** The same bytes with the trailing length changed to [06 00 00 00]. *)
Definition hello_corrupted : list Z :=
  [5; 0; 0; 0; 104; 101; 108; 108; 111; 6; 0; 0; 0].

(** A four-byte [wchar_t] (Linux, macOS). *)
Definition wchar32 : SwapType := mkSwapType W4 true false.
(** A two-byte [wchar_t] (Windows). *)
Definition wchar16 : SwapType := mkSwapType W2 false false.

(** A value within the range of its type. *)
Definition well_typed (tv : typed_value) : Prop := in_range (fst tv) (snd tv).

(** The concatenated stream bytes of a sequence of values. *)
Definition encoding (native_endian Encoding : endian)
    (vals : list typed_value) : list Z :=
  List.concat
    (map (fun tv => stream_bytes native_endian Encoding (fst tv) (snd tv))
       vals).

(** What the padding loop of [fillTail] writes when every position it reads
    still holds the zero of the initial [memset]: each byte is the low byte
    of the hash updated with a zero byte. *)
Fixpoint unwritten_padding (count : nat) (hashValue : Z) : list Z :=
  match count with
  | O => []
  | S count' =>
      let hashValue := ByteArray.computeNextHash hashValue 0 in
      hashValue mod 256 :: unwritten_padding count' hashValue
  end.

(** The bytes of a span of values of [T] in the order [Encoding]. *)
Definition span_bytes (Encoding : endian) (T : SwapType) (vs : list Z)
  : list Z :=
  List.concat (map (object_bytes Encoding T) vs).

(** The framed encoding of a string: length, content, length. *)
Definition string_frame (Encoding : endian) (str : string) : list Z :=
  object_bytes Encoding uint32_t (string_size str)
  ++ string_chars str
  ++ object_bytes Encoding uint32_t (string_size str).

(** The framed encoding of a wide string. *)
Definition wstring_frame (Encoding : endian) (wchar_t : SwapType)
    (wstr : wstring) : list Z :=
  object_bytes Encoding uint32_t (Z.of_nat (List.length wstr))
  ++ span_bytes Encoding wchar_t wstr
  ++ object_bytes Encoding uint32_t (Z.of_nat (List.length wstr)).

(** A byte of memory. *)
Definition is_byte (b : Z) : Prop := 0 <= b < 256.

(** A write buffer in a regular state: its cursors in order, inside the
    memory, whose addresses fit [size_t]. *)
Definition write_buffer_ok (b : BasicWriteBuffer.t) : Prop :=
  0 <= BasicWriteBuffer.m_begin b <= BasicWriteBuffer.m_end b
  /\ BasicWriteBuffer.m_end b
     <= Z.of_nat (List.length (BasicWriteBuffer.mem b)) < 2 ^ 64.

(** A read buffer in a regular state, over bytes. *)
Definition read_buffer_ok (b : BasicReadBuffer.t) : Prop :=
  0 <= BasicReadBuffer.m_begin b <= BasicReadBuffer.m_end b
  /\ BasicReadBuffer.m_end b
     <= Z.of_nat (List.length (BasicReadBuffer.mem b)) < 2 ^ 64
  /\ Forall is_byte (BasicReadBuffer.mem b).

(** A length field, a span of values of [T], the length field again. *)
Definition framed (Encoding : endian) (T : SwapType) (n : Z) (vs : list Z)
  : list Z :=
  object_bytes Encoding uint32_t n
  ++ span_bytes Encoding T vs
  ++ object_bytes Encoding uint32_t n.

(** Reading values of the types [Ts] in order with the safe [popFront] of a
    read buffer; the flag is [true] when some read failed. *)
Fixpoint buffer_popFront_all (native_endian Encoding : endian)
    (Ts : list SwapType) (b : BasicReadBuffer.t)
  : bool * list Z * BasicReadBuffer.t :=
  match Ts with
  | [] => (false, [], b)
  | T :: Ts' =>
      let '(failed, value, b) :=
        BasicReadBuffer.popFront native_endian Encoding T 0 b in
      let '(failed', values, b) :=
        buffer_popFront_all native_endian Encoding Ts' b in
      (failed || failed', value :: values, b)
  end.

(** The same with the safe [popBack]. *)
Fixpoint buffer_popBack_all (native_endian Encoding : endian)
    (Ts : list SwapType) (b : BasicReadBuffer.t)
  : bool * list Z * BasicReadBuffer.t :=
  match Ts with
  | [] => (false, [], b)
  | T :: Ts' =>
      let '(failed, value, b) :=
        BasicReadBuffer.popBack native_endian Encoding T 0 b in
      let '(failed', values, b) :=
        buffer_popBack_all native_endian Encoding Ts' b in
      (failed || failed', value :: values, b)
  end.

(** A call of one of the writing members of [BasicWriteBuffer]. *)
Inductive write_op : Type :=
| op_skip (bytes : Z)
| op_pushBack (T : SwapType) (value : Z)
| op_pushBack_span (T : SwapType) (span : list Z)
| op_pushBack_string (str : string)
| op_pushBackSome (T : SwapType) (span : list Z).

(** The buffer after the call, whatever it returned. *)
Definition run_write_op (native_endian Encoding : endian) (op : write_op)
    (b : BasicWriteBuffer.t) : BasicWriteBuffer.t :=
  match op with
  | op_skip bytes => BasicWriteBuffer.skip bytes b
  | op_pushBack T value =>
      snd (BasicWriteBuffer.pushBack native_endian Encoding T value b)
  | op_pushBack_span T span =>
      snd (BasicWriteBuffer.pushBack_span native_endian Encoding T span b)
  | op_pushBack_string str =>
      snd (BasicWriteBuffer.pushBack_string native_endian Encoding str b)
  | op_pushBackSome T span =>
      snd (BasicWriteBuffer.pushBackSome native_endian Encoding T span b)
  end.

(** The buffer after a sequence of calls. *)
Definition run_write_ops (native_endian Encoding : endian)
    (ops : list write_op) (b : BasicWriteBuffer.t) : BasicWriteBuffer.t :=
  fold_left (fun b op => run_write_op native_endian Encoding op b) ops b.

(** The arguments of the call are values of their types; [skip] is given a
    number of bytes with which the end of the buffer, [limit], does not wrap
    around. *)
Definition write_op_ok (limit : Z) (op : write_op) : Prop :=
  match op with
  | op_skip bytes => 0 <= bytes /\ limit + bytes < 2 ^ 64
  | op_pushBack T value => in_range T value
  | op_pushBack_span T span => Forall (in_range T) span
  | op_pushBack_string _ => True
  | op_pushBackSome T span => Forall (in_range T) span
  end.

(** A vector in a regular state: its logical size within its storage, whose
    size fits [size_t]. *)
Definition vector_ok (v : BasicVector.t) : Prop :=
  0 <= BasicVector.m_size v <= Z.of_nat (List.length (BasicVector.m_data v))
  /\ Z.of_nat (List.length (BasicVector.m_data v)) < 2 ^ 64.

(** A call of one of the reading members of [BasicReadBuffer]; a span is
    given by its number of elements. *)
Inductive read_op : Type :=
| op_skipFront (bytes : Z)
| op_skipBack (bytes : Z)
| op_popFront (T : SwapType)
| op_popBack (T : SwapType)
| op_popFront_span (T : SwapType) (n : nat)
| op_popBack_span (T : SwapType) (n : nat)
| op_popFront_string
| op_popBack_string
| op_popFront_wstring
| op_popBack_wstring.

(** The buffer after the call, whatever it returned and read. *)
Definition run_read_op (native_endian Encoding : endian) (wchar_t : SwapType)
    (op : read_op) (b : BasicReadBuffer.t) : BasicReadBuffer.t :=
  match op with
  | op_skipFront bytes => BasicReadBuffer.skipFront bytes b
  | op_skipBack bytes => BasicReadBuffer.skipBack bytes b
  | op_popFront T =>
      snd (BasicReadBuffer.popFront native_endian Encoding T 0 b)
  | op_popBack T =>
      snd (BasicReadBuffer.popBack native_endian Encoding T 0 b)
  | op_popFront_span T n =>
      snd (BasicReadBuffer.popFront_span native_endian Encoding T
             (repeat 0 n) b)
  | op_popBack_span T n =>
      snd (BasicReadBuffer.popBack_span native_endian Encoding T
             (repeat 0 n) b)
  | op_popFront_string =>
      snd (BasicReadBuffer.popFront_string native_endian Encoding
             EmptyString b)
  | op_popBack_string =>
      snd (BasicReadBuffer.popBack_string native_endian Encoding
             EmptyString b)
  | op_popFront_wstring =>
      snd (BasicReadBuffer.popFront_wstring native_endian Encoding wchar_t
             [] b)
  | op_popBack_wstring =>
      snd (BasicReadBuffer.popBack_wstring native_endian Encoding wchar_t
             [] b)
  end.

(** The buffer after a sequence of calls. *)
Definition run_read_ops (native_endian Encoding : endian) (wchar_t : SwapType)
    (ops : list read_op) (b : BasicReadBuffer.t) : BasicReadBuffer.t :=
  fold_left (fun b op => run_read_op native_endian Encoding wchar_t op b)
    ops b.

(** [skipFront] and [skipBack] are given a number of bytes with which the
    addresses of the buffer, from [lo] to [hi], do not wrap around. *)
Definition read_op_ok (lo hi : Z) (op : read_op) : Prop :=
  match op with
  | op_skipFront bytes => 0 <= bytes /\ hi + bytes < 2 ^ 64
  | op_skipBack bytes => 0 <= bytes <= lo
  | _ => True
  end.

(** * Properties *)

(** ** Byte swapping *)

Lemma testbit_above (n x i : Z) :
  0 <= x < 2 ^ n -> 0 <= n <= i -> Z.testbit x i = false.
Proof.
  intros Hx Hi. rewrite <- (Z.mod_small x (2 ^ n)) by exact Hx.
  apply Z.mod_pow2_bits_high. exact Hi.
Qed.

Ltac eval_mask_bits :=
  repeat match goal with
  | |- context [Z.testbit (Zpos ?p) ?j] =>
      let b := eval vm_compute in (Z.testbit (Zpos p) j) in
      change (Z.testbit (Zpos p) j) with b
  end.

Ltac bswap_bit :=
  cbn [Z.of_nat Pos.of_succ_nat Pos.succ];
  rewrite Z.mod_pow2_bits_low by lia;
  repeat rewrite Z.lor_spec;
  repeat rewrite Z.shiftr_spec by lia;
  repeat rewrite Z.shiftl_spec by lia;
  repeat rewrite Z.land_spec;
  eval_mask_bits;
  rewrite ?andb_false_r, ?andb_true_r, ?orb_false_r, ?orb_false_l;
  rewrite Z.mod_pow2_bits_low by lia;
  f_equal.

Ltac enum_index i :=
  let n := fresh "n" in
  let E := fresh "E" in
  assert (E : i = Z.of_nat (Z.to_nat i)) by lia;
  revert E; generalize (Z.to_nat i); intros n E; subst i.

Lemma MZ_BSWAP16_bits (x i : Z) :
  0 <= i < 16 -> Z.testbit (MZ_BSWAP16 x) i = Z.testbit x (mirror_bit 2 i).
Proof.
  intros Hi. enum_index i. cbv beta zeta delta [MZ_BSWAP16].
  do 16 (destruct n as [|n]; [ bswap_bit | ]). lia.
Qed.

Lemma MZ_BSWAP32_bits (x i : Z) :
  0 <= i < 32 -> Z.testbit (MZ_BSWAP32 x) i = Z.testbit x (mirror_bit 4 i).
Proof.
  intros Hi. enum_index i. cbv beta zeta delta [MZ_BSWAP32].
  do 32 (destruct n as [|n]; [ bswap_bit | ]). lia.
Qed.

Lemma MZ_BSWAP64_bits (x i : Z) :
  0 <= i < 64 -> Z.testbit (MZ_BSWAP64 x) i = Z.testbit x (mirror_bit 8 i).
Proof.
  intros Hi. enum_index i. cbv beta zeta delta [MZ_BSWAP64].
  do 64 (destruct n as [|n]; [ bswap_bit | ]). lia.
Qed.

Lemma mirror_bit_range (w i : Z) :
  0 < w -> 0 <= i < 8 * w -> 0 <= mirror_bit w i < 8 * w.
Proof. intros Hw Hi. unfold mirror_bit. Z.div_mod_to_equations. lia. Qed.

Lemma mirror_bit_involutive (w i : Z) :
  0 < w -> 0 <= i < 8 * w -> mirror_bit w (mirror_bit w i) = i.
Proof.
  intros Hw Hi. unfold mirror_bit.
  assert (E : 8 * (w - 1 - i / 8) + i mod 8 = i mod 8 + (w - 1 - i / 8) * 8)
    by ring.
  rewrite E, Z.div_add, Z.mod_add by lia.
  rewrite Z.mod_mod by lia.
  rewrite (Z.div_small (i mod 8) 8) by (apply Z.mod_pos_bound; lia).
  pose proof (Z.div_mod i 8). lia.
Qed.

Section Involution.
Variables (n w : Z) (bswap : Z -> Z).
Hypothesis Hn : n = 8 * w.
Hypothesis Hw : 0 < w.
Hypothesis bswap_range : forall x, 0 <= bswap x < 2 ^ n.
Hypothesis bswap_bits :
  forall x i, 0 <= i < n -> Z.testbit (bswap x) i = Z.testbit x (mirror_bit w i).

Lemma bswap_involutive (x : Z) : 0 <= x < 2 ^ n -> bswap (bswap x) = x.
Proof.
  intros Hx. apply Z.bits_inj'. intros i Hi.
  destruct (Z.lt_ge_cases i n) as [Hlt | Hge].
  - rewrite !bswap_bits.
    + now rewrite mirror_bit_involutive by lia.
    + rewrite Hn. apply mirror_bit_range; lia.
    + lia.
  - rewrite (testbit_above n (bswap (bswap x)) i) by (auto; lia).
    now rewrite (testbit_above n x i) by (auto; lia).
Qed.
End Involution.

Lemma MZ_BSWAP16_range (x : Z) : 0 <= MZ_BSWAP16 x < 2 ^ 16.
Proof. apply Z.mod_pos_bound. reflexivity. Qed.
Lemma MZ_BSWAP32_range (x : Z) : 0 <= MZ_BSWAP32 x < 2 ^ 32.
Proof. apply Z.mod_pos_bound. reflexivity. Qed.
Lemma MZ_BSWAP64_range (x : Z) : 0 <= MZ_BSWAP64 x < 2 ^ 64.
Proof. apply Z.mod_pos_bound. reflexivity. Qed.

Lemma MZ_BSWAP16_involutive (x : Z) :
  0 <= x < 2 ^ 16 -> MZ_BSWAP16 (MZ_BSWAP16 x) = x.
Proof.
  apply (bswap_involutive 16 2); auto using MZ_BSWAP16_range, MZ_BSWAP16_bits; lia.
Qed.
Lemma MZ_BSWAP32_involutive (x : Z) :
  0 <= x < 2 ^ 32 -> MZ_BSWAP32 (MZ_BSWAP32 x) = x.
Proof.
  apply (bswap_involutive 32 4); auto using MZ_BSWAP32_range, MZ_BSWAP32_bits; lia.
Qed.
Lemma MZ_BSWAP64_involutive (x : Z) :
  0 <= x < 2 ^ 64 -> MZ_BSWAP64 (MZ_BSWAP64 x) = x.
Proof.
  apply (bswap_involutive 64 8); auto using MZ_BSWAP64_range, MZ_BSWAP64_bits; lia.
Qed.

(** Conversions between [T] and the unsigned type of its width. *)
Lemma to_unsigned_range (w : Width) (v : Z) : 0 <= to_unsigned w v < 2 ^ bits w.
Proof. apply Z.mod_pos_bound. destruct w; reflexivity. Qed.

Lemma to_of_unsigned (T : SwapType) (u : Z) :
  0 <= u < 2 ^ bits (width T) -> to_unsigned (width T) (of_unsigned T u) = u.
Proof.
  destruct T as [w s e]. unfold to_unsigned, of_unsigned; cbn [width is_signed].
  intros Hu. destruct s; cbn [andb].
  - destruct (Z.leb_spec (2 ^ (bits w - 1)) u).
    + replace (u - 2 ^ bits w) with (u + (-1) * 2 ^ bits w) by ring.
      rewrite Z.mod_add by (destruct w; discriminate).
      now apply Z.mod_small.
    + now apply Z.mod_small.
  - now apply Z.mod_small.
Qed.

Lemma of_to_unsigned (T : SwapType) (v : Z) :
  in_range T v -> of_unsigned T (to_unsigned (width T) v) = v.
Proof.
  destruct T as [w s e]. unfold in_range, to_unsigned, of_unsigned;
    cbn [width is_signed].
  assert (Hp : 2 ^ bits w = 2 * 2 ^ (bits w - 1)) by (destruct w; reflexivity).
  assert (Hq : 0 < 2 ^ (bits w - 1)) by (destruct w; reflexivity).
  destruct s; cbn [andb]; intros Hv.
  - destruct (Z.lt_ge_cases v 0) as [Hneg | Hpos].
    + assert (E : v mod 2 ^ bits w = v + 2 ^ bits w).
      { replace v with ((v + 2 ^ bits w) + (-1) * 2 ^ bits w) at 1 by ring.
        rewrite Z.mod_add, Z.mod_small by lia. reflexivity. }
      rewrite E.
      destruct (Z.leb_spec (2 ^ (bits w - 1)) (v + 2 ^ bits w)); lia.
    + rewrite Z.mod_small by lia.
      destruct (Z.leb_spec (2 ^ (bits w - 1)) v); lia.
  - now apply Z.mod_small.
Qed.

Lemma of_unsigned_range (T : SwapType) (u : Z) :
  0 <= u < 2 ^ bits (width T) -> in_range T (of_unsigned T u).
Proof.
  destruct T as [w s e]. unfold in_range, of_unsigned; cbn [width is_signed].
  assert (Hp : 2 ^ bits w = 2 * 2 ^ (bits w - 1)) by (destruct w; reflexivity).
  intros Hu. destruct s; cbn [andb]; [ | exact Hu ].
  destruct (Z.leb_spec (2 ^ (bits w - 1)) u); lia.
Qed.

Lemma byteSwap_integral_involutive (T : SwapType) (v : Z) :
  in_range T v -> byteSwap_integral T (byteSwap_integral T v) = v.
Proof.
  intros Hv. pose proof (of_to_unsigned T v Hv) as Hof.
  pose proof (to_of_unsigned T) as Hto.
  pose proof (to_unsigned_range (width T) v) as Hr.
  unfold byteSwap_integral.
  destruct (width T) eqn:Ew; [ reflexivity | | | ].
  - rewrite Hto by apply MZ_BSWAP16_range.
    now rewrite MZ_BSWAP16_involutive by exact Hr.
  - rewrite Hto by apply MZ_BSWAP32_range.
    now rewrite MZ_BSWAP32_involutive by exact Hr.
  - rewrite Hto by apply MZ_BSWAP64_range.
    now rewrite MZ_BSWAP64_involutive by exact Hr.
Qed.

Lemma byteSwap_integral_range (T : SwapType) (v : Z) :
  in_range T v -> in_range T (byteSwap_integral T v).
Proof.
  intros Hv. unfold byteSwap_integral.
  destruct (width T) eqn:Ew; [ exact Hv | | | ];
    apply of_unsigned_range; rewrite Ew.
  - apply MZ_BSWAP16_range.
  - apply MZ_BSWAP32_range.
  - apply MZ_BSWAP64_range.
Qed.

Lemma byteSwap_enum_underlying (E : SwapType) (v : Z) :
  byteSwap_enum E v
  = byteSwap_integral (mkSwapType (width E) (is_signed E) false) v.
Proof.
  unfold byteSwap_enum, byteSwap_integral; cbn [width].
  now destruct (width E).
Qed.

Lemma byteSwap_involutive (T : SwapType) (v : Z) :
  in_range T v -> byteSwap T (byteSwap T v) = v.
Proof.
  intros Hv. unfold byteSwap.
  destruct (is_enum T); [ | now apply byteSwap_integral_involutive ].
  rewrite !byteSwap_enum_underlying.
  apply byteSwap_integral_involutive. exact Hv.
Qed.

Lemma byteSwap_range (T : SwapType) (v : Z) :
  in_range T v -> in_range T (byteSwap T v).
Proof.
  intros Hv. unfold byteSwap.
  destruct (is_enum T); [ | now apply byteSwap_integral_range ].
  rewrite byteSwap_enum_underlying.
  exact (byteSwap_integral_range
           (mkSwapType (width T) (is_signed T) false) v Hv).
Qed.

Lemma byteSwap_single_byte (T : SwapType) (v : Z) :
  width T = W1 -> byteSwap T v = v.
Proof.
  intros Ew. unfold byteSwap, byteSwap_enum, byteSwap_integral.
  rewrite Ew. now destruct (is_enum T).
Qed.

(** The example of the README. *)
Example byteSwap_u32 : byteSwap uint32_t 0x12345678 = 0x78563412.
Proof. reflexivity. Qed.

Example byteSwap_i16 :
  byteSwap (mkSwapType W2 true false) 1 = 256
  /\ byteSwap (mkSwapType W2 true true) 128 = -32768.
Proof. split; reflexivity. Qed.

(** C6.  For every swappable type [T] (integral or enumeration, of width 1,
    2, 4 or 8 bytes) and every value [x] of [T], swapping twice gives [x]
    back; when [T] is one byte wide the swap itself is the identity. *)
Theorem byteSwap_twice (T : SwapType) (x : Z) :
  in_range T x ->
  byteSwap T (byteSwap T x) = x /\ (sizeof T = 1 -> byteSwap T x = x).
Proof.
  intros Hx. split.
  - now apply byteSwap_involutive.
  - intros Hs. apply byteSwap_single_byte.
    unfold sizeof in Hs. destruct (width T); [ reflexivity | | | ]; discriminate.
Qed.

Lemma byteSwap_twice_witness :
  in_range (mkSwapType W8 true true) (-0x0123456789ABCDEF)
  /\ byteSwap (mkSwapType W8 true true)
       (byteSwap (mkSwapType W8 true true) (-0x0123456789ABCDEF))
     = -0x0123456789ABCDEF.
Proof.
  assert (Hr : in_range (mkSwapType W8 true true) (-0x0123456789ABCDEF))
    by (unfold in_range; simpl; lia).
  split; [ exact Hr | ].
  exact (proj1 (byteSwap_twice (mkSwapType W8 true true)
                  (-0x0123456789ABCDEF) Hr)).
Defined.

(** ** Memory *)

Lemma memcpy_app (pre old post new : list Z) (p : Z) :
  p = Z.of_nat (List.length pre) ->
  List.length old = List.length new ->
  memcpy (pre ++ old ++ post) p new = pre ++ new ++ post.
Proof.
  intros -> Hlen. unfold memcpy. rewrite Nat2Z.id.
  assert (E : firstn (List.length pre) (pre ++ old ++ post) ++ new
              ++ skipn (List.length pre + List.length new)
                   (pre ++ old ++ post)
              = pre ++ new ++ post).
  { rewrite firstn_app, firstn_all, Nat.sub_diag, firstn_O, app_nil_r.
    f_equal. f_equal.
    rewrite skipn_app, (skipn_all2 pre) by lia.
    replace (List.length pre + List.length new - List.length pre)%nat
      with (List.length old) by lia.
    rewrite skipn_app, skipn_all, Nat.sub_diag. reflexivity. }
  rewrite E. apply firstn_all2. rewrite !length_app. lia.
Qed.

Lemma load_app (pre bs post : list Z) (p n : Z) :
  p = Z.of_nat (List.length pre) ->
  n = Z.of_nat (List.length bs) ->
  load (pre ++ bs ++ post) p n = bs.
Proof.
  intros -> ->. unfold load. rewrite !Nat2Z.id.
  rewrite skipn_app, skipn_all, Nat.sub_diag. cbn [skipn app].
  rewrite firstn_app, firstn_all, Nat.sub_diag, firstn_O, app_nil_r.
  reflexivity.
Qed.

(** ** Object representations *)

Lemma le_bytes_length (n : nat) (u : Z) : List.length (le_bytes n u) = n.
Proof. revert u. induction n; intros u; cbn; [ | rewrite IHn ]; reflexivity. Qed.

Lemma le_value_bytes (n : nat) (u : Z) :
  le_value (le_bytes n u) = u mod 256 ^ Z.of_nat n.
Proof.
  revert u. induction n as [| n IH]; intros u.
  - cbn. now rewrite Z.mod_1_r.
  - cbn [le_bytes le_value]. rewrite IH, Nat2Z.inj_succ, Z.pow_succ_r by lia.
    rewrite Z.rem_mul_r by lia. reflexivity.
Qed.

Lemma sizeof_pos (T : SwapType) : 0 < sizeof T.
Proof. unfold sizeof. now destruct (width T). Qed.

Lemma sizeof_le_1 (T : SwapType) : sizeof T <= 1 -> width T = W1.
Proof.
  unfold sizeof. destruct (width T); cbn; intros H; [ reflexivity | | | ]; lia.
Qed.

Lemma pow256_sizeof (T : SwapType) :
  256 ^ Z.of_nat (Z.to_nat (sizeof T)) = 2 ^ bits (width T).
Proof. unfold sizeof. now destruct (width T). Qed.

Lemma object_bytes_length (native : endian) (T : SwapType) (v : Z) :
  List.length (object_bytes native T v) = Z.to_nat (sizeof T).
Proof.
  unfold object_bytes. destruct native; [ | rewrite length_rev ];
    apply le_bytes_length.
Qed.

Lemma object_value_bytes (native : endian) (T : SwapType) (v : Z) :
  in_range T v -> object_value native T (object_bytes native T v) = v.
Proof.
  intros Hv. unfold object_value, object_bytes.
  assert (E : le_value (le_bytes (Z.to_nat (sizeof T)) (to_unsigned (width T) v))
              = to_unsigned (width T) v).
  { rewrite le_value_bytes, pow256_sizeof.
    apply Z.mod_small, to_unsigned_range. }
  destruct native; [ | rewrite rev_involutive ];
    rewrite E; now apply of_to_unsigned.
Qed.

Lemma stream_bytes_length (native Encoding : endian) (T : SwapType) (v : Z) :
  List.length (stream_bytes native Encoding T v) = Z.to_nat (sizeof T).
Proof. apply object_bytes_length. Qed.

(** ** basicCopy *)
Section BasicCopy.
Variables native Encoding : endian.
Variable T : SwapType.

Lemma basicCopy_value_app (pre old post : list Z) (p v : Z) :
  in_range T v ->
  p = Z.of_nat (List.length pre) ->
  List.length old = Z.to_nat (sizeof T) ->
  Concepts.basicCopy_value native Encoding T p v (pre ++ old ++ post)
  = pre ++ stream_bytes native Encoding T v ++ post.
Proof.
  intros Hv Hp Hold. unfold Concepts.basicCopy_value, stream_bytes.
  rewrite memcpy_app by (auto; now rewrite object_bytes_length).
  destruct (Concepts.mismatch native Encoding); [ | reflexivity ].
  rewrite load_app
    by (auto; rewrite object_bytes_length; pose proof (sizeof_pos T); lia).
  rewrite object_value_bytes by exact Hv.
  apply memcpy_app; [ exact Hp | now rewrite !object_bytes_length ].
Qed.

Lemma basicCopy_read_app (pre post : list Z) (p v : Z) :
  in_range T v ->
  p = Z.of_nat (List.length pre) ->
  Concepts.basicCopy_read native Encoding T p
    (pre ++ stream_bytes native Encoding T v ++ post) = v.
Proof.
  intros Hv Hp. unfold Concepts.basicCopy_read.
  rewrite load_app
    by (auto; rewrite stream_bytes_length; pose proof (sizeof_pos T); lia).
  unfold stream_bytes.
  destruct (Concepts.mismatch native Encoding).
  - rewrite object_value_bytes by now apply byteSwap_range.
    now apply byteSwap_involutive.
  - now apply object_value_bytes.
Qed.

Lemma concat_bytes_length (f : Z -> list Z) (vs : list Z) :
  (forall v, List.length (f v) = Z.to_nat (sizeof T)) ->
  Z.of_nat (List.length (List.concat (map f vs)))
  = sizeof T * Z.of_nat (List.length vs).
Proof.
  intros Hf. pose proof (sizeof_pos T).
  induction vs as [| v vs IH]; cbn [map List.concat List.length]; [ lia | ].
  rewrite length_app, Hf. lia.
Qed.

Lemma swap_in_place_app (vs : list Z) : forall (pre post : list Z) (p : Z),
  Forall (in_range T) vs ->
  p = Z.of_nat (List.length pre) ->
  Concepts.swap_in_place native T p (List.length vs)
    (pre ++ List.concat (map (object_bytes native T) vs) ++ post)
  = pre ++ List.concat (map (fun v => object_bytes native T (byteSwap T v)) vs)
        ++ post.
Proof.
  pose proof (sizeof_pos T) as Hs.
  induction vs as [| v vs IH]; intros pre post p Hvs Hp; [ reflexivity | ].
  inversion Hvs as [| ? ? Hv Hvs']; subst.
  cbn [List.length Concepts.swap_in_place map List.concat].
  rewrite <- !app_assoc.
  rewrite load_app by (auto; rewrite object_bytes_length; lia).
  rewrite object_value_bytes by exact Hv.
  rewrite memcpy_app by (auto; now rewrite !object_bytes_length).
  rewrite (app_assoc pre), IH; auto.
  - now rewrite <- app_assoc.
  - rewrite length_app, object_bytes_length. lia.
Qed.

Lemma basicCopy_span_app (pre old post : list Z) (p : Z) (vs : list Z) :
  Forall (in_range T) vs ->
  p = Z.of_nat (List.length pre) ->
  Z.of_nat (List.length old) = sizeof T * Z.of_nat (List.length vs) ->
  Concepts.basicCopy_span native Encoding T p vs (pre ++ old ++ post)
  = pre ++ List.concat (map (stream_bytes native Encoding T) vs) ++ post.
Proof.
  intros Hvs Hp Hold. unfold Concepts.basicCopy_span.
  rewrite memcpy_app.
  2: exact Hp.
  2: { apply Nat2Z.inj. rewrite Hold. symmetry.
       apply concat_bytes_length, object_bytes_length. }
  unfold stream_bytes.
  destruct (Concepts.mismatch native Encoding); cbn [andb].
  - destruct (Z.ltb_spec 1 (sizeof T)) as [Hgt | Hle].
    + now apply swap_in_place_app.
    + apply f_equal, (f_equal (fun l => l ++ post)), f_equal, map_ext.
      intros v. now rewrite byteSwap_single_byte by now apply sizeof_le_1.
  - reflexivity.
Qed.

Lemma typed_array_app (vs : list Z) (post : list Z) :
  Forall (in_range T) vs ->
  typed_array native T (List.length vs)
    (List.concat (map (object_bytes native T) vs) ++ post) = vs.
Proof.
  induction vs as [| v vs IH]; intros Hvs; [ reflexivity | ].
  inversion Hvs as [| ? ? Hv Hvs']; subst.
  cbn [List.length typed_array map List.concat].
  rewrite <- app_assoc.
  rewrite <- (object_bytes_length native T v).
  rewrite firstn_app, firstn_all, Nat.sub_diag, firstn_O, app_nil_r.
  rewrite skipn_app, skipn_all, Nat.sub_diag. cbn [skipn app].
  rewrite object_value_bytes by exact Hv.
  f_equal. now apply IH.
Qed.

Lemma basicCopy_read_span_app (pre post : list Z) (p : Z) (vs : list Z) :
  Forall (in_range T) vs ->
  p = Z.of_nat (List.length pre) ->
  Concepts.basicCopy_read_span native Encoding T (List.length vs) p
    (pre ++ List.concat (map (stream_bytes native Encoding T) vs) ++ post)
  = vs.
Proof.
  intros Hvs Hp. unfold Concepts.basicCopy_read_span.
  rewrite load_app; [ | exact Hp | ].
  2: { symmetry. apply concat_bytes_length. intros v. apply stream_bytes_length. }
  unfold stream_bytes.
  destruct (Concepts.mismatch native Encoding); cbn [andb].
  - rewrite <- (app_nil_r (List.concat _)).
    rewrite <- (map_map (byteSwap T) (object_bytes native T)).
    rewrite <- (length_map (byteSwap T) vs).
    rewrite typed_array_app.
    2: { apply Forall_map. eapply Forall_impl; [ | exact Hvs ].
         intros v. apply byteSwap_range. }
    destruct (Z.ltb_spec 1 (sizeof T)) as [Hgt | Hle].
    + rewrite map_map. rewrite <- (map_id vs) at 2.
      apply map_ext_Forall. eapply Forall_impl; [ | exact Hvs ].
      intros v. apply byteSwap_involutive.
    + rewrite <- (map_id vs) at 2.
      apply map_ext. intros v.
      apply byteSwap_single_byte. now apply sizeof_le_1.
  - rewrite <- (app_nil_r (List.concat _)).
    rewrite typed_array_app by exact Hvs.
    now destruct (1 <? sizeof T).
Qed.
End BasicCopy.

(** ** The swap reverses the object representation *)

Lemma nth_le_bytes (n k : nat) (x : Z) :
  (k < n)%nat -> nth k (le_bytes n x) 0 = (x / 256 ^ Z.of_nat k) mod 256.
Proof.
  revert k x. induction n as [| n IH]; intros k x Hk; [ lia | ].
  destruct k as [| k]; cbn [le_bytes nth].
  - now rewrite Z.pow_0_r, Z.div_1_r.
  - rewrite IH by lia.
    rewrite Nat2Z.inj_succ, Z.pow_succ_r, Z.div_div by lia.
    reflexivity.
Qed.

Lemma digit_bits (x k i : Z) :
  0 <= k -> 0 <= i ->
  Z.testbit ((x / 256 ^ k) mod 256) i = (i <? 8) && Z.testbit x (i + 8 * k).
Proof.
  intros Hk Hi.
  change 256 with (2 ^ 8). rewrite <- Z.pow_mul_r by lia.
  rewrite Z.testbit_mod_pow2 by lia.
  now rewrite Z.div_pow2_bits by lia.
Qed.

Section Reversal.
Variables (w : nat) (bswap : Z -> Z).
Hypothesis bswap_bits :
  forall x i, 0 <= i < 8 * Z.of_nat w ->
  Z.testbit (bswap x) i = Z.testbit x (mirror_bit (Z.of_nat w) i).

Lemma digit_bswap (x : Z) (k : nat) :
  (k < w)%nat ->
  (bswap x / 256 ^ Z.of_nat k) mod 256
  = (x / 256 ^ Z.of_nat (w - 1 - k)) mod 256.
Proof.
  intros Hk. apply Z.bits_inj'. intros i Hi.
  rewrite !digit_bits by lia.
  destruct (Z.ltb_spec i 8) as [Hlt | Hge]; [ | reflexivity ].
  cbn [andb]. rewrite bswap_bits by lia. f_equal.
  unfold mirror_bit.
  replace (i + 8 * Z.of_nat k) with (i + Z.of_nat k * 8) by ring.
  rewrite Z.div_add, Z.mod_add, Z.div_small, Z.mod_small by lia.
  lia.
Qed.

Lemma le_bytes_bswap (x : Z) : le_bytes w (bswap x) = rev (le_bytes w x).
Proof.
  apply (nth_ext _ _ 0 0).
  - now rewrite length_rev, !le_bytes_length.
  - intros k Hk. rewrite le_bytes_length in Hk.
    rewrite rev_nth, le_bytes_length by (rewrite le_bytes_length; lia).
    rewrite !nth_le_bytes by lia.
    replace (w - S k)%nat with (w - 1 - k)%nat by lia.
    now apply digit_bswap.
Qed.
End Reversal.

Lemma byteSwap_integral_unsigned (T : SwapType) (v : Z) :
  to_unsigned (width T) (byteSwap_integral T v)
  = match width T with
    | W1 => to_unsigned W1 v
    | W2 => MZ_BSWAP16 (to_unsigned W2 v)
    | W4 => MZ_BSWAP32 (to_unsigned W4 v)
    | W8 => MZ_BSWAP64 (to_unsigned W8 v)
    end.
Proof.
  pose proof (to_of_unsigned T) as Hto. unfold byteSwap_integral.
  destruct (width T); [ reflexivity | | | ]; apply Hto.
  - apply MZ_BSWAP16_range.
  - apply MZ_BSWAP32_range.
  - apply MZ_BSWAP64_range.
Qed.

Lemma byteSwap_unsigned (T : SwapType) (v : Z) :
  to_unsigned (width T) (byteSwap T v)
  = match width T with
    | W1 => to_unsigned W1 v
    | W2 => MZ_BSWAP16 (to_unsigned W2 v)
    | W4 => MZ_BSWAP32 (to_unsigned W4 v)
    | W8 => MZ_BSWAP64 (to_unsigned W8 v)
    end.
Proof.
  unfold byteSwap. destruct (is_enum T).
  - rewrite byteSwap_enum_underlying.
    apply (byteSwap_integral_unsigned
             (mkSwapType (width T) (is_signed T) false)).
  - apply byteSwap_integral_unsigned.
Qed.

Lemma byteSwap_reverses (T : SwapType) (v : Z) :
  object_bytes little T (byteSwap T v) = rev (object_bytes little T v).
Proof.
  unfold object_bytes, sizeof.
  rewrite byteSwap_unsigned.
  destruct (width T).
  - reflexivity.
  - apply (le_bytes_bswap 2 MZ_BSWAP16). intros x i Hi.
    now apply MZ_BSWAP16_bits.
  - apply (le_bytes_bswap 4 MZ_BSWAP32). intros x i Hi.
    now apply MZ_BSWAP32_bits.
  - apply (le_bytes_bswap 8 MZ_BSWAP64). intros x i Hi.
    now apply MZ_BSWAP64_bits.
Qed.

(** The bytes [basicCopy<Encoding>] writes are the representation of the
    value in the order [Encoding], whatever the native order. *)
Lemma stream_bytes_encoding (native Encoding : endian) (T : SwapType) (v : Z) :
  stream_bytes native Encoding T v = object_bytes Encoding T v.
Proof.
  unfold stream_bytes, Concepts.mismatch.
  destruct native, Encoding; cbn [endian_eqb negb]; try reflexivity.
  - rewrite byteSwap_reverses. reflexivity.
  - change (object_bytes big T (byteSwap T v))
      with (rev (object_bytes little T (byteSwap T v))).
    rewrite byteSwap_reverses. apply rev_involutive.
Qed.

Lemma memory_split (m : memory) (b s : Z) :
  0 <= b -> 0 <= s -> b + s <= Z.of_nat (List.length m) ->
  exists pre old post,
    m = pre ++ old ++ post
    /\ b = Z.of_nat (List.length pre)
    /\ List.length old = Z.to_nat s
    /\ pre = firstn (Z.to_nat b) m
    /\ post = skipn (Z.to_nat (b + s)) m.
Proof.
  intros Hb Hs Hle.
  exists (firstn (Z.to_nat b) m),
         (firstn (Z.to_nat s) (skipn (Z.to_nat b) m)),
         (skipn (Z.to_nat (b + s)) m).
  repeat split.
  - rewrite <- (firstn_skipn (Z.to_nat b) m) at 1. f_equal.
    rewrite <- (firstn_skipn (Z.to_nat s) (skipn (Z.to_nat b) m)) at 1.
    f_equal. rewrite skipn_skipn. f_equal. lia.
  - rewrite length_firstn. lia.
  - rewrite length_firstn, length_skipn. lia.
Qed.

Section Roundtrip.
Variables native Encoding : endian.
Variable T : SwapType.

Lemma roundtrip_value (value old : Z) (pre buf post : list Z) :
  in_range T value ->
  Z.of_nat (List.length buf) = sizeof T ->
  let p := Z.of_nat (List.length pre) in
  let w := BasicWriteBuffer.pushBack native Encoding T value
             (BasicWriteBuffer.mk (pre ++ buf ++ post) p (p + sizeof T)) in
  let m := BasicWriteBuffer.mem (snd w) in
  fst w = false
  /\ BasicWriteBuffer.empty (snd w) = true
  /\ BasicReadBuffer.popFront native Encoding T old
       (BasicReadBuffer.mk m p (p + sizeof T))
     = (false, value, BasicReadBuffer.mk m (p + sizeof T) (p + sizeof T))
  /\ BasicReadBuffer.popBack native Encoding T old
       (BasicReadBuffer.mk m p (p + sizeof T))
     = (false, value, BasicReadBuffer.mk m p p).
Proof.
  intros Hv Hbuf p w m. subst w m.
  unfold BasicWriteBuffer.pushBack, BasicWriteBuffer.unsafePushBack.
  cbn [BasicWriteBuffer.m_begin BasicWriteBuffer.m_end BasicWriteBuffer.mem].
  rewrite Z.leb_refl. cbn [fst snd BasicWriteBuffer.mem].
  rewrite basicCopy_value_app by (auto; lia).
  unfold BasicWriteBuffer.empty, BasicReadBuffer.popFront,
    BasicReadBuffer.popBack, BasicReadBuffer.unsafePopFront,
    BasicReadBuffer.unsafePopBack, BasicReadBuffer.set_begin,
    BasicReadBuffer.set_end.
  cbn [BasicWriteBuffer.m_begin BasicWriteBuffer.m_end
       BasicReadBuffer.m_begin BasicReadBuffer.m_end BasicReadBuffer.mem].
  rewrite Z.leb_refl, Z.eqb_refl.
  replace (p + sizeof T - sizeof T) with p by lia.
  rewrite basicCopy_read_app by auto.
  repeat split.
Qed.

Lemma roundtrip_span (span olds : list Z) (pre buf post : list Z) :
  Forall (in_range T) span ->
  List.length olds = List.length span ->
  Z.of_nat (List.length buf) = sizeof T * Z.of_nat (List.length span) ->
  let p := Z.of_nat (List.length pre) in
  let e := p + sizeof T * Z.of_nat (List.length span) in
  let w := BasicWriteBuffer.pushBack_span native Encoding T span
             (BasicWriteBuffer.mk (pre ++ buf ++ post) p e) in
  let m := BasicWriteBuffer.mem (snd w) in
  fst w = false
  /\ BasicWriteBuffer.empty (snd w) = true
  /\ BasicReadBuffer.popFront_span native Encoding T olds
       (BasicReadBuffer.mk m p e)
     = (false, span, BasicReadBuffer.mk m e e)
  /\ BasicReadBuffer.popBack_span native Encoding T olds
       (BasicReadBuffer.mk m p e)
     = (false, span, BasicReadBuffer.mk m p p).
Proof.
  intros Hvs Holds Hbuf p e w m. subst w m.
  unfold BasicWriteBuffer.pushBack_span, BasicWriteBuffer.unsafePushBack_span.
  cbn [BasicWriteBuffer.m_begin BasicWriteBuffer.m_end BasicWriteBuffer.mem].
  fold e. rewrite Z.leb_refl. cbn [fst snd BasicWriteBuffer.mem].
  rewrite basicCopy_span_app by auto.
  unfold BasicWriteBuffer.empty, BasicReadBuffer.popFront_span,
    BasicReadBuffer.popBack_span, BasicReadBuffer.unsafePopFront_span,
    BasicReadBuffer.unsafePopBack_span, BasicReadBuffer.set_begin,
    BasicReadBuffer.set_end.
  cbn [BasicWriteBuffer.m_begin BasicWriteBuffer.m_end
       BasicReadBuffer.m_begin BasicReadBuffer.m_end BasicReadBuffer.mem].
  rewrite Holds. fold e. rewrite Z.leb_refl, Z.eqb_refl.
  replace (e - sizeof T * Z.of_nat (List.length span)) with p by (subst e; lia).
  rewrite basicCopy_read_span_app by auto.
  repeat split.
Qed.
End Roundtrip.

(** C1.  On either native order and for either encoding, a value of a
    swappable type written with the safe [pushBack] into a buffer of exactly
    [sizeof(T)] bytes is read back unchanged by [popFront] and by [popBack];
    a span of such values written into a buffer of exactly
    [sizeof(T) * size] bytes is read back unchanged by the span [popFront]
    (and [popBack]).  The buffer may lie anywhere in memory ([pre], [post]). *)
Theorem pushBack_pop_roundtrip (native Encoding : endian) (T : SwapType)
    (value old : Z) (span olds : list Z) (pre buf sbuf post : list Z) :
  in_range T value ->
  Forall (in_range T) span ->
  List.length olds = List.length span ->
  Z.of_nat (List.length buf) = sizeof T ->
  Z.of_nat (List.length sbuf) = sizeof T * Z.of_nat (List.length span) ->
  let p := Z.of_nat (List.length pre) in
  let e := p + sizeof T * Z.of_nat (List.length span) in
  let w := BasicWriteBuffer.pushBack native Encoding T value
             (BasicWriteBuffer.mk (pre ++ buf ++ post) p (p + sizeof T)) in
  let m := BasicWriteBuffer.mem (snd w) in
  let ws := BasicWriteBuffer.pushBack_span native Encoding T span
              (BasicWriteBuffer.mk (pre ++ sbuf ++ post) p e) in
  let ms := BasicWriteBuffer.mem (snd ws) in
  (fst w = false
   /\ BasicReadBuffer.popFront native Encoding T old
        (BasicReadBuffer.mk m p (p + sizeof T))
      = (false, value, BasicReadBuffer.mk m (p + sizeof T) (p + sizeof T))
   /\ BasicReadBuffer.popBack native Encoding T old
        (BasicReadBuffer.mk m p (p + sizeof T))
      = (false, value, BasicReadBuffer.mk m p p))
  /\ (fst ws = false
      /\ BasicReadBuffer.popFront_span native Encoding T olds
           (BasicReadBuffer.mk ms p e)
         = (false, span, BasicReadBuffer.mk ms e e)
      /\ BasicReadBuffer.popBack_span native Encoding T olds
           (BasicReadBuffer.mk ms p e)
         = (false, span, BasicReadBuffer.mk ms p p)).
Proof.
  intros Hv Hvs Holds Hbuf Hsbuf p e w m ws ms. split.
  - pose proof (roundtrip_value native Encoding T value old pre buf post Hv Hbuf)
      as H. cbv zeta in H. tauto.
  - pose proof (roundtrip_span native Encoding T span olds pre sbuf post
                  Hvs Holds Hsbuf) as H. cbv zeta in H. tauto.
Qed.

Lemma pushBack_pop_roundtrip_witness :
  in_range (mkSwapType W4 true false) (-2)
  /\ BasicReadBuffer.popFront big little (mkSwapType W4 true false) 0
       (BasicReadBuffer.mk [9; 254; 255; 255; 255; 7] 1 5)
     = (false, -2, BasicReadBuffer.mk [9; 254; 255; 255; 255; 7] 5 5).
Proof.
  assert (Hr : in_range (mkSwapType W4 true false) (-2))
    by (unfold in_range; simpl; lia).
  split; [ exact Hr | ].
  refine (proj1 (proj2 (proj1
    (pushBack_pop_roundtrip big little (mkSwapType W4 true false)
       (-2) 0 [1; -1] [0; 0] [9] [0; 0; 0; 0] [0; 0; 0; 0; 0; 0; 0; 0] [7]
       Hr _ _ _ _)))).
  - repeat constructor; unfold in_range; simpl; lia.
  - reflexivity.
  - reflexivity.
  - reflexivity.
Defined.

Section Bounds.
Variables native Encoding : endian.
Variable T : SwapType.

Lemma pushBack_overflow (value : Z) (wb : BasicWriteBuffer.t) :
  BasicWriteBuffer.m_end wb - BasicWriteBuffer.m_begin wb < sizeof T ->
  BasicWriteBuffer.pushBack native Encoding T value wb = (true, wb).
Proof.
  intros H. unfold BasicWriteBuffer.pushBack.
  destruct (Z.leb_spec (BasicWriteBuffer.m_begin wb + sizeof T)
              (BasicWriteBuffer.m_end wb)); [ lia | reflexivity ].
Qed.

Lemma pushBack_fits (value : Z) (wb : BasicWriteBuffer.t) :
  in_range T value ->
  0 <= BasicWriteBuffer.m_begin wb ->
  BasicWriteBuffer.m_end wb <= Z.of_nat (List.length (BasicWriteBuffer.mem wb)) ->
  sizeof T <= BasicWriteBuffer.m_end wb - BasicWriteBuffer.m_begin wb ->
  let b := BasicWriteBuffer.m_begin wb in
  let r := BasicWriteBuffer.pushBack native Encoding T value wb in
  let m' := BasicWriteBuffer.mem (snd r) in
  fst r = false
  /\ BasicWriteBuffer.m_begin (snd r) = b + sizeof T
  /\ BasicWriteBuffer.m_end (snd r) = BasicWriteBuffer.m_end wb
  /\ load m' b (sizeof T) = object_bytes Encoding T value
  /\ firstn (Z.to_nat b) m' = firstn (Z.to_nat b) (BasicWriteBuffer.mem wb)
  /\ skipn (Z.to_nat (b + sizeof T)) m'
     = skipn (Z.to_nat (b + sizeof T)) (BasicWriteBuffer.mem wb).
Proof.
  intros Hv Hb He Hfit b r m'. subst r m' b.
  pose proof (sizeof_pos T) as Hs.
  unfold BasicWriteBuffer.pushBack, BasicWriteBuffer.unsafePushBack.
  destruct (Z.leb_spec (BasicWriteBuffer.m_begin wb + sizeof T)
              (BasicWriteBuffer.m_end wb)); [ | lia ].
  cbn [fst snd BasicWriteBuffer.mem BasicWriteBuffer.m_begin
       BasicWriteBuffer.m_end].
  destruct (memory_split (BasicWriteBuffer.mem wb)
              (BasicWriteBuffer.m_begin wb) (sizeof T))
    as (pre & old & post & Em & Ep & Eold & Epre & Epost); try lia.
  rewrite Em, basicCopy_value_app by auto.
  repeat split.
  - rewrite <- (stream_bytes_encoding native).
    apply load_app; [ exact Ep | ]. rewrite stream_bytes_length. lia.
  - rewrite Ep, Nat2Z.id.
    now rewrite !firstn_app, !firstn_all, Nat.sub_diag.
  - replace (Z.to_nat (BasicWriteBuffer.m_begin wb + sizeof T))
      with (List.length pre + Z.to_nat (sizeof T))%nat by lia.
    rewrite !skipn_app.
    rewrite !(skipn_all2 pre) by lia.
    replace (List.length pre + Z.to_nat (sizeof T) - List.length pre)%nat
      with (Z.to_nat (sizeof T)) by lia.
    rewrite <- (stream_bytes_length native Encoding T value) at 1 2.
    rewrite skipn_all, Nat.sub_diag.
    rewrite <- Eold at 1 2. rewrite skipn_all, Nat.sub_diag.
    reflexivity.
Qed.

Lemma popFront_underflow (value : Z) (rb : BasicReadBuffer.t) :
  BasicReadBuffer.m_end rb - BasicReadBuffer.m_begin rb < sizeof T ->
  BasicReadBuffer.popFront native Encoding T value rb = (true, value, rb).
Proof.
  intros H. unfold BasicReadBuffer.popFront.
  destruct (Z.leb_spec (BasicReadBuffer.m_begin rb + sizeof T)
              (BasicReadBuffer.m_end rb)); [ lia | reflexivity ].
Qed.

Lemma popFront_available (value : Z) (rb : BasicReadBuffer.t) :
  sizeof T <= BasicReadBuffer.m_end rb - BasicReadBuffer.m_begin rb ->
  BasicReadBuffer.popFront native Encoding T value rb
  = (false,
     Concepts.basicCopy_read native Encoding T (BasicReadBuffer.m_begin rb)
       (BasicReadBuffer.mem rb),
     BasicReadBuffer.mk (BasicReadBuffer.mem rb)
       (BasicReadBuffer.m_begin rb + sizeof T) (BasicReadBuffer.m_end rb)).
Proof.
  intros H. unfold BasicReadBuffer.popFront.
  destruct (Z.leb_spec (BasicReadBuffer.m_begin rb + sizeof T)
              (BasicReadBuffer.m_end rb)); [ reflexivity | lia ].
Qed.
End Bounds.

(** ** Framed strings *)

Lemma string_of_list_ascii_length (l : list ascii) :
  String.length (string_of_list_ascii l) = List.length l.
Proof. induction l; cbn; congruence. Qed.

Lemma list_ascii_of_string_length (s : string) :
  List.length (list_ascii_of_string s) = String.length s.
Proof. induction s; cbn; congruence. Qed.

Lemma string_resize_length (s : string) (n : Z) :
  String.length (string_resize s n) = Z.to_nat n.
Proof.
  unfold string_resize.
  rewrite string_of_list_ascii_length, length_app, length_firstn, repeat_length.
  lia.
Qed.

Lemma string_empty_length (s : string) :
  string_empty s = (String.length s =? 0)%nat.
Proof. now destruct s. Qed.

(** C2.  In little-endian stream order, on either native order, the string
    [pushBack] of "hello" into a 13-byte buffer writes exactly
    [05 00 00 00 'h' 'e' 'l' 'l' 'o' 05 00 00 00]; the string [popFront] of
    these 13 bytes succeeds, yields "hello" and moves the front cursor by
    13 bytes. *)
Theorem hello_framing (native : endian) (buf : list Z) (str : string) :
  List.length buf = 13%nat ->
  BasicWriteBuffer.pushBack_string native Concepts.stream_endian "hello"
    (BasicWriteBuffer.mk buf 0 13)
  = (false, BasicWriteBuffer.mk hello_wire 13 13)
  /\ BasicReadBuffer.popFront_string native Concepts.stream_endian str
       (BasicReadBuffer.mk hello_wire 0 13)
     = (false, "hello"%string, BasicReadBuffer.mk hello_wire 13 13).
Proof.
  intros Hbuf. unfold Concepts.stream_endian. split.
  - do 14 (destruct buf as [| ? buf]; try discriminate Hbuf).
    destruct native; vm_compute; reflexivity.
  - unfold BasicReadBuffer.popFront_string.
    assert (Hsize : forall b,
              BasicReadBuffer.unsafePopFront native little uint32_t
                (BasicReadBuffer.mk hello_wire 0 13) = b ->
              b = (5, BasicReadBuffer.mk hello_wire 4 13)).
    { intros b <-. destruct native; vm_compute; reflexivity. }
    rewrite (Hsize _ eq_refl).
    cbn [BasicReadBuffer.m_begin BasicReadBuffer.m_end].
    change (0 + 8 <=? 13) with true. change (4 + 5 + 4 <=? 13) with true.
    cbv iota.
    rewrite string_empty_length, string_resize_length.
    change (Z.to_nat 5 =? 0)%nat with false. cbn [negb].
    destruct native; vm_compute; reflexivity.
Qed.

Lemma hello_framing_witness :
  List.length (repeat 0 13) = 13%nat
  /\ BasicReadBuffer.popFront_string big little "previous"
       (BasicReadBuffer.mk hello_wire 0 13)
     = (false, "hello"%string, BasicReadBuffer.mk hello_wire 13 13).
Proof.
  split; [ reflexivity | ].
  exact (proj2 (hello_framing big (repeat 0 13) "previous" eq_refl)).
Defined.

Section StringFailure.
Variables native Encoding : endian.

Lemma set_begin_same (b b' : BasicReadBuffer.t) :
  BasicReadBuffer.mem b' = BasicReadBuffer.mem b ->
  BasicReadBuffer.m_end b' = BasicReadBuffer.m_end b ->
  BasicReadBuffer.set_begin b' (BasicReadBuffer.m_begin b) = b.
Proof.
  destruct b, b'; cbn. intros -> ->. reflexivity.
Qed.

Lemma set_end_same (b b' : BasicReadBuffer.t) :
  BasicReadBuffer.mem b' = BasicReadBuffer.mem b ->
  BasicReadBuffer.m_begin b' = BasicReadBuffer.m_begin b ->
  BasicReadBuffer.set_end b' (BasicReadBuffer.m_end b) = b.
Proof.
  destruct b, b'; cbn. intros -> ->. reflexivity.
Qed.

Lemma popFront_string_outcome (str : string) (rb : BasicReadBuffer.t) :
  forall r, BasicReadBuffer.popFront_string native Encoding str rb = r ->
  fst (fst r) = false \/ r = (true, EmptyString, rb).
Proof.
  intros r. unfold BasicReadBuffer.popFront_string.
  destruct (_ <=? _);
    [ | intros <-; right; f_equal; now apply set_begin_same ].
  unfold BasicReadBuffer.unsafePopFront at 1.
  cbn [BasicReadBuffer.m_begin BasicReadBuffer.m_end BasicReadBuffer.set_begin].
  destruct (_ <=? _);
    [ | intros <-; right; f_equal; now apply set_begin_same ].
  destruct (negb _); cbn;
    (destruct (_ =? _); intros <-;
     [ left; reflexivity | right; f_equal; now apply set_begin_same ]).
Qed.

Lemma popBack_string_outcome (str : string) (rb : BasicReadBuffer.t) :
  forall r, BasicReadBuffer.popBack_string native Encoding str rb = r ->
  fst (fst r) = false \/ r = (true, EmptyString, rb).
Proof.
  intros r. unfold BasicReadBuffer.popBack_string.
  destruct (_ <=? _);
    [ | intros <-; right; f_equal; now apply set_end_same ].
  unfold BasicReadBuffer.unsafePopBack at 1.
  cbn [BasicReadBuffer.m_begin BasicReadBuffer.m_end BasicReadBuffer.set_end].
  destruct (_ <=? _);
    [ | intros <-; right; f_equal; now apply set_end_same ].
  destruct (negb _); cbn;
    (destruct (_ =? _); intros <-;
     [ left; reflexivity | right; f_equal; now apply set_end_same ]).
Qed.

Lemma popFront_string_short (str : string) (rb : BasicReadBuffer.t) :
  BasicReadBuffer.m_end rb - BasicReadBuffer.m_begin rb < 8 ->
  BasicReadBuffer.popFront_string native Encoding str rb
  = (true, EmptyString, rb).
Proof.
  intros H. unfold BasicReadBuffer.popFront_string.
  destruct (Z.leb_spec (BasicReadBuffer.m_begin rb + 8)
              (BasicReadBuffer.m_end rb)); [ lia | ].
  f_equal. now apply set_begin_same.
Qed.

Lemma popBack_string_short (str : string) (rb : BasicReadBuffer.t) :
  BasicReadBuffer.m_end rb - BasicReadBuffer.m_begin rb < 8 ->
  BasicReadBuffer.popBack_string native Encoding str rb
  = (true, EmptyString, rb).
Proof.
  intros H. unfold BasicReadBuffer.popBack_string.
  destruct (Z.leb_spec (BasicReadBuffer.m_begin rb + 8)
              (BasicReadBuffer.m_end rb)); [ lia | ].
  f_equal. now apply set_end_same.
Qed.

(** The content and the second length field do not fit. *)
Lemma popFront_string_truncated (str : string) (rb : BasicReadBuffer.t) :
  let size := Concepts.basicCopy_read native Encoding uint32_t
                (BasicReadBuffer.m_begin rb) (BasicReadBuffer.mem rb) in
  BasicReadBuffer.m_end rb - (BasicReadBuffer.m_begin rb + 4) < size + 4 ->
  BasicReadBuffer.popFront_string native Encoding str rb
  = (true, EmptyString, rb).
Proof.
  intros size H. unfold BasicReadBuffer.popFront_string.
  destruct (_ <=? _); [ | f_equal; now apply set_begin_same ].
  unfold BasicReadBuffer.unsafePopFront at 1.
  cbn [BasicReadBuffer.m_begin BasicReadBuffer.m_end BasicReadBuffer.set_begin
       sizeof uint32_t width bytes].
  fold uint32_t. fold size.
  destruct (Z.leb_spec (BasicReadBuffer.m_begin rb + 4 + size + 4)
              (BasicReadBuffer.m_end rb)); [ lia | ].
  f_equal. now destruct rb.
Qed.

Lemma popBack_string_truncated (str : string) (rb : BasicReadBuffer.t) :
  let size := Concepts.basicCopy_read native Encoding uint32_t
                (BasicReadBuffer.m_end rb - 4) (BasicReadBuffer.mem rb) in
  (BasicReadBuffer.m_end rb - 4) - BasicReadBuffer.m_begin rb < size + 4 ->
  BasicReadBuffer.popBack_string native Encoding str rb
  = (true, EmptyString, rb).
Proof.
  intros size H. unfold BasicReadBuffer.popBack_string.
  destruct (_ <=? _); [ | f_equal; now apply set_end_same ].
  unfold BasicReadBuffer.unsafePopBack at 1.
  cbn [BasicReadBuffer.m_begin BasicReadBuffer.m_end BasicReadBuffer.set_end
       BasicReadBuffer.mem sizeof uint32_t width bytes].
  fold uint32_t. fold size.
  destruct (Z.leb_spec (BasicReadBuffer.m_begin rb + size + 4)
              (BasicReadBuffer.m_end rb - 4)); [ lia | ].
  f_equal. now destruct rb.
Qed.
End StringFailure.

(** C3.  Whenever the string [popFront] (resp. [popBack]) reports failure,
    the destination string is empty and the buffer, cursors included, is
    the one before the call.  It fails when fewer than 8 bytes are
    available and when the content and the second length field do not fit;
    on the 13 bytes of "hello" with the trailing length changed to
    [06 00 00 00] both decodings fail in this way. *)
Theorem string_decode_failure (native Encoding : endian) (str : string)
    (rb : BasicReadBuffer.t) :
  let front := BasicReadBuffer.popFront_string native Encoding str rb in
  let back := BasicReadBuffer.popBack_string native Encoding str rb in
  let available := BasicReadBuffer.m_end rb - BasicReadBuffer.m_begin rb in
  (fst (fst front) = true -> front = (true, EmptyString, rb))
  /\ (fst (fst back) = true -> back = (true, EmptyString, rb))
  /\ (available < 8 ->
      front = (true, EmptyString, rb) /\ back = (true, EmptyString, rb))
  /\ (available - 4
      < Concepts.basicCopy_read native Encoding uint32_t
          (BasicReadBuffer.m_begin rb) (BasicReadBuffer.mem rb) + 4 ->
      front = (true, EmptyString, rb))
  /\ (available - 4
      < Concepts.basicCopy_read native Encoding uint32_t
          (BasicReadBuffer.m_end rb - 4) (BasicReadBuffer.mem rb) + 4 ->
      back = (true, EmptyString, rb))
  /\ BasicReadBuffer.popFront_string native Concepts.stream_endian str
       (BasicReadBuffer.mk hello_corrupted 0 13)
     = (true, EmptyString, BasicReadBuffer.mk hello_corrupted 0 13)
  /\ BasicReadBuffer.popBack_string native Concepts.stream_endian str
       (BasicReadBuffer.mk hello_corrupted 0 13)
     = (true, EmptyString, BasicReadBuffer.mk hello_corrupted 0 13).
Proof.
  intros front back available. unfold Concepts.stream_endian.
  split; [ | split; [ | split; [ | split; [ | split; [ | split ] ] ] ] ].
  - intros H.
    destruct (popFront_string_outcome native Encoding str rb front eq_refl)
      as [E | E]; [ congruence | exact E ].
  - intros H.
    destruct (popBack_string_outcome native Encoding str rb back eq_refl)
      as [E | E]; [ congruence | exact E ].
  - intros H. split;
      [ now apply popFront_string_short | now apply popBack_string_short ].
  - intros H. apply popFront_string_truncated. subst available. lia.
  - intros H. apply popBack_string_truncated. subst available. lia.
  - destruct (popFront_string_outcome native little str
                (BasicReadBuffer.mk hello_corrupted 0 13) _ eq_refl) as [E | E];
      [ | exact E ].
    exfalso. revert E. unfold BasicReadBuffer.popFront_string.
    assert (Hsize : forall b,
              BasicReadBuffer.unsafePopFront native little uint32_t
                (BasicReadBuffer.mk hello_corrupted 0 13) = b ->
              b = (5, BasicReadBuffer.mk hello_corrupted 4 13)).
    { intros b <-. destruct native; vm_compute; reflexivity. }
    rewrite (Hsize _ eq_refl).
    cbn [BasicReadBuffer.m_begin BasicReadBuffer.m_end].
    change (0 + 8 <=? 13) with true. change (4 + 5 + 4 <=? 13) with true.
    cbv iota.
    rewrite string_empty_length, string_resize_length.
    change (Z.to_nat 5 =? 0)%nat with false. cbn [negb].
    destruct native; vm_compute; discriminate.
  - destruct (popBack_string_outcome native little str
                (BasicReadBuffer.mk hello_corrupted 0 13) _ eq_refl) as [E | E];
      [ | exact E ].
    exfalso. revert E. unfold BasicReadBuffer.popBack_string.
    assert (Hsize : forall b,
              BasicReadBuffer.unsafePopBack native little uint32_t
                (BasicReadBuffer.mk hello_corrupted 0 13) = b ->
              b = (6, BasicReadBuffer.mk hello_corrupted 0 9)).
    { intros b <-. destruct native; vm_compute; reflexivity. }
    rewrite (Hsize _ eq_refl).
    cbn [BasicReadBuffer.m_begin BasicReadBuffer.m_end].
    change (0 + 8 <=? 13) with true. change (0 + 6 + 4 <=? 9) with false.
    cbv iota. cbn. discriminate.
Qed.

Lemma string_decode_failure_witness :
  fst (fst (BasicReadBuffer.popFront_string little little "stale"
              (BasicReadBuffer.mk hello_corrupted 0 13))) = true
  /\ BasicReadBuffer.popFront_string little little "stale"
       (BasicReadBuffer.mk hello_corrupted 0 13)
     = (true, EmptyString, BasicReadBuffer.mk hello_corrupted 0 13).
Proof.
  split; [ reflexivity | ].
  exact (proj1 (string_decode_failure little little "stale"
                  (BasicReadBuffer.mk hello_corrupted 0 13)) eq_refl).
Defined.

(** ** Wide strings *)

Section WideString.
Variables native Encoding : endian.
Variable wchar_t : SwapType.

(** The unsafe write advances the cursor by the size of the wire format. *)
Lemma unsafePushBack_wstring_advance (wstr : wstring)
    (wb : BasicWriteBuffer.t) :
  BasicWriteBuffer.m_begin
    (BasicWriteBuffer.unsafePushBack_wstring native Encoding wchar_t wstr wb)
  = BasicWriteBuffer.m_begin wb + wstring_wire_size wchar_t wstr.
Proof.
  unfold BasicWriteBuffer.unsafePushBack_wstring, wstring_wire_size,
    BasicWriteBuffer.unsafePushBack, BasicWriteBuffer.unsafePushBack_span.
  cbn [BasicWriteBuffer.m_begin].
  change (sizeof uint32_t) with 4. lia.
Qed.

(** With a two-byte [wchar_t] the size checked is the size written. *)
Lemma calculateSerializedSize_wstring_two_bytes (wstr : wstring) :
  sizeof wchar_t = 2 ->
  BasicWriteBuffer.calculateSerializedSize_wstring wstr
  = wstring_wire_size wchar_t wstr.
Proof.
  intros H. unfold BasicWriteBuffer.calculateSerializedSize_wstring,
    wstring_wire_size. lia.
Qed.
End WideString.

(** With a two-byte [wchar_t] a one-character string fits a buffer of 10
    bytes exactly. *)
Example pushBack_wstring_two_bytes :
  BasicWriteBuffer.pushBack_wstring little little wchar16 [97]
    (BasicWriteBuffer.mk [0; 0; 0; 0; 0; 0; 0; 0; 0; 0; 0xAA; 0xBB] 0 10)
  = (false,
     BasicWriteBuffer.mk [1; 0; 0; 0; 97; 0; 1; 0; 0; 0; 0xAA; 0xBB] 10 10).
Proof. reflexivity. Qed.

(** C5.  With a four-byte [wchar_t] the up-front check of the wide-string
    [pushBack] is not the size the write consumes: for a one-character
    string the wire format takes 12 bytes, the check asks for 10, and
    against a buffer of exactly 10 bytes the call reports success, leaves
    [m_begin] two bytes past [m_end] and overwrites the two bytes that
    follow the buffer. *)
Theorem pushBack_wstring_overrun (native : endian) :
  let wb := BasicWriteBuffer.mk
              [0; 0; 0; 0; 0; 0; 0; 0; 0; 0; 0xAA; 0xBB] 0 10 in
  let r := BasicWriteBuffer.pushBack_wstring native little wchar32 [97] wb in
  wstring_wire_size wchar32 [97] = 12
  /\ BasicWriteBuffer.calculateSerializedSize_wstring [97] = 10
  /\ r = (false,
          BasicWriteBuffer.mk [1; 0; 0; 0; 97; 0; 0; 0; 1; 0; 0; 0] 12 10).
Proof.
  destruct native; vm_compute; repeat split.
Qed.

(** ** Vector *)

(** C10.  [Vector::error()] returns 0 in every state: it compares the
    inherited logical size with itself. *)
Theorem Vector_error_zero (v : BasicVector.t) : Vector.error v = 0.
Proof. unfold Vector.error. now rewrite Z.ltb_irrefl. Qed.

(** [error()] stays 0 on a state it documents as inconsistent. *)
Example Vector_error_inconsistent :
  let v := BasicVector.mk 8 [1; 2; 3; 4] 4 in
  BasicVector.capacity v < BasicVector.size v /\ Vector.error v = 0.
Proof. split; reflexivity. Qed.

(** ** Growable buffer *)

Section Growth.
Variables native Encoding : endian.

Lemma encoding_length (vals : list typed_value) :
  Z.of_nat (List.length (encoding native Encoding vals)) = encoded_length vals.
Proof.
  unfold encoding.
  induction vals as [| tv vals IH]; cbn [map List.concat encoded_length fold_right];
    [ reflexivity | ].
  rewrite length_app, stream_bytes_length. fold (encoded_length vals).
  pose proof (sizeof_pos (fst tv)). lia.
Qed.

Lemma BasicVector_pushBack_append (T : SwapType) (value : Z)
    (data : list Z) (cap : Z) :
  in_range T value ->
  exists cap',
    BasicVector.pushBack native Encoding T value
      (BasicVector.mk (Z.of_nat (List.length data)) data cap)
    = BasicVector.mk
        (Z.of_nat (List.length (data ++ stream_bytes native Encoding T value)))
        (data ++ stream_bytes native Encoding T value) cap'
    /\ Z.of_nat (List.length (data ++ stream_bytes native Encoding T value))
       <= cap'.
Proof.
  intros Hv. pose proof (sizeof_pos T) as Hs.
  unfold BasicVector.pushBack, BasicVector.reserveExtra.
  cbn [BasicVector.m_size BasicVector.m_data].
  destruct (Z.ltb_spec (Z.of_nat (List.length data))
              (Z.of_nat (List.length data) + sizeof T)); [ | lia ].
  assert (E : forall v,
            BasicVector.m_size v = Z.of_nat (List.length data) ->
            BasicVector.m_data v = data ->
            exists cap',
              BasicVector.unsafePushBack native Encoding T value
                (BasicVector.vector_resize
                   (Z.of_nat (List.length data) + sizeof T) v)
              = BasicVector.mk
                  (Z.of_nat (List.length
                               (data ++ stream_bytes native Encoding T value)))
                  (data ++ stream_bytes native Encoding T value) cap'
              /\ Z.of_nat (List.length
                             (data ++ stream_bytes native Encoding T value))
                 <= cap').
  { intros v Hsz Hd.
    unfold BasicVector.unsafePushBack, BasicVector.vector_resize,
      BasicVector.size.
    cbn [BasicVector.m_size BasicVector.m_data BasicVector.m_capacity].
    rewrite Hsz, Hd. eexists. split.
    - f_equal.
      + rewrite length_app, stream_bytes_length. lia.
      + rewrite firstn_all2 by lia.
        unfold Concepts.basic_copy_value.
        rewrite <- (app_nil_r (repeat 0 _)).
        rewrite basicCopy_value_app; auto.
        * now rewrite app_nil_r.
        * rewrite repeat_length. lia.
    - rewrite length_app, stream_bytes_length.
      destruct (Z.ltb_spec (BasicVector.m_capacity v)
                  (Z.of_nat (List.length data) + sizeof T)); lia. }
  destruct (1024 <? sizeof T); apply E; reflexivity.
Qed.

Lemma vector_pushBack_all_append (vals : list typed_value) :
  forall (data : list Z) (cap : Z),
  Forall well_typed vals ->
  Z.of_nat (List.length data) <= cap ->
  exists cap',
    vector_pushBack_all native Encoding vals
      (BasicVector.mk (Z.of_nat (List.length data)) data cap)
    = BasicVector.mk (Z.of_nat (List.length (data ++ encoding native Encoding vals)))
        (data ++ encoding native Encoding vals) cap'
    /\ Z.of_nat (List.length (data ++ encoding native Encoding vals))
       <= cap'.
Proof.
  induction vals as [| [T value] vals IH]; intros data cap Hvals Hcap.
  - exists cap. cbn. now rewrite app_nil_r.
  - inversion Hvals as [| ? ? Hv Hvals']; subst.
    unfold vector_pushBack_all. cbn [fold_left fst snd].
    destruct (BasicVector_pushBack_append T value data cap Hv)
      as (cap1 & E1 & Hcap1).
    rewrite E1.
    destruct (IH (data ++ stream_bytes native Encoding T value) cap1 Hvals'
                Hcap1)
      as (cap2 & E2 & Hcap2).
    unfold vector_pushBack_all in E2. rewrite E2.
    exists cap2. unfold encoding in *. cbn [map List.concat fst snd].
    rewrite <- app_assoc in *. split; [ reflexivity | exact Hcap2 ].
Qed.

Lemma buffer_pushBack_all_fill (vals : list typed_value) :
  forall (pre rest : list Z),
  Forall well_typed vals ->
  Z.of_nat (List.length rest) = encoded_length vals ->
  let e := Z.of_nat (List.length pre) + encoded_length vals in
  buffer_pushBack_all native Encoding vals
    (BasicWriteBuffer.mk (pre ++ rest) (Z.of_nat (List.length pre)) e)
  = (false, BasicWriteBuffer.mk (pre ++ encoding native Encoding vals) e e).
Proof.
  induction vals as [| [T value] vals IH]; intros pre rest Hvals Hrest e.
  - cbn in *. destruct rest; [ | discriminate ].
    subst e. now rewrite Z.add_0_r.
  - inversion Hvals as [| ? ? Hv Hvals']; subst.
    pose proof (sizeof_pos T) as Hs.
    pose proof (encoding_length vals) as Hl.
    cbn [encoded_length fold_right fst] in Hrest, e.
    fold (encoded_length vals) in Hrest, e.
    cbn [buffer_pushBack_all fst snd].
    unfold BasicWriteBuffer.pushBack, BasicWriteBuffer.unsafePushBack.
    cbn [BasicWriteBuffer.m_begin BasicWriteBuffer.m_end BasicWriteBuffer.mem].
    destruct (Z.leb_spec (Z.of_nat (List.length pre) + sizeof T) e);
      [ | subst e; lia ].
    rewrite <- (firstn_skipn (Z.to_nat (sizeof T)) rest).
    rewrite basicCopy_value_app; auto.
    2: { rewrite length_firstn. lia. }
    rewrite app_assoc.
    replace (Z.of_nat (List.length pre) + sizeof T)
      with (Z.of_nat (List.length (pre ++ stream_bytes native Encoding T value)))
      by (rewrite length_app, stream_bytes_length; lia).
    replace e
      with (Z.of_nat (List.length (pre ++ stream_bytes native Encoding T value))
            + encoded_length vals)
      by (subst e; rewrite length_app, stream_bytes_length; lia).
    rewrite IH; auto.
    2: { rewrite length_skipn. lia. }
    unfold encoding. cbn [map List.concat fst snd orb].
    now rewrite <- app_assoc.
Qed.
End Growth.

(** ** ByteArray *)

Lemma char_value_range (c : ascii) : 0 <= char_value c < 256.
Proof.
  unfold char_value. pose proof (N_ascii_bounded c). lia.
Qed.

Lemma string_chars_range (str : string) :
  Forall (fun c => 0 <= c < 256) (string_chars str).
Proof.
  unfold string_chars. apply Forall_map, Forall_forall.
  intros c _. apply char_value_range.
Qed.

Lemma string_chars_length (str : string) :
  Z.of_nat (List.length (string_chars str)) = string_size str.
Proof.
  unfold string_chars, string_size.
  now rewrite length_map, list_ascii_of_string_length.
Qed.

Lemma firstn_succ_nth (cs : list Z) (j : nat) :
  (j < List.length cs)%nat ->
  firstn (S j) cs = firstn j cs ++ [nth j cs 0].
Proof.
  revert j. induction cs as [| c cs IH]; intros j Hj; [ cbn in Hj; lia | ].
  destruct j as [| j]; [ reflexivity | ].
  cbn [firstn nth app]. f_equal. apply IH. cbn in Hj. lia.
Qed.

Lemma filter_length_le (f : Z -> bool) (l : list Z) :
  (List.length (filter f l) <= List.length l)%nat.
Proof.
  induction l as [| x l IH]; cbn; [ lia | ]. destruct (f x); cbn; lia.
Qed.

(** Storing a byte at the first position still zero. *)
Lemma store_next (head : list Z) (count : nat) (c : Z) :
  ByteArray.store (head ++ repeat 0 (S count)) (Z.of_nat (List.length head)) c
  = (head ++ [c]) ++ repeat 0 count.
Proof.
  unfold ByteArray.store.
  change (repeat 0 (S count)) with ([0] ++ repeat 0 count).
  rewrite memcpy_app by reflexivity. now rewrite app_assoc.
Qed.

Section CopyPhase.
Variable N : nat.

Lemma partial_store (head : list Z) (c : Z) :
  (List.length head < N)%nat ->
  ByteArray.store (partial_array N head) (Z.of_nat (List.length head)) c
  = partial_array N (head ++ [c]).
Proof.
  intros H. unfold partial_array.
  replace (N - List.length head)%nat
    with (S (N - List.length (head ++ [c]))) by (rewrite length_app; cbn; lia).
  apply store_next.
Qed.

Lemma fillHead_range_copies (cs : list Z) : forall head : list Z,
  Forall (fun c => 0 <= c < 256) cs ->
  (List.length head + List.length cs <= N)%nat ->
  ByteArray.fillHead_range (Z.of_nat N) cs
    (Z.of_nat (List.length head)) (partial_array N head)
  = (Z.of_nat (List.length (head ++ filter nonzero cs)),
     partial_array N (head ++ filter nonzero cs)).
Proof.
  induction cs as [| c cs IH]; intros head Hcs Hlen.
  - cbn [ByteArray.fillHead_range filter]. now rewrite app_nil_r.
  - inversion Hcs as [| ? ? Hc Hcs']; subst.
    cbn [List.length] in Hlen.
    cbn [ByteArray.fillHead_range filter]. fold (nonzero c).
    destruct (nonzero c) eqn:Enz; [ | apply IH; [ assumption | lia ] ].
    rewrite Z.mod_small by exact Hc.
    rewrite partial_store by lia.
    replace (Z.of_nat (List.length head) + 1)
      with (Z.of_nat (List.length (head ++ [c])))
      by (rewrite length_app; cbn; lia).
    replace (head ++ c :: filter nonzero cs)
      with ((head ++ [c]) ++ filter nonzero cs) by now rewrite <- app_assoc.
    destruct (Z.eqb_spec (Z.of_nat (List.length (head ++ [c]))) (Z.of_nat N))
      as [E | NE].
    + rewrite length_app in E. cbn [List.length] in E.
      destruct cs; [ | cbn [List.length] in Hlen; lia ].
      cbn [filter]. now rewrite app_nil_r.
    + apply IH; [ assumption | ].
      rewrite length_app in *. cbn [List.length] in *. lia.
Qed.

Lemma fillHead_for_copies (cs : list Z) (fuel : nat) : forall j : nat,
  Forall (fun c => 0 <= c < 256) cs ->
  (N <= List.length cs)%nat ->
  (j + fuel = N)%nat ->
  let head := filter nonzero (firstn j cs) in
  ByteArray.fillHead_for (Z.of_nat N) fuel cs (Z.of_nat j)
    (Z.of_nat (List.length head)) (partial_array N head)
  = (Z.of_nat (List.length (filter nonzero (firstn N cs))),
     partial_array N (filter nonzero (firstn N cs))).
Proof.
  induction fuel as [| fuel IH]; intros j Hcs Hlong Hj head.
  - cbn [ByteArray.fillHead_for]. subst head.
    now replace j with N by lia.
  - cbn [ByteArray.fillHead_for].
    destruct (Z.ltb_spec (Z.of_nat j) (Z.of_nat N)); [ | lia ].
    rewrite Nat2Z.id.
    assert (Hhead : (List.length head <= j)%nat).
    { subst head. etransitivity; [ apply filter_length_le | ].
      rewrite length_firstn. lia. }
    assert (Hnext : filter nonzero (firstn (S j) cs)
                    = head ++ filter nonzero [nth j cs 0]).
    { rewrite firstn_succ_nth by lia. apply filter_app. }
    assert (Hc : 0 <= nth j cs 0 < 256).
    { rewrite Forall_forall in Hcs. apply Hcs, nth_In. lia. }
    cbn [filter] in Hnext. fold (nonzero (nth j cs 0)).
    replace (Z.of_nat j + 1) with (Z.of_nat (S j)) by lia.
    destruct (nonzero (nth j cs 0)) eqn:Enz.
    + rewrite Z.mod_small by exact Hc.
      rewrite partial_store by lia.
      replace (Z.of_nat (List.length head) + 1)
        with (Z.of_nat (List.length (head ++ [nth j cs 0])))
        by (rewrite length_app; cbn; lia).
      rewrite <- Hnext.
      destruct (Z.eqb_spec
                  (Z.of_nat (List.length (filter nonzero (firstn (S j) cs))))
                  (Z.of_nat N)) as [E | NE].
      * rewrite Hnext, length_app in E. cbn [List.length] in E.
        now replace N with (S j) by lia.
      * apply (IH (S j)); [ assumption | assumption | lia ].
    + rewrite app_nil_r in Hnext. fold head. rewrite <- Hnext.
      apply (IH (S j)); [ assumption | assumption | lia ].
Qed.
End CopyPhase.

(** The copy phase: the non-zero bytes among the first [N] bytes of the
    input, in order, the rest of the array still zero. *)
Lemma fillHead_copies (N : Z) (str : string) :
  0 < N ->
  let head := prefix_nonzero N str in
  ByteArray.fillHead N str (repeat 0 (Z.to_nat N))
  = (Z.of_nat (List.length head), partial_array (Z.to_nat N) head).
Proof.
  intros HN head. subst head. unfold ByteArray.fillHead, prefix_nonzero.
  pose proof (string_chars_length str) as Hlen.
  pose proof (string_chars_range str) as Hrange.
  remember (Z.to_nat N) as n eqn:En.
  assert (EN : N = Z.of_nat n) by lia. subst N. clear En.
  destruct (Z.leb_spec (string_size str) (Z.of_nat n)).
  - rewrite firstn_all2 by lia.
    pose proof (fillHead_range_copies n (string_chars str) [] Hrange) as E.
    unfold partial_array in E at 1.
    cbn [List.length app Z.of_nat] in E. rewrite Nat.sub_0_r in E.
    apply E. lia.
  - pose proof (fillHead_for_copies n (string_chars str) n 0%nat Hrange) as E.
    unfold partial_array in E at 1.
    cbn [firstn filter List.length app Z.of_nat] in E.
    rewrite Nat.sub_0_r in E. apply E; lia.
Qed.

Lemma fillTail_full (N : Z) (m_bytes : list Z) :
  0 < N -> snd (ByteArray.fillTail N N m_bytes) = m_bytes.
Proof.
  intros N_pos. unfold ByteArray.fillTail.
  destruct (Z.eqb_spec N 0); [ lia | ].
  rewrite Z.ltb_irrefl.
  destruct (Z.to_nat N); cbn [ByteArray.fillTail_while];
    [ | rewrite Z.ltb_irrefl ]; reflexivity.
Qed.

Lemma filter_all (f : Z -> bool) (l : list Z) :
  Forall (fun c => f c = true) l -> filter f l = l.
Proof.
  induction 1 as [| c l Hc _ IH]; cbn; [ reflexivity | ].
  now rewrite Hc, IH.
Qed.

(** C7, as amended.  For an input string longer than [N] whose first [N]
    bytes are all non-zero, the copy phase fills [k = N] bytes and the array
    is exactly the first [N] bytes of the input: no terminator, no padding. *)
Theorem truncation_of_long_input (N : Z) (str : string) :
  0 < N ->
  N < string_size str ->
  Forall (fun c => c <> 0) (firstn (Z.to_nat N) (string_chars str)) ->
  ByteArray.fillHead N str (repeat 0 (Z.to_nat N))
  = (N, firstn (Z.to_nat N) (string_chars str))
  /\ ByteArray.of_string N str = firstn (Z.to_nat N) (string_chars str).
Proof.
  intros HN Hlong Hnz.
  pose proof (string_chars_length str) as Hlen.
  assert (Hprefix : prefix_nonzero N str
                    = firstn (Z.to_nat N) (string_chars str)).
  { unfold prefix_nonzero. apply filter_all.
    eapply Forall_impl; [ | exact Hnz ].
    intros c Hc. unfold nonzero. now destruct (Z.eqb_spec c 0). }
  assert (Hhead : ByteArray.fillHead N str (repeat 0 (Z.to_nat N))
                  = (N, firstn (Z.to_nat N) (string_chars str))).
  { rewrite (fillHead_copies N str HN). cbv zeta. unfold partial_array.
    rewrite Hprefix, length_firstn.
    replace (Nat.min (Z.to_nat N) (List.length (string_chars str)))
      with (Z.to_nat N) by lia.
    rewrite Nat.sub_diag, app_nil_r. f_equal. lia. }
  split; [ exact Hhead | ].
  unfold ByteArray.of_string, ByteArray.fill. rewrite Hhead.
  now apply fillTail_full.
Qed.

Lemma truncation_of_long_input_witness :
  0 < 4 /\ 4 < string_size "abcdefg"
  /\ ByteArray.of_string 4 "abcdefg" = [97; 98; 99; 100].
Proof.
  split; [ reflexivity | split; [ reflexivity | ] ].
  refine (proj2 (truncation_of_long_input 4 "abcdefg" eq_refl eq_refl _)).
  repeat constructor; discriminate.
Defined.

(** C7 as stated fails on the 7-character input ["a\0\0bcde"] with
    [N = 4]: only the first four characters are examined, two bytes are
    copied, and a terminator and a padding byte follow. *)
Lemma truncation_counterexample :
  4 < string_size a00bcde
  /\ ByteArray.fillHead 4 a00bcde (repeat 0 4) = (2, [97; 98; 0; 0])
  /\ ByteArray.of_string 4 a00bcde = [97; 98; 0; 30]
  /\ nonzero_prefix 4 a00bcde = [97; 98; 99; 100]
  /\ prefix_nonzero 4 a00bcde = [97; 98]
  /\ ByteArray.of_string 4 a00bcde <> nonzero_prefix 4 a00bcde
  /\ ByteArray.of_string 4 a00bcde <> prefix_nonzero 4 a00bcde.
Proof.
  repeat split; vm_compute; first [ reflexivity | discriminate ].
Qed.

Lemma fillTail_while_unwritten (N : Z) (count : nat) :
  forall (fuel : nat) (head : list Z) (hashValue : Z),
  Z.of_nat (List.length head) + Z.of_nat count = N ->
  (count <= fuel)%nat ->
  snd (ByteArray.fillTail_while N fuel (Z.of_nat (List.length head)) hashValue
         (head ++ repeat 0 count))
  = head ++ unwritten_padding count hashValue.
Proof.
  induction count as [| count IH]; intros fuel head h HN Hfuel.
  - destruct fuel; cbn [ByteArray.fillTail_while repeat unwritten_padding];
      [ reflexivity | ].
    destruct (Z.ltb_spec (Z.of_nat (List.length head)) N); [ lia | reflexivity ].
  - destruct fuel as [| fuel]; [ lia | ].
    cbn [ByteArray.fillTail_while unwritten_padding].
    destruct (Z.ltb_spec (Z.of_nat (List.length head)) N); [ | lia ].
    rewrite Z.mod_small by lia.
    unfold ByteArray.at_index. rewrite Nat2Z.id.
    rewrite app_nth2, Nat.sub_diag by lia. cbn [repeat nth].
    unfold ByteArray.store.
    change (0 :: repeat 0 count) with ([0] ++ repeat 0 count).
    rewrite memcpy_app by reflexivity.
    rewrite app_assoc.
    replace (Z.of_nat (List.length head) + 1)
      with (Z.of_nat (List.length (head ++ [ByteArray.computeNextHash h 0 mod 256])))
      by (rewrite length_app; cbn; lia).
    rewrite IH by (rewrite ?length_app; cbn; lia).
    now rewrite <- app_assoc.
Qed.

(** After a copy phase of [0 < k < N] bytes, the padding [fillTail] writes
    never depends on a byte written before: it is [unwritten_padding]. *)
Lemma fillTail_padding (N : Z) (head : list Z) :
  let k := Z.of_nat (List.length head) in
  0 < k < N ->
  snd (ByteArray.fillTail N k (head ++ repeat 0 (Z.to_nat (N - k))))
  = head ++ 0 :: unwritten_padding (Z.to_nat (N - k - 1))
                   (ByteArray.computeHash
                      (head ++ repeat 0 (Z.to_nat (N - k)))
                      ByteArray.HashInit k).
Proof.
  intros k Hk. unfold ByteArray.fillTail.
  destruct (Z.eqb_spec k 0); [ lia | ].
  destruct (Z.ltb_spec k N); [ | lia ].
  set (h := ByteArray.computeHash _ _ _).
  replace (Z.to_nat (N - k)) with (S (Z.to_nat (N - k - 1))) by lia.
  unfold ByteArray.store. cbn [repeat].
  change (0 :: repeat 0 (Z.to_nat (N - k - 1)))
    with ([0] ++ repeat 0 (Z.to_nat (N - k - 1))).
  rewrite memcpy_app by reflexivity.
  rewrite app_assoc.
  replace (k + 1) with (Z.of_nat (List.length (head ++ [0])))
    by (rewrite length_app; cbn; lia).
  rewrite fillTail_while_unwritten.
  - now rewrite <- app_assoc.
  - rewrite length_app. cbn. lia.
  - lia.
Qed.

(** What [fill] builds when the copy phase filled [0 < k < N] bytes: the
    bytes copied, the terminator, and a padding that depends on the hash of
    the bytes copied only. *)
Lemma of_string_padding (N : Z) (str : string) :
  let head := prefix_nonzero N str in
  let k := Z.of_nat (List.length head) in
  0 < k < N ->
  ByteArray.of_string N str
  = head ++ 0 :: unwritten_padding (Z.to_nat (N - k - 1))
                   (ByteArray.computeHash
                      (head ++ repeat 0 (Z.to_nat (N - k)))
                      ByteArray.HashInit k).
Proof.
  intros head k Hk.
  unfold ByteArray.of_string, ByteArray.fill.
  rewrite (fillHead_copies N str) by lia. cbv zeta. fold head. fold k.
  unfold partial_array.
  replace (Z.to_nat N - List.length head)%nat with (Z.to_nat (N - k)) by lia.
  now apply fillTail_padding.
Qed.

(** C8.  For the input "a" and [N = 4] (copy phase [k = 1], terminator at
    position 1, two padding positions) the array the code builds differs
    from the one the spec describes: the hash is updated with the byte at
    the position being filled, still zero, not with the byte written last. *)
Theorem padding_reads_unwritten_byte :
  ByteArray.fillHead 4 "a" (repeat 0 4) = (1, [97; 0; 0; 0])
  /\ ByteArray.of_string 4 "a" = [97; 0; 228; 108]
  /\ ByteArray.spec_of_string 4 "a" = [97; 0; 228; 0]
  /\ ByteArray.of_string 4 "a" <> ByteArray.spec_of_string 4 "a".
Proof.
  repeat split; vm_compute; first [ reflexivity | discriminate ].
Qed.

(** * Further properties *)

(** ** Conversions *)

Lemma le_value_range (bs : list Z) :
  Forall (fun b => 0 <= b < 256) bs ->
  0 <= le_value bs < 256 ^ Z.of_nat (List.length bs).
Proof.
  induction 1 as [| b bs Hb _ IH]; cbn [le_value List.length].
  - cbn. lia.
  - rewrite Nat2Z.inj_succ, Z.pow_succ_r by lia. lia.
Qed.

Lemma le_bytes_value (bs : list Z) :
  Forall (fun b => 0 <= b < 256) bs ->
  le_bytes (List.length bs) (le_value bs) = bs.
Proof.
  induction 1 as [| b bs Hb Hbs IH]; [ reflexivity | ].
  cbn [le_value List.length le_bytes].
  replace (b + 256 * le_value bs) with (b + le_value bs * 256) by ring.
  rewrite Z.mod_add, Z.div_add, Z.mod_small, Z.div_small by lia.
  cbn [Z.add]. now rewrite IH.
Qed.

Lemma Forall_rev_bytes (P : Z -> Prop) (bs : list Z) :
  Forall P bs -> Forall P (rev bs).
Proof.
  rewrite !Forall_forall. intros H b Hb. apply H. now apply in_rev.
Qed.

(** The bytes of a value of [T] determine it. *)
Lemma object_bytes_value (native : endian) (T : SwapType) (bs : list Z) :
  Forall (fun b => 0 <= b < 256) bs ->
  List.length bs = Z.to_nat (sizeof T) ->
  in_range T (object_value native T bs)
  /\ object_bytes native T (object_value native T bs) = bs.
Proof.
  intros Hbs Hlen.
  set (l := match native with little => bs | big => rev bs end).
  assert (Hl : Forall (fun b => 0 <= b < 256) l)
    by (subst l; destruct native; auto using Forall_rev_bytes).
  assert (Hll : List.length l = Z.to_nat (sizeof T))
    by (subst l; destruct native; now rewrite ?length_rev).
  pose proof (le_value_range l Hl) as Hr.
  rewrite Hll, pow256_sizeof in Hr.
  unfold object_value, object_bytes. fold l. split.
  - now apply of_unsigned_range.
  - rewrite to_of_unsigned by exact Hr.
    rewrite <- Hll, le_bytes_value by exact Hl.
    subst l. destruct native; [ reflexivity | apply rev_involutive ].
Qed.

Lemma object_bytes_range (native : endian) (T : SwapType) (v : Z) :
  Forall (fun b => 0 <= b < 256) (object_bytes native T v).
Proof.
  assert (H : forall n u, Forall (fun b => 0 <= b < 256) (le_bytes n u)).
  { induction n as [| n IH]; intros u; cbn [le_bytes]; constructor.
    - apply Z.mod_pos_bound. lia.
    - apply IH. }
  unfold object_bytes. destruct native; auto using Forall_rev_bytes.
Qed.

Lemma object_bytes_big (T : SwapType) (v : Z) :
  object_bytes big T v = rev (object_bytes little T v).
Proof. reflexivity. Qed.

Lemma byteSwap_reverses_bytes (native : endian) (T : SwapType) (v : Z) :
  object_bytes native T (byteSwap T v) = rev (object_bytes native T v).
Proof.
  destruct native.
  - apply byteSwap_reverses.
  - rewrite !object_bytes_big. f_equal. apply byteSwap_reverses.
Qed.

(** X1.  [byteSwap] reverses the bytes of the object representation,
    whatever the native order, for every value of every swappable type. *)
Theorem byteSwap_reverses_representation (native : endian) (T : SwapType)
    (v : Z) :
  object_bytes native T (byteSwap T v) = rev (object_bytes native T v).
Proof.
  destruct native.
  - apply byteSwap_reverses.
  - rewrite !object_bytes_big. f_equal. apply byteSwap_reverses.
Qed.

Lemma swapped_value (T : SwapType) (bs : list Z) :
  Forall (fun b => 0 <= b < 256) bs ->
  List.length bs = Z.to_nat (sizeof T) ->
  byteSwap T (object_value little T bs) = object_value big T bs
  /\ byteSwap T (object_value big T bs) = object_value little T bs.
Proof.
  intros Hbs Hlen.
  destruct (object_bytes_value little T bs Hbs Hlen) as [Hr1 Hb1].
  destruct (object_bytes_value big T bs Hbs Hlen) as [Hr2 Hb2].
  split.
  - rewrite <- (object_value_bytes big T (byteSwap T (object_value little T bs)))
      by now apply byteSwap_range.
    f_equal. rewrite object_bytes_big, byteSwap_reverses, Hb1.
    apply rev_involutive.
  - rewrite <- (object_value_bytes little T (byteSwap T (object_value big T bs)))
      by now apply byteSwap_range.
    f_equal. rewrite byteSwap_reverses. exact Hb2.
Qed.

Lemma Forall_firstn_skipn (P : Z -> Prop) (n : nat) (l : list Z) :
  Forall P l -> Forall P (firstn n l) /\ Forall P (skipn n l).
Proof.
  intros H. apply Forall_app. now rewrite firstn_skipn.
Qed.

Lemma load_range (m : memory) (p n : Z) :
  Forall (fun b => 0 <= b < 256) m ->
  Forall (fun b => 0 <= b < 256) (load m p n).
Proof.
  intros H. unfold load.
  apply Forall_firstn_skipn. now apply Forall_firstn_skipn.
Qed.

(** The value [basicCopy<Encoding>] reads is the one the bytes represent in
    the order [Encoding]. *)
Lemma basicCopy_read_encoding (native Encoding : endian) (T : SwapType)
    (p : Z) (m : memory) :
  Forall (fun b => 0 <= b < 256) m ->
  List.length (load m p (sizeof T)) = Z.to_nat (sizeof T) ->
  Concepts.basicCopy_read native Encoding T p m
  = object_value Encoding T (load m p (sizeof T)).
Proof.
  intros Hm Hlen. unfold Concepts.basicCopy_read, Concepts.mismatch.
  assert (Hbs : Forall (fun b => 0 <= b < 256) (load m p (sizeof T)))
    by now apply load_range.
  destruct (swapped_value T _ Hbs Hlen) as [H1 H2].
  destruct native, Encoding; cbn [endian_eqb negb]; auto.
Qed.

Section Conversions.
Variable native : endian.
Variable T : SwapType.

Lemma toLittleEndian_bytes (v : Z) :
  object_bytes native T (Concepts.toLittleEndian native T v)
  = object_bytes little T v.
Proof.
  unfold Concepts.toLittleEndian.
  destruct native; cbn [endian_eqb negb]; [ reflexivity | ].
  rewrite byteSwap_reverses_bytes, object_bytes_big.
  apply rev_involutive.
Qed.

Lemma toBigEndian_bytes (v : Z) :
  object_bytes native T (Concepts.toBigEndian native T v)
  = object_bytes big T v.
Proof.
  unfold Concepts.toBigEndian.
  destruct native; cbn [endian_eqb negb]; [ | reflexivity ].
  now rewrite byteSwap_reverses_bytes.
Qed.
End Conversions.

(** X2.  On either native order, the object representation of
    [toLittleEndian(v)] is the little-endian byte sequence of [v], that of
    [toBigEndian(v)] the big-endian one, and [toStreamEndian] is
    [toLittleEndian]; each conversion applied twice gives the value back. *)
Theorem endian_conversions (native : endian) (T : SwapType) (v : Z) :
  in_range T v ->
  object_bytes native T (Concepts.toLittleEndian native T v)
  = object_bytes little T v
  /\ object_bytes native T (Concepts.toBigEndian native T v)
     = object_bytes big T v
  /\ object_bytes native T (Concepts.toStreamEndian native T v)
     = object_bytes little T v
  /\ Concepts.toLittleEndian native T (Concepts.toLittleEndian native T v) = v
  /\ Concepts.toBigEndian native T (Concepts.toBigEndian native T v) = v
  /\ Concepts.toStreamEndian native T (Concepts.toStreamEndian native T v) = v.
Proof.
  intros Hv.
  split; [ apply toLittleEndian_bytes | ].
  split; [ apply toBigEndian_bytes | ].
  split; [ apply toLittleEndian_bytes | ].
  unfold Concepts.toLittleEndian, Concepts.toBigEndian,
    Concepts.toStreamEndian, Concepts.endian_mismatch, Concepts.stream_endian.
  destruct native; cbn [endian_eqb negb];
    rewrite ?byteSwap_involutive by exact Hv; auto.
Qed.

Lemma endian_conversions_witness :
  in_range uint32_t 0x01020304
  /\ object_bytes big uint32_t (Concepts.toLittleEndian big uint32_t 0x01020304)
     = [4; 3; 2; 1].
Proof.
  assert (Hr : in_range uint32_t 0x01020304)
    by (unfold in_range; simpl; lia).
  split; [ exact Hr | ].
  exact (proj1 (endian_conversions big uint32_t 0x01020304 Hr)).
Defined.

(** ** Fixed buffers *)

Lemma load_length (m : memory) (p n : Z) :
  0 <= p -> 0 <= n -> p + n <= Z.of_nat (List.length m) ->
  List.length (load m p n) = Z.to_nat n.
Proof.
  intros Hp Hn H. unfold load. rewrite length_firstn, length_skipn. lia.
Qed.

Lemma span_bytes_stream (native Encoding : endian) (T : SwapType)
    (vs : list Z) :
  List.concat (map (stream_bytes native Encoding T) vs)
  = span_bytes Encoding T vs.
Proof.
  unfold span_bytes. f_equal. apply map_ext. intros v.
  apply stream_bytes_encoding.
Qed.

Lemma span_bytes_length (Encoding : endian) (T : SwapType) (vs : list Z) :
  Z.of_nat (List.length (span_bytes Encoding T vs))
  = sizeof T * Z.of_nat (List.length vs).
Proof. apply concat_bytes_length. intros v. apply object_bytes_length. Qed.

Lemma span_bytes_char (Encoding : endian) (cs : list Z) :
  Forall is_byte cs -> span_bytes Encoding char cs = cs.
Proof.
  unfold span_bytes.
  induction 1 as [| c cs Hc _ IH]; cbn [map List.concat]; [ reflexivity | ].
  rewrite IH.
  replace (object_bytes Encoding char c) with [c]; [ reflexivity | ].
  change (object_bytes Encoding char c)
    with (match Encoding with
          | little => [(c mod 256) mod 256]
          | big => rev [(c mod 256) mod 256]
          end).
  unfold is_byte in Hc. rewrite (Z.mod_small c 256) by lia.
  rewrite (Z.mod_small c 256) by lia. now destruct Encoding.
Qed.

Section Splice.
Variables native Encoding : endian.

(** The unsafe operations on a memory cut at the cursor. *)
Lemma unsafePushBack_at (T : SwapType) (v : Z) (m pre old post : list Z)
    (p e : Z) :
  in_range T v ->
  m = pre ++ old ++ post ->
  p = Z.of_nat (List.length pre) ->
  List.length old = Z.to_nat (sizeof T) ->
  BasicWriteBuffer.unsafePushBack native Encoding T v
    (BasicWriteBuffer.mk m p e)
  = BasicWriteBuffer.mk (pre ++ object_bytes Encoding T v ++ post)
      (p + sizeof T) e.
Proof.
  intros Hv -> Hp Hold. unfold BasicWriteBuffer.unsafePushBack.
  cbn [BasicWriteBuffer.mem BasicWriteBuffer.m_begin BasicWriteBuffer.m_end].
  rewrite basicCopy_value_app by auto.
  now rewrite stream_bytes_encoding.
Qed.

Lemma unsafePushBack_span_at (T : SwapType) (vs : list Z)
    (m pre old post : list Z) (p e : Z) :
  Forall (in_range T) vs ->
  m = pre ++ old ++ post ->
  p = Z.of_nat (List.length pre) ->
  Z.of_nat (List.length old) = sizeof T * Z.of_nat (List.length vs) ->
  BasicWriteBuffer.unsafePushBack_span native Encoding T vs
    (BasicWriteBuffer.mk m p e)
  = BasicWriteBuffer.mk (pre ++ span_bytes Encoding T vs ++ post)
      (p + sizeof T * Z.of_nat (List.length vs)) e.
Proof.
  intros Hvs -> Hp Hold. unfold BasicWriteBuffer.unsafePushBack_span.
  cbn [BasicWriteBuffer.mem BasicWriteBuffer.m_begin BasicWriteBuffer.m_end].
  rewrite basicCopy_span_app by auto.
  now rewrite span_bytes_stream.
Qed.

Lemma unsafePopFront_at (T : SwapType) (v : Z) (m pre post : list Z)
    (p e : Z) :
  in_range T v ->
  m = pre ++ object_bytes Encoding T v ++ post ->
  p = Z.of_nat (List.length pre) ->
  BasicReadBuffer.unsafePopFront native Encoding T
    (BasicReadBuffer.mk m p e)
  = (v, BasicReadBuffer.mk m (p + sizeof T) e).
Proof.
  intros Hv -> Hp.
  unfold BasicReadBuffer.unsafePopFront, BasicReadBuffer.set_begin.
  cbn [BasicReadBuffer.mem BasicReadBuffer.m_begin BasicReadBuffer.m_end].
  rewrite <- (stream_bytes_encoding native).
  now rewrite basicCopy_read_app by auto.
Qed.

Lemma unsafePopFront_span_at (T : SwapType) (vs : list Z) (n : nat)
    (m pre post : list Z) (p e : Z) :
  Forall (in_range T) vs ->
  m = pre ++ span_bytes Encoding T vs ++ post ->
  p = Z.of_nat (List.length pre) ->
  n = List.length vs ->
  BasicReadBuffer.unsafePopFront_span native Encoding T n
    (BasicReadBuffer.mk m p e)
  = (vs, BasicReadBuffer.mk m (p + sizeof T * Z.of_nat n) e).
Proof.
  intros Hvs -> Hp ->.
  unfold BasicReadBuffer.unsafePopFront_span, BasicReadBuffer.set_begin.
  cbn [BasicReadBuffer.mem BasicReadBuffer.m_begin BasicReadBuffer.m_end].
  rewrite <- (span_bytes_stream native).
  now rewrite basicCopy_read_span_app by auto.
Qed.

Lemma unsafePopBack_at (T : SwapType) (v : Z) (m pre post : list Z)
    (b e : Z) :
  in_range T v ->
  m = pre ++ object_bytes Encoding T v ++ post ->
  e = Z.of_nat (List.length pre) + sizeof T ->
  BasicReadBuffer.unsafePopBack native Encoding T
    (BasicReadBuffer.mk m b e)
  = (v, BasicReadBuffer.mk m b (e - sizeof T)).
Proof.
  intros Hv -> He.
  unfold BasicReadBuffer.unsafePopBack, BasicReadBuffer.set_end.
  cbn [BasicReadBuffer.mem BasicReadBuffer.m_begin BasicReadBuffer.m_end].
  rewrite <- (stream_bytes_encoding native).
  now rewrite basicCopy_read_app by (auto; lia).
Qed.

Lemma unsafePopBack_span_at (T : SwapType) (vs : list Z) (n : nat)
    (m pre post : list Z) (b e : Z) :
  Forall (in_range T) vs ->
  m = pre ++ span_bytes Encoding T vs ++ post ->
  e = Z.of_nat (List.length pre) + sizeof T * Z.of_nat n ->
  n = List.length vs ->
  BasicReadBuffer.unsafePopBack_span native Encoding T n
    (BasicReadBuffer.mk m b e)
  = (vs, BasicReadBuffer.mk m b (e - sizeof T * Z.of_nat n)).
Proof.
  intros Hvs -> He ->.
  unfold BasicReadBuffer.unsafePopBack_span, BasicReadBuffer.set_end.
  cbn [BasicReadBuffer.mem BasicReadBuffer.m_begin BasicReadBuffer.m_end].
  rewrite <- (span_bytes_stream native).
  now rewrite basicCopy_read_span_app by (auto; lia).
Qed.
End Splice.

(** X3.  What the safe [pushBack] writes and what the safe [popFront] and
    [popBack] read do not depend on the native order: on a buffer in a
    regular state a little-endian and a big-endian platform produce the
    same result. *)
Theorem wire_independent_of_native (Encoding : endian) (T : SwapType)
    (value old : Z) (wb : BasicWriteBuffer.t) (rb : BasicReadBuffer.t) :
  in_range T value ->
  write_buffer_ok wb ->
  read_buffer_ok rb ->
  BasicWriteBuffer.pushBack little Encoding T value wb
  = BasicWriteBuffer.pushBack big Encoding T value wb
  /\ BasicReadBuffer.popFront little Encoding T old rb
     = BasicReadBuffer.popFront big Encoding T old rb
  /\ BasicReadBuffer.popBack little Encoding T old rb
     = BasicReadBuffer.popBack big Encoding T old rb.
Proof.
  intros Hv [Hwb Hwe] (Hrb & Hre & Hbytes).
  pose proof (sizeof_pos T) as Hs.
  split; [ | split ].
  - unfold BasicWriteBuffer.pushBack.
    destruct (Z.leb_spec (BasicWriteBuffer.m_begin wb + sizeof T)
                (BasicWriteBuffer.m_end wb)); [ | reflexivity ].
    f_equal. destruct wb as [m b e].
    cbn [BasicWriteBuffer.mem BasicWriteBuffer.m_begin BasicWriteBuffer.m_end]
      in *.
    destruct (memory_split m b (sizeof T))
      as (pre & old' & post & Em & Ep & Eold & _); try lia.
    now rewrite !(unsafePushBack_at _ Encoding T value m pre old' post b e).
  - unfold BasicReadBuffer.popFront.
    destruct (Z.leb_spec (BasicReadBuffer.m_begin rb + sizeof T)
                (BasicReadBuffer.m_end rb)); [ | reflexivity ].
    unfold BasicReadBuffer.unsafePopFront.
    rewrite !basicCopy_read_encoding; auto; apply load_length; lia.
  - unfold BasicReadBuffer.popBack.
    destruct (Z.leb_spec (BasicReadBuffer.m_begin rb + sizeof T)
                (BasicReadBuffer.m_end rb)); [ | reflexivity ].
    unfold BasicReadBuffer.unsafePopBack, BasicReadBuffer.set_end.
    cbn [BasicReadBuffer.mem BasicReadBuffer.m_begin BasicReadBuffer.m_end].
    rewrite !basicCopy_read_encoding; auto; apply load_length; lia.
Qed.

Lemma wire_independent_of_native_witness :
  in_range uint32_t 7
  /\ BasicWriteBuffer.pushBack little big uint32_t 7
       (BasicWriteBuffer.mk [0; 0; 0; 0] 0 4)
     = BasicWriteBuffer.pushBack big big uint32_t 7
         (BasicWriteBuffer.mk [0; 0; 0; 0] 0 4).
Proof.
  assert (Hr : in_range uint32_t 7) by (unfold in_range; simpl; lia).
  split; [ exact Hr | ].
  refine (proj1 (wire_independent_of_native big uint32_t 7 0
                   (BasicWriteBuffer.mk [0; 0; 0; 0] 0 4)
                   (BasicReadBuffer.mk [] 0 0) Hr _ _)).
  - unfold write_buffer_ok. simpl. lia.
  - unfold read_buffer_ok. simpl. repeat split; try lia. constructor.
Defined.

(** ** Skips *)

Lemma wrap_small (x : Z) : 0 <= x < 2 ^ 64 -> x mod 2 ^ 64 = x.
Proof. apply Z.mod_small. Qed.

Lemma wrap_over (x : Z) :
  2 ^ 64 <= x < 2 * 2 ^ 64 -> x mod 2 ^ 64 = x - 2 ^ 64.
Proof.
  intros H. symmetry. apply (Z.mod_unique x (2 ^ 64) 1 (x - 2 ^ 64)); lia.
Qed.

Lemma wrap_under (x : Z) :
  - 2 ^ 64 <= x < 0 -> x mod 2 ^ 64 = x + 2 ^ 64.
Proof.
  intros H. symmetry. apply (Z.mod_unique x (2 ^ 64) (-1) (x + 2 ^ 64)); lia.
Qed.

(** X4.  [skip(bytes)] of a write buffer whose cursors are addresses in
    order keeps the end and the memory.  When [m_begin + bytes] does not
    wrap around, the cursor moves forward by [bytes], stopping at [m_end],
    and two skips are one skip of the sum (neither sum wrapping).  When
    [m_begin + bytes] wraps around, the cursor moves back, to
    [m_begin + bytes - 2 ^ 64]. *)
Theorem skip_clamps (a c : Z) (b : BasicWriteBuffer.t) :
  0 <= a < 2 ^ 64 -> 0 <= c < 2 ^ 64 ->
  0 <= BasicWriteBuffer.m_begin b <= BasicWriteBuffer.m_end b ->
  BasicWriteBuffer.m_end b < 2 ^ 64 ->
  let b' := BasicWriteBuffer.skip a b in
  BasicWriteBuffer.m_end b' = BasicWriteBuffer.m_end b
  /\ BasicWriteBuffer.mem b' = BasicWriteBuffer.mem b
  /\ (BasicWriteBuffer.m_begin b + a < 2 ^ 64 ->
      BasicWriteBuffer.m_begin b'
      = Z.min (BasicWriteBuffer.m_begin b + a) (BasicWriteBuffer.m_end b)
      /\ BasicWriteBuffer.m_begin b <= BasicWriteBuffer.m_begin b'
         <= BasicWriteBuffer.m_end b')
  /\ (BasicWriteBuffer.m_begin b + a + c < 2 ^ 64 ->
      BasicWriteBuffer.m_end b + c < 2 ^ 64 ->
      BasicWriteBuffer.skip c b' = BasicWriteBuffer.skip (a + c) b)
  /\ (2 ^ 64 <= BasicWriteBuffer.m_begin b + a ->
      BasicWriteBuffer.m_begin b' = BasicWriteBuffer.m_begin b + a - 2 ^ 64
      /\ BasicWriteBuffer.m_begin b' < BasicWriteBuffer.m_begin b).
Proof.
  intros Ha Hc Hb He b'. subst b'. unfold BasicWriteBuffer.skip.
  cbn [BasicWriteBuffer.mem BasicWriteBuffer.m_begin BasicWriteBuffer.m_end].
  split; [ reflexivity | split; [ reflexivity | ] ].
  split; [ | split ].
  - intros Hn. rewrite wrap_small by lia.
    destruct (Z.leb_spec (BasicWriteBuffer.m_begin b + a)
                (BasicWriteBuffer.m_end b)); lia.
  - intros Hn Hm. rewrite (wrap_small (_ + a)), (wrap_small (_ + (a + c)))
      by lia.
    f_equal.
    destruct (Z.leb_spec (BasicWriteBuffer.m_begin b + a)
                (BasicWriteBuffer.m_end b)).
    + rewrite wrap_small by lia. now rewrite Z.add_assoc.
    + rewrite wrap_small by lia.
      destruct (Z.leb_spec (BasicWriteBuffer.m_end b + c)
                  (BasicWriteBuffer.m_end b));
        destruct (Z.leb_spec (BasicWriteBuffer.m_begin b + (a + c))
                    (BasicWriteBuffer.m_end b)); lia.
  - intros Hw. rewrite wrap_over by lia.
    destruct (Z.leb_spec (BasicWriteBuffer.m_begin b + a - 2 ^ 64)
                (BasicWriteBuffer.m_end b)); lia.
Qed.

Lemma skip_clamps_witness :
  (0 <= 2 ^ 64 - 1 < 2 ^ 64) /\ (0 <= 9 < 2 ^ 64) /\ (0 <= 2 <= 10)
  /\ 10 < 2 ^ 64
  /\ BasicWriteBuffer.m_begin
       (BasicWriteBuffer.skip (2 ^ 64 - 1) (BasicWriteBuffer.mk [] 2 10))
     = 2 + (2 ^ 64 - 1) - 2 ^ 64.
Proof.
  assert (H0 : 0 <= 2 ^ 64 - 1 < 2 ^ 64) by lia.
  assert (H1 : 0 <= 9 < 2 ^ 64) by lia.
  assert (H2 : 0 <= 2 <= 10) by lia.
  assert (H3 : 10 < 2 ^ 64) by lia.
  split; [ exact H0 | split; [ exact H1 | split; [ exact H2 | ] ] ].
  split; [ exact H3 | ].
  assert (Hw : 2 ^ 64 <= 2 + (2 ^ 64 - 1)) by lia.
  exact (proj1 (proj2 (proj2 (proj2 (proj2
    (skip_clamps (2 ^ 64 - 1) 9 (BasicWriteBuffer.mk [] 2 10) H0 H1 H2 H3))))
    Hw)).
Defined.

(** X5.  [skipFront(bytes)] and [skipBack(bytes)] of a read buffer whose
    cursors are addresses in order keep the other cursor and the memory.
    When [m_begin + bytes], respectively [m_end - bytes], does not wrap
    around, the buffer loses exactly [min(bytes, size)] bytes on the side
    skipped, and two skips on one side are one skip of the sum (nothing
    wrapping).  When the address wraps around, the buffer grows instead:
    [skipFront] moves the front back to [m_begin + bytes - 2 ^ 64],
    [skipBack] moves the end forward to [m_end - bytes + 2 ^ 64]. *)
Theorem skipFront_skipBack_clamp (a c : Z) (b : BasicReadBuffer.t) :
  0 <= a < 2 ^ 64 -> 0 <= c < 2 ^ 64 ->
  0 <= BasicReadBuffer.m_begin b <= BasicReadBuffer.m_end b ->
  BasicReadBuffer.m_end b < 2 ^ 64 ->
  let size := BasicReadBuffer.m_end b - BasicReadBuffer.m_begin b in
  let f := BasicReadBuffer.skipFront a b in
  let k := BasicReadBuffer.skipBack a b in
  (BasicReadBuffer.m_end f = BasicReadBuffer.m_end b
   /\ BasicReadBuffer.mem f = BasicReadBuffer.mem b
   /\ (BasicReadBuffer.m_begin b + a < 2 ^ 64 ->
       BasicReadBuffer.m_begin f = BasicReadBuffer.m_begin b + Z.min a size)
   /\ (BasicReadBuffer.m_begin b + a + c < 2 ^ 64 ->
       BasicReadBuffer.m_end b + c < 2 ^ 64 ->
       BasicReadBuffer.skipFront c f = BasicReadBuffer.skipFront (a + c) b)
   /\ (2 ^ 64 <= BasicReadBuffer.m_begin b + a ->
       BasicReadBuffer.m_begin f = BasicReadBuffer.m_begin b + a - 2 ^ 64
       /\ BasicReadBuffer.m_begin f < BasicReadBuffer.m_begin b))
  /\ (BasicReadBuffer.m_begin k = BasicReadBuffer.m_begin b
      /\ BasicReadBuffer.mem k = BasicReadBuffer.mem b
      /\ (a <= BasicReadBuffer.m_end b ->
          BasicReadBuffer.m_end k = BasicReadBuffer.m_end b - Z.min a size)
      /\ (a + c <= BasicReadBuffer.m_end b ->
          c <= BasicReadBuffer.m_begin b ->
          BasicReadBuffer.skipBack c k = BasicReadBuffer.skipBack (a + c) b)
      /\ (BasicReadBuffer.m_end b < a ->
          BasicReadBuffer.m_end k = BasicReadBuffer.m_end b - a + 2 ^ 64
          /\ BasicReadBuffer.m_end b < BasicReadBuffer.m_end k)).
Proof.
  intros Ha Hc Hb He size f k. subst size f k.
  unfold BasicReadBuffer.skipFront, BasicReadBuffer.skipBack,
    BasicReadBuffer.set_begin, BasicReadBuffer.set_end.
  cbn [BasicReadBuffer.mem BasicReadBuffer.m_begin BasicReadBuffer.m_end].
  split; (split; [ reflexivity | split; [ reflexivity | ] ]);
    (split; [ | split ]).
  - intros Hn. rewrite wrap_small by lia.
    destruct (Z.leb_spec (BasicReadBuffer.m_begin b + a)
                (BasicReadBuffer.m_end b)); lia.
  - intros Hn Hm. rewrite (wrap_small (_ + a)), (wrap_small (_ + (a + c)))
      by lia.
    f_equal.
    destruct (Z.leb_spec (BasicReadBuffer.m_begin b + a)
                (BasicReadBuffer.m_end b)).
    + rewrite wrap_small by lia. now rewrite Z.add_assoc.
    + rewrite wrap_small by lia.
      destruct (Z.leb_spec (BasicReadBuffer.m_end b + c)
                  (BasicReadBuffer.m_end b));
        destruct (Z.leb_spec (BasicReadBuffer.m_begin b + (a + c))
                    (BasicReadBuffer.m_end b)); lia.
  - intros Hw. rewrite wrap_over by lia.
    destruct (Z.leb_spec (BasicReadBuffer.m_begin b + a - 2 ^ 64)
                (BasicReadBuffer.m_end b)); lia.
  - intros Hn. rewrite wrap_small by lia.
    destruct (Z.leb_spec (BasicReadBuffer.m_begin b)
                (BasicReadBuffer.m_end b - a)); lia.
  - intros Hn Hm. rewrite (wrap_small (_ - a)), (wrap_small (_ - (a + c)))
      by lia.
    f_equal.
    destruct (Z.leb_spec (BasicReadBuffer.m_begin b)
                (BasicReadBuffer.m_end b - a)).
    + rewrite wrap_small by lia.
      now replace (BasicReadBuffer.m_end b - a - c)
        with (BasicReadBuffer.m_end b - (a + c)) by lia.
    + rewrite wrap_small by lia.
      destruct (Z.leb_spec (BasicReadBuffer.m_begin b)
                  (BasicReadBuffer.m_begin b - c));
        destruct (Z.leb_spec (BasicReadBuffer.m_begin b)
                    (BasicReadBuffer.m_end b - (a + c))); lia.
  - intros Hw. rewrite wrap_under by lia.
    destruct (Z.leb_spec (BasicReadBuffer.m_begin b)
                (BasicReadBuffer.m_end b - a + 2 ^ 64)); lia.
Qed.

Lemma skipFront_skipBack_clamp_witness :
  (0 <= 2 ^ 64 - 1 < 2 ^ 64) /\ (0 <= 9 < 2 ^ 64) /\ (0 <= 2 <= 10)
  /\ 10 < 2 ^ 64
  /\ BasicReadBuffer.m_end
       (BasicReadBuffer.skipBack (2 ^ 64 - 1) (BasicReadBuffer.mk [] 2 10))
     = 10 - (2 ^ 64 - 1) + 2 ^ 64.
Proof.
  assert (H0 : 0 <= 2 ^ 64 - 1 < 2 ^ 64) by lia.
  assert (H1 : 0 <= 9 < 2 ^ 64) by lia.
  assert (H2 : 0 <= 2 <= 10) by lia.
  assert (H3 : 10 < 2 ^ 64) by lia.
  split; [ exact H0 | split; [ exact H1 | split; [ exact H2 | ] ] ].
  split; [ exact H3 | ].
  assert (Hw : 10 < 2 ^ 64 - 1) by lia.
  exact (proj1 (proj2 (proj2 (proj2 (proj2 (proj2
    (skipFront_skipBack_clamp (2 ^ 64 - 1) 9 (BasicReadBuffer.mk [] 2 10)
       H0 H1 H2 H3))))) Hw)).
Defined.

(** ** Framed strings on fixed buffers *)

Lemma string_frame_framed (Encoding : endian) (str : string) :
  string_frame Encoding str
  = framed Encoding char (string_size str) (string_chars str).
Proof.
  unfold string_frame, framed.
  now rewrite span_bytes_char by apply string_chars_range.
Qed.

Lemma framed_length (Encoding : endian) (T : SwapType) (n : Z) (vs : list Z) :
  Z.of_nat (List.length (framed Encoding T n vs))
  = 4 + sizeof T * Z.of_nat (List.length vs) + 4.
Proof.
  unfold framed. rewrite !length_app, !object_bytes_length.
  pose proof (span_bytes_length Encoding T vs).
  change (sizeof uint32_t) with 4. lia.
Qed.

Lemma string_frame_length (Encoding : endian) (str : string) :
  Z.of_nat (List.length (string_frame Encoding str)) = string_size str + 8.
Proof.
  rewrite string_frame_framed, framed_length.
  pose proof (string_chars_length str). change (sizeof char) with 1. lia.
Qed.

Lemma object_bytes_uint32_mod (Encoding : endian) (n : Z) :
  object_bytes Encoding uint32_t (n mod 2 ^ 32)
  = object_bytes Encoding uint32_t n.
Proof.
  unfold object_bytes, to_unsigned. cbn [width uint32_t].
  change (2 ^ bits W4) with (2 ^ 32). now rewrite Z.mod_mod by lia.
Qed.

Lemma uint32_mod_range (n : Z) : in_range uint32_t (n mod 2 ^ 32).
Proof.
  unfold in_range. cbn [is_signed uint32_t width].
  change (2 ^ bits W4) with (2 ^ 32). apply Z.mod_pos_bound. lia.
Qed.

Lemma uint32_range (n : Z) : 0 <= n < 2 ^ 32 -> in_range uint32_t n.
Proof. intros H. exact H. Qed.

Lemma string_chars_in_range (str : string) :
  Forall (in_range char) (string_chars str).
Proof.
  eapply Forall_impl; [ | apply string_chars_range ].
  intros c Hc. exact Hc.
Qed.

Lemma unsafePushBack_span_nil (native Encoding : endian) (T : SwapType)
    (b : BasicWriteBuffer.t) :
  0 <= BasicWriteBuffer.m_begin b ->
  BasicWriteBuffer.unsafePushBack_span native Encoding T [] b = b.
Proof.
  intros Hb. destruct b as [m p e].
  unfold BasicWriteBuffer.unsafePushBack_span, Concepts.basicCopy_span.
  cbn [BasicWriteBuffer.mem BasicWriteBuffer.m_begin BasicWriteBuffer.m_end
       map List.concat List.length Z.of_nat Concepts.swap_in_place].
  assert (E : memcpy m p [] = m).
  { unfold memcpy. cbn [app List.length]. rewrite Nat.add_0_r.
    rewrite firstn_skipn. apply firstn_all. }
  rewrite E. destruct (_ && _); f_equal; lia.
Qed.

Section Framed.
Variables native Encoding : endian.

(** The three writes of a framed record. *)
Lemma write_framed (T : SwapType) (n : Z) (vs : list Z)
    (m pre old post : list Z) (p e : Z) :
  in_range uint32_t n ->
  Forall (in_range T) vs ->
  m = pre ++ old ++ post ->
  p = Z.of_nat (List.length pre) ->
  Z.of_nat (List.length old) = 4 + sizeof T * Z.of_nat (List.length vs) + 4 ->
  BasicWriteBuffer.unsafePushBack native Encoding uint32_t n
    (BasicWriteBuffer.unsafePushBack_span native Encoding T vs
       (BasicWriteBuffer.unsafePushBack native Encoding uint32_t n
          (BasicWriteBuffer.mk m p e)))
  = BasicWriteBuffer.mk (pre ++ framed Encoding T n vs ++ post)
      (p + 4 + sizeof T * Z.of_nat (List.length vs) + 4) e.
Proof.
  intros Hn Hvs Hm Hp Hold. pose proof (sizeof_pos T) as Hs.
  set (k := Z.to_nat (sizeof T * Z.of_nat (List.length vs))).
  set (o1 := firstn 4 old).
  set (o2 := firstn k (skipn 4 old)).
  set (o3 := skipn k (skipn 4 old)).
  assert (Eold : old = o1 ++ o2 ++ o3).
  { subst o1 o2 o3. now rewrite !firstn_skipn. }
  assert (L1 : List.length o1 = 4%nat)
    by (subst o1; rewrite length_firstn; lia).
  assert (L2 : List.length o2 = k)
    by (subst o2; rewrite length_firstn, length_skipn; lia).
  assert (L3 : List.length o3 = 4%nat)
    by (subst o3; rewrite !length_skipn; lia).
  rewrite (unsafePushBack_at native Encoding uint32_t n m pre o1
             (o2 ++ o3 ++ post) p e); auto.
  2: { rewrite Hm, Eold. now rewrite <- !app_assoc. }
  change (sizeof uint32_t) with 4.
  rewrite (unsafePushBack_span_at native Encoding T vs _
             (pre ++ object_bytes Encoding uint32_t n) o2 (o3 ++ post)
             (p + 4) e); auto.
  2: { now rewrite <- !app_assoc. }
  2: { rewrite length_app, object_bytes_length.
       change (sizeof uint32_t) with 4. lia. }
  2: { lia. }
  rewrite (unsafePushBack_at native Encoding uint32_t n _
             ((pre ++ object_bytes Encoding uint32_t n)
              ++ span_bytes Encoding T vs) o3 post
             (p + 4 + sizeof T * Z.of_nat (List.length vs)) e); auto.
  2: { now rewrite <- !app_assoc. }
  2: { rewrite !length_app, object_bytes_length.
       pose proof (span_bytes_length Encoding T vs).
       change (sizeof uint32_t) with 4. lia. }
  change (sizeof uint32_t) with 4. unfold framed.
  f_equal. now rewrite <- !app_assoc.
Qed.

Lemma unsafePushBack_string_at (str : string) (m pre old post : list Z)
    (p e : Z) :
  m = pre ++ old ++ post ->
  p = Z.of_nat (List.length pre) ->
  Z.of_nat (List.length old) = string_size str + 8 ->
  BasicWriteBuffer.unsafePushBack_string native Encoding str
    (BasicWriteBuffer.mk m p e)
  = BasicWriteBuffer.mk (pre ++ string_frame Encoding str ++ post)
      (p + string_size str + 8) e.
Proof.
  intros Hm Hp Hold. pose proof (string_chars_length str) as Hl.
  unfold BasicWriteBuffer.unsafePushBack_string. cbv zeta.
  rewrite (write_framed char (string_size str mod 2 ^ 32) (string_chars str)
             m pre old post p e);
    auto using uint32_mod_range, string_chars_in_range.
  2: { change (sizeof char) with 1. lia. }
  rewrite string_frame_framed. unfold framed.
  rewrite object_bytes_uint32_mod.
  f_equal. change (sizeof char) with 1. lia.
Qed.

(** Reading a framed string from the front. *)
Lemma popFront_string_at (str old : string) (m pre post : list Z)
    (p e : Z) :
  string_size str < 2 ^ 32 ->
  m = pre ++ string_frame Encoding str ++ post ->
  p = Z.of_nat (List.length pre) ->
  p + string_size str + 8 <= e ->
  BasicReadBuffer.popFront_string native Encoding old
    (BasicReadBuffer.mk m p e)
  = (false, str, BasicReadBuffer.mk m (p + string_size str + 8) e).
Proof.
  intros Hsize Hm Hp He.
  pose proof (string_chars_length str) as Hl.
  assert (Hn : in_range uint32_t (string_size str))
    by (apply uint32_range; unfold string_size in *; lia).
  unfold string_frame in Hm. rewrite <- !app_assoc in Hm.
  set (B := object_bytes Encoding uint32_t (string_size str)) in *.
  assert (LB : List.length B = 4%nat)
    by (subst B; now rewrite object_bytes_length).
  unfold BasicReadBuffer.popFront_string.
  cbn [BasicReadBuffer.m_begin BasicReadBuffer.m_end].
  destruct (Z.leb_spec (p + 8) e); [ | unfold string_size in *; lia ].
  rewrite (unsafePopFront_at native Encoding uint32_t (string_size str) m pre
             (string_chars str ++ B ++ post) p e) by auto.
  cbn [BasicReadBuffer.m_begin BasicReadBuffer.m_end].
  change (sizeof uint32_t) with 4.
  destruct (Z.leb_spec (p + 4 + string_size str + 4) e); [ | lia ].
  rewrite string_empty_length, string_resize_length.
  destruct (Nat.eqb_spec (Z.to_nat (string_size str)) 0) as [E0 | NE0];
    cbn [negb].
  - assert (Es : str = EmptyString).
    { destruct str; [ reflexivity | ]. unfold string_size in E0.
      cbn [String.length] in E0. lia. }
    subst str. cbn [string_chars list_ascii_of_string map app] in Hm.
    rewrite (unsafePopFront_at native Encoding uint32_t 0 m (pre ++ B)
               post (p + 4) e); auto.
    2: { now rewrite <- app_assoc. }
    2: { rewrite length_app. lia. }
    change (string_size "") with 0. cbn [Z.eqb].
    unfold string_resize. cbn. f_equal. f_equal. lia.
  - rewrite (unsafePopFront_span_at native Encoding char (string_chars str)
               (Z.to_nat (string_size str)) m (pre ++ B) (B ++ post)
               (p + 4) e); auto using string_chars_in_range.
    2: { rewrite span_bytes_char by apply string_chars_range.
         now rewrite <- !app_assoc. }
    2: { rewrite length_app. lia. }
    2: { lia. }
    change (sizeof char) with 1.
    rewrite (unsafePopFront_at native Encoding uint32_t (string_size str) m
               ((pre ++ B) ++ string_chars str) post); auto.
    2: { now rewrite <- !app_assoc. }
    2: { rewrite !length_app. lia. }
    rewrite Z.eqb_refl.
    unfold chars_string, string_chars. rewrite map_map.
    rewrite (map_ext _ (fun c => c)), map_id, string_of_list_ascii_of_string.
    + f_equal. f_equal. change (sizeof uint32_t) with 4. lia.
    + intros c. unfold char_of_value, char_value.
      pose proof (N_ascii_bounded c).
      rewrite Z.mod_small by lia.
      now rewrite N2Z.id, ascii_N_embedding.
Qed.

(** Reading a framed string from the back. *)
Lemma popBack_string_at (str old : string) (m pre post : list Z)
    (b e : Z) :
  string_size str < 2 ^ 32 ->
  m = pre ++ string_frame Encoding str ++ post ->
  b <= Z.of_nat (List.length pre) ->
  e = Z.of_nat (List.length pre) + string_size str + 8 ->
  BasicReadBuffer.popBack_string native Encoding old
    (BasicReadBuffer.mk m b e)
  = (false, str, BasicReadBuffer.mk m b (Z.of_nat (List.length pre))).
Proof.
  intros Hsize Hm Hb He.
  pose proof (string_chars_length str) as Hl.
  assert (Hn : in_range uint32_t (string_size str))
    by (apply uint32_range; unfold string_size in *; lia).
  unfold string_frame in Hm. rewrite <- !app_assoc in Hm.
  set (B := object_bytes Encoding uint32_t (string_size str)) in *.
  assert (LB : List.length B = 4%nat)
    by (subst B; now rewrite object_bytes_length).
  unfold BasicReadBuffer.popBack_string.
  cbn [BasicReadBuffer.m_begin BasicReadBuffer.m_end].
  destruct (Z.leb_spec (b + 8) e); [ | unfold string_size in *; lia ].
  rewrite (unsafePopBack_at native Encoding uint32_t (string_size str) m
             (pre ++ B ++ string_chars str) post b e); auto.
  2: { now rewrite <- !app_assoc. }
  2: { rewrite !length_app. change (sizeof uint32_t) with 4. lia. }
  cbn [BasicReadBuffer.m_begin BasicReadBuffer.m_end].
  change (sizeof uint32_t) with 4.
  destruct (Z.leb_spec (b + string_size str + 4) (e - 4)); [ | lia ].
  rewrite string_empty_length, string_resize_length.
  destruct (Nat.eqb_spec (Z.to_nat (string_size str)) 0) as [E0 | NE0];
    cbn [negb].
  - assert (Es : str = EmptyString).
    { destruct str; [ reflexivity | ]. unfold string_size in E0.
      cbn [String.length] in E0. lia. }
    subst str. cbn [string_chars list_ascii_of_string map app] in Hm.
    change (string_size "") with 0 in *.
    rewrite (unsafePopBack_at native Encoding uint32_t 0 m pre
               (B ++ post) b (e - 4)); auto.
    2: { change (sizeof uint32_t) with 4. lia. }
    cbn [Z.eqb]. unfold string_resize. cbn. f_equal. f_equal.
    change (sizeof uint32_t) with 4. lia.
  - rewrite (unsafePopBack_span_at native Encoding char (string_chars str)
               (Z.to_nat (string_size str)) m (pre ++ B) (B ++ post)
               b (e - 4)); auto using string_chars_in_range.
    2: { rewrite span_bytes_char by apply string_chars_range.
         now rewrite <- !app_assoc. }
    2: { rewrite length_app. change (sizeof char) with 1. lia. }
    2: { lia. }
    change (sizeof char) with 1.
    rewrite (unsafePopBack_at native Encoding uint32_t (string_size str) m
               pre (string_chars str ++ B ++ post)); auto.
    2: { change (sizeof uint32_t) with 4. lia. }
    rewrite Z.eqb_refl.
    unfold chars_string, string_chars. rewrite map_map.
    rewrite (map_ext _ (fun c => c)), map_id, string_of_list_ascii_of_string.
    + f_equal. f_equal. change (sizeof uint32_t) with 4. lia.
    + intros c. unfold char_of_value, char_value.
      pose proof (N_ascii_bounded c).
      rewrite Z.mod_small by lia.
      now rewrite N2Z.id, ascii_N_embedding.
Qed.
End Framed.

(** ** Safe writes on a buffer in a regular state *)

(** The buffer after [new] has been written at its cursor. *)
Lemma memory_at_cursor (wb : BasicWriteBuffer.t) (n : Z) :
  write_buffer_ok wb ->
  0 <= n ->
  BasicWriteBuffer.m_begin wb + n <= BasicWriteBuffer.m_end wb ->
  exists pre old post,
    BasicWriteBuffer.mem wb = pre ++ old ++ post
    /\ BasicWriteBuffer.m_begin wb = Z.of_nat (List.length pre)
    /\ Z.of_nat (List.length old) = n
    /\ pre = firstn (Z.to_nat (BasicWriteBuffer.m_begin wb))
               (BasicWriteBuffer.mem wb)
    /\ post = skipn (Z.to_nat (BasicWriteBuffer.m_begin wb + n))
                (BasicWriteBuffer.mem wb).
Proof.
  intros [Hb He] Hn Hfit.
  destruct (memory_split (BasicWriteBuffer.mem wb)
              (BasicWriteBuffer.m_begin wb) n)
    as (pre & old & post & Em & Ep & Eold & Epre & Epost); try lia.
  exists pre, old, post. repeat split; auto. lia.
Qed.

Section SafeWrites.
Variables native Encoding : endian.

Lemma pushBack_form (T : SwapType) (v : Z) (wb : BasicWriteBuffer.t) :
  in_range T v ->
  write_buffer_ok wb ->
  sizeof T <= BasicWriteBuffer.m_end wb - BasicWriteBuffer.m_begin wb ->
  BasicWriteBuffer.pushBack native Encoding T v wb
  = (false,
     BasicWriteBuffer.mk
       (firstn (Z.to_nat (BasicWriteBuffer.m_begin wb))
          (BasicWriteBuffer.mem wb)
        ++ object_bytes Encoding T v
        ++ skipn (Z.to_nat (BasicWriteBuffer.m_begin wb + sizeof T))
             (BasicWriteBuffer.mem wb))
       (BasicWriteBuffer.m_begin wb + sizeof T)
       (BasicWriteBuffer.m_end wb)).
Proof.
  intros Hv Hok Hfit. pose proof (sizeof_pos T) as Hs.
  destruct (memory_at_cursor wb (sizeof T) Hok)
    as (pre & old & post & Em & Ep & Eold & <- & <-); try lia.
  unfold BasicWriteBuffer.pushBack.
  destruct (Z.leb_spec (BasicWriteBuffer.m_begin wb + sizeof T)
              (BasicWriteBuffer.m_end wb)); [ | lia ].
  f_equal. destruct wb as [m p e].
  cbn [BasicWriteBuffer.mem BasicWriteBuffer.m_begin BasicWriteBuffer.m_end]
    in *.
  apply (unsafePushBack_at native Encoding T v m pre old post p e); auto.
  lia.
Qed.

Lemma pushBack_span_form (T : SwapType) (vs : list Z)
    (wb : BasicWriteBuffer.t) :
  Forall (in_range T) vs ->
  write_buffer_ok wb ->
  let n := sizeof T * Z.of_nat (List.length vs) in
  n <= BasicWriteBuffer.m_end wb - BasicWriteBuffer.m_begin wb ->
  BasicWriteBuffer.pushBack_span native Encoding T vs wb
  = (false,
     BasicWriteBuffer.mk
       (firstn (Z.to_nat (BasicWriteBuffer.m_begin wb))
          (BasicWriteBuffer.mem wb)
        ++ span_bytes Encoding T vs
        ++ skipn (Z.to_nat (BasicWriteBuffer.m_begin wb + n))
             (BasicWriteBuffer.mem wb))
       (BasicWriteBuffer.m_begin wb + n)
       (BasicWriteBuffer.m_end wb)).
Proof.
  intros Hvs Hok n Hfit. pose proof (sizeof_pos T) as Hs.
  destruct (memory_at_cursor wb n Hok)
    as (pre & old & post & Em & Ep & Eold & <- & <-); try (subst n; lia).
  unfold BasicWriteBuffer.pushBack_span. fold n.
  destruct (Z.leb_spec (BasicWriteBuffer.m_begin wb + n)
              (BasicWriteBuffer.m_end wb)); [ | lia ].
  f_equal. destruct wb as [m p e].
  cbn [BasicWriteBuffer.mem BasicWriteBuffer.m_begin BasicWriteBuffer.m_end]
    in *.
  apply (unsafePushBack_span_at native Encoding T vs m pre old post p e);
    auto.
Qed.

Lemma pushBack_string_form (str : string) (wb : BasicWriteBuffer.t) :
  write_buffer_ok wb ->
  let n := string_size str + 8 in
  n <= BasicWriteBuffer.m_end wb - BasicWriteBuffer.m_begin wb ->
  BasicWriteBuffer.pushBack_string native Encoding str wb
  = (false,
     BasicWriteBuffer.mk
       (firstn (Z.to_nat (BasicWriteBuffer.m_begin wb))
          (BasicWriteBuffer.mem wb)
        ++ string_frame Encoding str
        ++ skipn (Z.to_nat (BasicWriteBuffer.m_begin wb + n))
             (BasicWriteBuffer.mem wb))
       (BasicWriteBuffer.m_begin wb + n)
       (BasicWriteBuffer.m_end wb)).
Proof.
  intros Hok n Hfit.
  assert (Hn : 0 <= n) by (subst n; unfold string_size; lia).
  destruct (memory_at_cursor wb n Hok)
    as (pre & old & post & Em & Ep & Eold & <- & <-); try lia.
  unfold BasicWriteBuffer.pushBack_string,
    BasicWriteBuffer.calculateSerializedSize. fold n.
  destruct (Z.leb_spec (BasicWriteBuffer.m_begin wb + n)
              (BasicWriteBuffer.m_end wb)); [ | lia ].
  f_equal. destruct wb as [m p e].
  cbn [BasicWriteBuffer.mem BasicWriteBuffer.m_begin BasicWriteBuffer.m_end]
    in *.
  rewrite (unsafePushBack_string_at native Encoding str m pre old post p e)
    by auto.
  f_equal. subst n. lia.
Qed.

Lemma pushBackSome_form (T : SwapType) (vs : list Z)
    (wb : BasicWriteBuffer.t) :
  Forall (in_range T) vs ->
  write_buffer_ok wb ->
  let count :=
    Z.min ((BasicWriteBuffer.m_end wb - BasicWriteBuffer.m_begin wb)
           / sizeof T)
          (Z.of_nat (List.length vs)) in
  let n := sizeof T * count in
  0 <= count
  /\ BasicWriteBuffer.m_begin wb + n <= BasicWriteBuffer.m_end wb
  /\ BasicWriteBuffer.pushBackSome native Encoding T vs wb
     = (count,
        BasicWriteBuffer.mk
          (firstn (Z.to_nat (BasicWriteBuffer.m_begin wb))
             (BasicWriteBuffer.mem wb)
           ++ span_bytes Encoding T (firstn (Z.to_nat count) vs)
           ++ skipn (Z.to_nat (BasicWriteBuffer.m_begin wb + n))
                (BasicWriteBuffer.mem wb))
          (BasicWriteBuffer.m_begin wb + n)
          (BasicWriteBuffer.m_end wb)).
Proof.
  intros Hvs Hok count n. pose proof (sizeof_pos T) as Hs.
  pose proof Hok as [Hb He].
  set (room := BasicWriteBuffer.m_end wb - BasicWriteBuffer.m_begin wb) in *.
  assert (Hroom : 0 <= room < 2 ^ 64) by (subst room; lia).
  assert (Hq : 0 <= room / sizeof T) by (apply Z.div_pos; lia).
  assert (Hqs : sizeof T * (room / sizeof T) <= room)
    by (apply Z.mul_div_le; lia).
  assert (Hc : 0 <= count) by (subst count; lia).
  assert (Hn : n <= room) by (subst n count; nia).
  split; [ exact Hc | split; [ subst room; lia | ] ].
  unfold BasicWriteBuffer.pushBackSome. fold room.
  rewrite (Z.mod_small room) by exact Hroom.
  assert (Ecount : (if room / sizeof T <? Z.of_nat (List.length vs)
                    then room / sizeof T
                    else Z.of_nat (List.length vs)) = count).
  { subst count. destruct (Z.ltb_spec (room / sizeof T)
                             (Z.of_nat (List.length vs))); lia. }
  rewrite Ecount. f_equal.
  assert (Hlen : List.length (firstn (Z.to_nat count) vs) = Z.to_nat count)
    by (rewrite length_firstn; subst count; lia).
  destruct (memory_at_cursor wb n Hok)
    as (pre & old & post & Em & Ep & Eold & <- & <-);
    try (subst n room; nia).
  destruct (Z.ltb_spec 0 count).
  - destruct wb as [m p e].
    cbn [BasicWriteBuffer.mem BasicWriteBuffer.m_begin
         BasicWriteBuffer.m_end] in *.
    rewrite (unsafePushBack_span_at native Encoding T _ m pre old post p e);
      auto.
    + f_equal. rewrite Hlen. subst n. lia.
    + now apply Forall_firstn_skipn.
    + rewrite Hlen. subst n. lia.
  - assert (count = 0) by lia.
    assert (old = []) by (destruct old; [ reflexivity | cbn in Eold; nia ]).
    subst old. destruct wb as [m p e].
    cbn [BasicWriteBuffer.mem BasicWriteBuffer.m_begin
         BasicWriteBuffer.m_end] in *.
    replace (Z.to_nat count) with 0%nat by lia.
    cbn [firstn]. unfold span_bytes. cbn [map List.concat].
    f_equal; [ exact Em | subst n; nia ].
Qed.
End SafeWrites.

(** X6.  [pushBackSome] writes the longest prefix of the span that fits,
    [min(remaining / sizeof(T), size)] elements, and returns that count: the
    bytes written are the encodings of these elements at the old cursor,
    every other byte is kept and the cursor stays within the buffer.  When
    the whole span fits it does what the span [pushBack] does. *)
Theorem pushBackSome_prefix (native Encoding : endian) (T : SwapType)
    (vs : list Z) (wb : BasicWriteBuffer.t) :
  Forall (in_range T) vs ->
  write_buffer_ok wb ->
  let remaining := BasicWriteBuffer.m_end wb - BasicWriteBuffer.m_begin wb in
  let count := Z.min (remaining / sizeof T) (Z.of_nat (List.length vs)) in
  let n := sizeof T * count in
  0 <= count
  /\ BasicWriteBuffer.m_begin wb + n <= BasicWriteBuffer.m_end wb
  /\ BasicWriteBuffer.pushBackSome native Encoding T vs wb
     = (count,
        BasicWriteBuffer.mk
          (firstn (Z.to_nat (BasicWriteBuffer.m_begin wb))
             (BasicWriteBuffer.mem wb)
           ++ span_bytes Encoding T (firstn (Z.to_nat count) vs)
           ++ skipn (Z.to_nat (BasicWriteBuffer.m_begin wb + n))
                (BasicWriteBuffer.mem wb))
          (BasicWriteBuffer.m_begin wb + n)
          (BasicWriteBuffer.m_end wb))
  /\ (sizeof T * Z.of_nat (List.length vs) <= remaining ->
      BasicWriteBuffer.pushBack_span native Encoding T vs wb
      = (false, snd (BasicWriteBuffer.pushBackSome native Encoding T vs wb))
      /\ fst (BasicWriteBuffer.pushBackSome native Encoding T vs wb)
         = Z.of_nat (List.length vs)).
Proof.
  intros Hvs Hok remaining count n.
  destruct (pushBackSome_form native Encoding T vs wb Hvs Hok)
    as (Hc & Hfit & E).
  fold remaining in E. fold count in E, Hc, Hfit. fold n in E, Hfit.
  split; [ exact Hc | split; [ exact Hfit | split; [ exact E | ] ] ].
  intros Hall. pose proof (sizeof_pos T) as Hs.
  assert (Hq : Z.of_nat (List.length vs) <= remaining / sizeof T)
    by (apply Z.div_le_lower_bound; lia).
  assert (Ec : count = Z.of_nat (List.length vs)) by (subst count; lia).
  rewrite E. cbn [fst snd]. split; [ | exact Ec ].
  rewrite (pushBack_span_form native Encoding T vs wb Hvs Hok Hall).
  subst n. rewrite Ec, Nat2Z.id, firstn_all. reflexivity.
Qed.

Lemma pushBackSome_prefix_witness :
  Forall (in_range (mkSwapType W2 false false)) [0x0102; 0x0304; 0x0506]
  /\ write_buffer_ok (BasicWriteBuffer.mk [0; 0; 0; 0; 0; 9] 0 5)
  /\ BasicWriteBuffer.pushBackSome big little (mkSwapType W2 false false)
       [0x0102; 0x0304; 0x0506] (BasicWriteBuffer.mk [0; 0; 0; 0; 0; 9] 0 5)
     = (2, BasicWriteBuffer.mk [2; 1; 4; 3; 0; 9] 4 5).
Proof.
  assert (H1 : Forall (in_range (mkSwapType W2 false false))
                 [0x0102; 0x0304; 0x0506])
    by (repeat constructor; unfold in_range; simpl; lia).
  assert (H2 : write_buffer_ok (BasicWriteBuffer.mk [0; 0; 0; 0; 0; 9] 0 5))
    by (unfold write_buffer_ok; simpl; lia).
  split; [ exact H1 | split; [ exact H2 | ] ].
  exact (proj1 (proj2 (proj2 (pushBackSome_prefix big little
                                (mkSwapType W2 false false)
                                [0x0102; 0x0304; 0x0506]
                                (BasicWriteBuffer.mk [0; 0; 0; 0; 0; 9] 0 5)
                                H1 H2)))).
Defined.

(** X7.  The string [pushBack] is all or nothing: with fewer than
    [size + 8] bytes remaining it fails and leaves the buffer and the memory
    as they were; otherwise it writes, at the old cursor, the length in the
    order [Encoding], the characters unchanged, and the length again, keeps
    every other byte and advances the cursor by [size + 8]. *)
Theorem pushBack_string_layout (native Encoding : endian) (str : string)
    (wb : BasicWriteBuffer.t) :
  write_buffer_ok wb ->
  let n := string_size str + 8 in
  let remaining := BasicWriteBuffer.m_end wb - BasicWriteBuffer.m_begin wb in
  (remaining < n ->
   BasicWriteBuffer.pushBack_string native Encoding str wb = (true, wb))
  /\ (n <= remaining ->
      BasicWriteBuffer.pushBack_string native Encoding str wb
      = (false,
         BasicWriteBuffer.mk
           (firstn (Z.to_nat (BasicWriteBuffer.m_begin wb))
              (BasicWriteBuffer.mem wb)
            ++ (object_bytes Encoding uint32_t (string_size str)
                ++ string_chars str
                ++ object_bytes Encoding uint32_t (string_size str))
            ++ skipn (Z.to_nat (BasicWriteBuffer.m_begin wb + n))
                 (BasicWriteBuffer.mem wb))
           (BasicWriteBuffer.m_begin wb + n)
           (BasicWriteBuffer.m_end wb))).
Proof.
  intros Hok n remaining. split.
  - intros H. unfold BasicWriteBuffer.pushBack_string,
      BasicWriteBuffer.calculateSerializedSize. fold n.
    destruct (Z.leb_spec (BasicWriteBuffer.m_begin wb + n)
                (BasicWriteBuffer.m_end wb)); [ subst remaining; lia | ].
    reflexivity.
  - intros H. now apply pushBack_string_form.
Qed.

Lemma pushBack_string_layout_witness :
  write_buffer_ok (BasicWriteBuffer.mk (repeat 7 12) 1 11)
  /\ BasicWriteBuffer.pushBack_string big big "hi"
       (BasicWriteBuffer.mk (repeat 7 12) 1 11)
     = (false,
        BasicWriteBuffer.mk [7; 0; 0; 0; 2; 104; 105; 0; 0; 0; 2; 7] 11 11).
Proof.
  assert (H : write_buffer_ok (BasicWriteBuffer.mk (repeat 7 12) 1 11))
    by (unfold write_buffer_ok; simpl; lia).
  split; [ exact H | ].
  refine (proj2 (pushBack_string_layout big big "hi"
                   (BasicWriteBuffer.mk (repeat 7 12) 1 11) H) _).
  vm_compute. discriminate.
Defined.

(** X8.  Every string shorter than [2^32] characters written with the
    string [pushBack] is read back unchanged by the string [popFront], and
    by the string [popBack] of a buffer ending where the write ended, also
    by a reader of the other native order; the cursor of the reader moves
    over exactly the [size + 8] bytes written. *)
Theorem string_round_trip (writer reader Encoding : endian)
    (str old : string) (wb : BasicWriteBuffer.t) :
  write_buffer_ok wb ->
  string_size str < 2 ^ 32 ->
  string_size str + 8
  <= BasicWriteBuffer.m_end wb - BasicWriteBuffer.m_begin wb ->
  let b := BasicWriteBuffer.m_begin wb in
  let w := snd (BasicWriteBuffer.pushBack_string writer Encoding str wb) in
  let m := BasicWriteBuffer.mem w in
  let c := BasicWriteBuffer.m_begin w in
  c = b + string_size str + 8
  /\ BasicReadBuffer.popFront_string reader Encoding old
       (BasicReadBuffer.mk m b (BasicWriteBuffer.m_end wb))
     = (false, str, BasicReadBuffer.mk m c (BasicWriteBuffer.m_end wb))
  /\ BasicReadBuffer.popBack_string reader Encoding old
       (BasicReadBuffer.mk m b c)
     = (false, str, BasicReadBuffer.mk m b b).
Proof.
  intros Hok Hsize Hfit b w m c. subst c m w.
  rewrite (pushBack_string_form writer Encoding str wb Hok Hfit).
  cbn [snd BasicWriteBuffer.mem BasicWriteBuffer.m_begin].
  destruct Hok as [Hb He]. fold b.
  assert (Hpre : b = Z.of_nat (List.length
                                 (firstn (Z.to_nat b) (BasicWriteBuffer.mem wb)))).
  { rewrite length_firstn. subst b. lia. }
  split; [ lia | split ].
  - rewrite (popFront_string_at reader Encoding str old _
               (firstn (Z.to_nat b) (BasicWriteBuffer.mem wb))
               (skipn (Z.to_nat (b + (string_size str + 8)))
                  (BasicWriteBuffer.mem wb)) b); auto.
    + do 2 f_equal. lia.
    + subst b. lia.
  - rewrite (popBack_string_at reader Encoding str old _
               (firstn (Z.to_nat b) (BasicWriteBuffer.mem wb))
               (skipn (Z.to_nat (b + (string_size str + 8)))
                  (BasicWriteBuffer.mem wb)) b); auto.
    + do 2 f_equal. lia.
    + lia.
    + lia.
Qed.

Lemma string_round_trip_witness :
  write_buffer_ok (BasicWriteBuffer.mk (repeat 7 12) 1 11)
  /\ string_size "hi" < 2 ^ 32
  /\ BasicReadBuffer.popBack_string little big "stale"
       (BasicReadBuffer.mk [7; 0; 0; 0; 2; 104; 105; 0; 0; 0; 2; 7] 1 11)
     = (false, "hi"%string,
        BasicReadBuffer.mk [7; 0; 0; 0; 2; 104; 105; 0; 0; 0; 2; 7] 1 1).
Proof.
  assert (H : write_buffer_ok (BasicWriteBuffer.mk (repeat 7 12) 1 11))
    by (unfold write_buffer_ok; simpl; lia).
  assert (H2 : string_size "hi" < 2 ^ 32) by reflexivity.
  split; [ exact H | split; [ exact H2 | ] ].
  refine (proj2 (proj2 (string_round_trip big little big "hi" "stale"
                          (BasicWriteBuffer.mk (repeat 7 12) 1 11) H H2 _))).
  vm_compute. discriminate.
Defined.

(** ** Sequences of values on fixed buffers *)

Lemma encoded_length_app (xs ys : list typed_value) :
  encoded_length (xs ++ ys) = encoded_length xs + encoded_length ys.
Proof.
  unfold encoded_length. induction xs as [| x xs IH]; cbn [app fold_right].
  - reflexivity.
  - rewrite IH. lia.
Qed.

Lemma encoded_length_nonneg (vals : list typed_value) :
  0 <= encoded_length vals.
Proof.
  unfold encoded_length. induction vals as [| tv vals IH]; cbn [fold_right].
  - lia.
  - pose proof (sizeof_pos (fst tv)). lia.
Qed.

Lemma encoded_length_span (T : SwapType) (vs : list Z) :
  encoded_length (map (pair T) vs) = sizeof T * Z.of_nat (List.length vs).
Proof.
  unfold encoded_length.
  induction vs as [| v vs IH]; cbn [map fold_right fst List.length].
  - lia.
  - rewrite IH. lia.
Qed.

Section Sequences.
Variables native Encoding : endian.

Lemma encoding_app (xs ys : list typed_value) :
  encoding native Encoding (xs ++ ys)
  = encoding native Encoding xs ++ encoding native Encoding ys.
Proof. unfold encoding. now rewrite map_app, concat_app. Qed.

Lemma encoding_span (T : SwapType) (vs : list Z) :
  encoding native Encoding (map (pair T) vs) = span_bytes Encoding T vs.
Proof.
  unfold encoding. rewrite map_map. cbn [fst snd].
  apply span_bytes_stream.
Qed.

Lemma encoding_native (native' : endian) (vals : list typed_value) :
  encoding native Encoding vals = encoding native' Encoding vals.
Proof.
  unfold encoding. f_equal. apply map_ext. intros tv.
  now rewrite !stream_bytes_encoding.
Qed.

Lemma buffer_pushBack_all_at (vals : list typed_value) :
  forall (m pre old post : list Z) (p e : Z),
  Forall well_typed vals ->
  m = pre ++ old ++ post ->
  p = Z.of_nat (List.length pre) ->
  Z.of_nat (List.length old) = encoded_length vals ->
  p + encoded_length vals <= e ->
  buffer_pushBack_all native Encoding vals (BasicWriteBuffer.mk m p e)
  = (false,
     BasicWriteBuffer.mk (pre ++ encoding native Encoding vals ++ post)
       (p + encoded_length vals) e).
Proof.
  induction vals as [| [T value] vals IH];
    intros m pre old post p e Hvals Hm Hp Hold Hfit.
  - cbn in *. destruct old; [ | discriminate ].
    subst m. now rewrite Z.add_0_r.
  - inversion Hvals as [| ? ? Hv Hvals']; subst.
    pose proof (sizeof_pos T) as Hs.
    pose proof (encoded_length_nonneg vals) as Hl.
    cbn [encoded_length fold_right fst] in Hold, Hfit |- *.
    fold (encoded_length vals) in Hold, Hfit |- *.
    cbn [buffer_pushBack_all fst snd].
    unfold BasicWriteBuffer.pushBack.
    cbn [BasicWriteBuffer.m_begin BasicWriteBuffer.m_end].
    destruct (Z.leb_spec (Z.of_nat (List.length pre) + sizeof T) e);
      [ | lia ].
    rewrite (unsafePushBack_at native Encoding T value _ pre
               (firstn (Z.to_nat (sizeof T)) old)
               (skipn (Z.to_nat (sizeof T)) old ++ post)); auto.
    2: { now rewrite (app_assoc (firstn _ old)), firstn_skipn. }
    2: { rewrite length_firstn. lia. }
    rewrite (IH _ (pre ++ object_bytes Encoding T value)
               (skipn (Z.to_nat (sizeof T)) old) post); auto.
    + cbn [orb]. unfold encoding. cbn [map List.concat fst snd].
      rewrite stream_bytes_encoding, <- !app_assoc.
      do 2 f_equal. lia.
    + now rewrite <- !app_assoc.
    + rewrite length_app.
      pose proof (object_bytes_length Encoding T value). lia.
    + rewrite length_skipn. lia.
    + lia.
Qed.

Lemma buffer_popFront_all_at (vals : list typed_value) :
  forall (m pre post : list Z) (p e : Z),
  Forall well_typed vals ->
  m = pre ++ encoding native Encoding vals ++ post ->
  p = Z.of_nat (List.length pre) ->
  p + encoded_length vals <= e ->
  buffer_popFront_all native Encoding (map fst vals)
    (BasicReadBuffer.mk m p e)
  = (false, map snd vals,
     BasicReadBuffer.mk m (p + encoded_length vals) e).
Proof.
  induction vals as [| [T value] vals IH];
    intros m pre post p e Hvals Hm Hp Hfit.
  - cbn. now rewrite Z.add_0_r.
  - inversion Hvals as [| ? ? Hv Hvals']; subst.
    pose proof (sizeof_pos T) as Hs.
    pose proof (encoded_length_nonneg vals) as Hl.
    cbn [encoded_length fold_right fst] in Hfit |- *.
    fold (encoded_length vals) in Hfit |- *.
    cbn [map buffer_popFront_all fst snd].
    unfold BasicReadBuffer.popFront.
    cbn [BasicReadBuffer.m_begin BasicReadBuffer.m_end].
    destruct (Z.leb_spec (Z.of_nat (List.length pre) + sizeof T) e);
      [ | lia ].
    unfold encoding. cbn [map List.concat fst snd].
    fold (encoding native Encoding vals).
    rewrite stream_bytes_encoding.
    rewrite (unsafePopFront_at native Encoding T value _ pre
               (encoding native Encoding vals ++ post)); auto.
    2: { now rewrite <- !app_assoc. }
    rewrite (IH _ (pre ++ object_bytes Encoding T value) post); auto.
    + cbn [orb]. do 2 f_equal. lia.
    + now rewrite <- !app_assoc.
    + rewrite length_app.
      pose proof (object_bytes_length Encoding T value). lia.
    + lia.
Qed.

Lemma buffer_popBack_all_at (vals : list typed_value) :
  forall (m pre post : list Z) (b e : Z),
  Forall well_typed vals ->
  m = pre ++ encoding native Encoding vals ++ post ->
  b <= Z.of_nat (List.length pre) ->
  e = Z.of_nat (List.length pre) + encoded_length vals ->
  buffer_popBack_all native Encoding (rev (map fst vals))
    (BasicReadBuffer.mk m b e)
  = (false, rev (map snd vals),
     BasicReadBuffer.mk m b (Z.of_nat (List.length pre))).
Proof.
  induction vals as [| [T value] vals IH] using rev_ind;
    intros m pre post b e Hvals Hm Hb He.
  - cbn in *. subst e. now rewrite Z.add_0_r.
  - apply Forall_app in Hvals as [Hvals Hv].
    inversion Hv as [| ? ? Hv' _]; subst. unfold well_typed in Hv'.
    cbn [fst snd] in Hv'.
    pose proof (sizeof_pos T) as Hs.
    pose proof (encoded_length_nonneg vals) as Hl.
    pose proof (encoding_length native Encoding vals) as Hel.
    rewrite !map_app, !rev_app_distr. cbn [map rev app fst snd].
    rewrite encoded_length_app.
    cbn [encoded_length fold_right fst]. fold (encoded_length vals).
    cbn [buffer_popBack_all].
    unfold BasicReadBuffer.popBack.
    cbn [BasicReadBuffer.m_begin BasicReadBuffer.m_end].
    match goal with
    | |- context [ ?x <=? ?y ] => destruct (Z.leb_spec x y); [ | lia ]
    end.
    assert (E1 : encoding native Encoding
                   (@cons typed_value (T, value) (@nil typed_value))
                 = object_bytes Encoding T value).
    { unfold encoding. cbn [map List.concat fst snd].
      now rewrite app_nil_r, stream_bytes_encoding. }
    rewrite encoding_app, E1.
    rewrite (unsafePopBack_at native Encoding T value _
               (pre ++ encoding native Encoding vals) post); auto.
    2: { now rewrite <- !app_assoc. }
    2: { rewrite length_app. lia. }
    rewrite (IH _ pre (object_bytes Encoding T value ++ post)); auto.
    + now rewrite <- !app_assoc.
    + lia.
Qed.
End Sequences.

(** X9.  The span [pushBack] of a fixed buffer writes what the value
    [pushBack] writes element by element when the whole span fits, and, unlike
    the element-wise writes, writes nothing at all when it does not. *)
Theorem pushBack_span_elementwise (native Encoding : endian) (T : SwapType)
    (vs : list Z) (wb : BasicWriteBuffer.t) :
  Forall (in_range T) vs ->
  write_buffer_ok wb ->
  let n := sizeof T * Z.of_nat (List.length vs) in
  let remaining := BasicWriteBuffer.m_end wb - BasicWriteBuffer.m_begin wb in
  (n <= remaining ->
   BasicWriteBuffer.pushBack_span native Encoding T vs wb
   = buffer_pushBack_all native Encoding (map (pair T) vs) wb)
  /\ (remaining < n ->
      BasicWriteBuffer.pushBack_span native Encoding T vs wb = (true, wb)).
Proof.
  intros Hvs Hok n remaining. split; intros H.
  - rewrite (pushBack_span_form native Encoding T vs wb Hvs Hok H). fold n.
    pose proof (sizeof_pos T) as Hs.
    destruct (memory_at_cursor wb n Hok)
      as (pre & old & post & Em & Ep & Eold & <- & <-);
      try (subst n remaining; lia).
    destruct wb as [m p e].
    cbn [BasicWriteBuffer.mem BasicWriteBuffer.m_begin BasicWriteBuffer.m_end]
      in *.
    rewrite (buffer_pushBack_all_at native Encoding (map (pair T) vs)
               m pre old post p e); auto.
    + now rewrite encoding_span, encoded_length_span.
    + apply Forall_forall. intros tv Hin.
      apply in_map_iff in Hin as (v & <- & Hin).
      unfold well_typed. cbn [fst snd].
      now apply (proj1 (Forall_forall _ _) Hvs).
    + now rewrite encoded_length_span.
    + rewrite encoded_length_span. subst remaining n. lia.
  - unfold BasicWriteBuffer.pushBack_span. fold n.
    destruct (Z.leb_spec (BasicWriteBuffer.m_begin wb + n)
                (BasicWriteBuffer.m_end wb)); [ subst remaining; lia | ].
    reflexivity.
Qed.

Lemma pushBack_span_elementwise_witness :
  Forall (in_range (mkSwapType W2 false false)) [0x0102; 0x0304]
  /\ write_buffer_ok (BasicWriteBuffer.mk [9; 0; 0; 0; 0; 9] 1 5)
  /\ BasicWriteBuffer.pushBack_span little big (mkSwapType W2 false false)
       [0x0102; 0x0304] (BasicWriteBuffer.mk [9; 0; 0; 0; 0; 9] 1 5)
     = buffer_pushBack_all little big
         [(mkSwapType W2 false false, 0x0102);
          (mkSwapType W2 false false, 0x0304)]
         (BasicWriteBuffer.mk [9; 0; 0; 0; 0; 9] 1 5).
Proof.
  assert (H1 : Forall (in_range (mkSwapType W2 false false)) [0x0102; 0x0304])
    by (repeat constructor; unfold in_range; simpl; lia).
  assert (H2 : write_buffer_ok (BasicWriteBuffer.mk [9; 0; 0; 0; 0; 9] 1 5))
    by (unfold write_buffer_ok; simpl; lia).
  split; [ exact H1 | split; [ exact H2 | ] ].
  refine (proj1 (pushBack_span_elementwise little big
                   (mkSwapType W2 false false) [0x0102; 0x0304]
                   (BasicWriteBuffer.mk [9; 0; 0; 0; 0; 9] 1 5) H1 H2) _).
  vm_compute. discriminate.
Defined.

(** X10.  Values of mixed swappable types written one after the other with
    [pushBack] are read back in the order written by successive [popFront]
    calls, and in the reverse order by successive [popBack] calls, by a
    reader of either native order; neither sequence of reads fails, and each
    consumes exactly the bytes written. *)
Theorem sequence_round_trip (writer reader Encoding : endian)
    (vals : list typed_value) (wb : BasicWriteBuffer.t) :
  Forall well_typed vals ->
  write_buffer_ok wb ->
  encoded_length vals
  <= BasicWriteBuffer.m_end wb - BasicWriteBuffer.m_begin wb ->
  let b := BasicWriteBuffer.m_begin wb in
  let w := buffer_pushBack_all writer Encoding vals wb in
  let m := BasicWriteBuffer.mem (snd w) in
  let c := BasicWriteBuffer.m_begin (snd w) in
  fst w = false
  /\ c = b + encoded_length vals
  /\ buffer_popFront_all reader Encoding (map fst vals)
       (BasicReadBuffer.mk m b c)
     = (false, map snd vals, BasicReadBuffer.mk m c c)
  /\ buffer_popBack_all reader Encoding (rev (map fst vals))
       (BasicReadBuffer.mk m b c)
     = (false, rev (map snd vals), BasicReadBuffer.mk m b b).
Proof.
  intros Hvals Hok Hfit b w m c. subst c m w.
  pose proof (encoded_length_nonneg vals) as Hl.
  destruct (memory_at_cursor wb (encoded_length vals) Hok)
    as (pre & old & post & Em & Ep & Eold & _ & _); try lia.
  destruct wb as [m p e].
  cbn [BasicWriteBuffer.mem BasicWriteBuffer.m_begin BasicWriteBuffer.m_end]
    in *.
  subst b.
  rewrite (buffer_pushBack_all_at writer Encoding vals m pre old post p e);
    auto; try lia.
  cbn [fst snd BasicWriteBuffer.mem BasicWriteBuffer.m_begin].
  rewrite (encoding_native writer Encoding reader).
  split; [ reflexivity | split; [ reflexivity | split ] ].
  - apply (buffer_popFront_all_at reader Encoding vals _ pre post); auto.
    lia.
  - rewrite (buffer_popBack_all_at reader Encoding vals _ pre post p
               (p + encoded_length vals)); auto; try lia.
    now rewrite Ep.
Qed.

Lemma sequence_round_trip_witness :
  Forall well_typed
    [(mkSwapType W2 false false, 0x0102); (mkSwapType W1 true false, -2)]
  /\ write_buffer_ok (BasicWriteBuffer.mk [9; 0; 0; 0; 9] 1 4)
  /\ buffer_popBack_all big little
       [mkSwapType W1 true false; mkSwapType W2 false false]
       (BasicReadBuffer.mk [9; 2; 1; 254; 9] 1 4)
     = (false, [-2; 0x0102], BasicReadBuffer.mk [9; 2; 1; 254; 9] 1 1).
Proof.
  assert (H1 : Forall well_typed
                 [(mkSwapType W2 false false, 0x0102);
                  (mkSwapType W1 true false, -2)])
    by (repeat constructor; unfold well_typed, in_range; simpl; lia).
  assert (H2 : write_buffer_ok (BasicWriteBuffer.mk [9; 0; 0; 0; 9] 1 4))
    by (unfold write_buffer_ok; simpl; lia).
  split; [ exact H1 | split; [ exact H2 | ] ].
  refine (proj2 (proj2 (proj2 (sequence_round_trip little big little
     [(mkSwapType W2 false false, 0x0102); (mkSwapType W1 true false, -2)]
     (BasicWriteBuffer.mk [9; 0; 0; 0; 9] 1 4) H1 H2 _)))).
  vm_compute. discriminate.
Defined.

(** ** What the safe writes leave alone *)

(** The buffer after the bytes [new] have been stored at its cursor. *)
Lemma unchanged_form (wb : BasicWriteBuffer.t) :
  write_buffer_ok wb ->
  wb = BasicWriteBuffer.mk
         (firstn (Z.to_nat (BasicWriteBuffer.m_begin wb))
            (BasicWriteBuffer.mem wb)
          ++ []
          ++ skipn (Z.to_nat (BasicWriteBuffer.m_begin wb + 0))
               (BasicWriteBuffer.mem wb))
         (BasicWriteBuffer.m_begin wb + 0)
         (BasicWriteBuffer.m_end wb).
Proof.
  intros _. destruct wb as [m p e].
  cbn [BasicWriteBuffer.mem BasicWriteBuffer.m_begin BasicWriteBuffer.m_end
       app].
  rewrite Z.add_0_r. now rewrite firstn_skipn.
Qed.

Lemma run_write_op_effect (native Encoding : endian) (op : write_op)
    (wb : BasicWriteBuffer.t) :
  write_buffer_ok wb ->
  write_op_ok (BasicWriteBuffer.m_end wb) op ->
  exists new : list Z,
    BasicWriteBuffer.m_begin wb + Z.of_nat (List.length new)
    <= BasicWriteBuffer.m_end wb
    /\ run_write_op native Encoding op wb
       = BasicWriteBuffer.mk
           (firstn (Z.to_nat (BasicWriteBuffer.m_begin wb))
              (BasicWriteBuffer.mem wb)
            ++ new
            ++ skipn (Z.to_nat (BasicWriteBuffer.m_begin wb
                                + Z.of_nat (List.length new)))
                 (BasicWriteBuffer.mem wb))
           (BasicWriteBuffer.m_begin wb + Z.of_nat (List.length new))
           (BasicWriteBuffer.m_end wb).
Proof.
  intros Hok Hop. pose proof Hok as [Hb He].
  assert (Hnil : exists new : list Z,
             BasicWriteBuffer.m_begin wb + Z.of_nat (List.length new)
             <= BasicWriteBuffer.m_end wb
             /\ wb
                = BasicWriteBuffer.mk
                    (firstn (Z.to_nat (BasicWriteBuffer.m_begin wb))
                       (BasicWriteBuffer.mem wb)
                     ++ new
                     ++ skipn (Z.to_nat (BasicWriteBuffer.m_begin wb
                                         + Z.of_nat (List.length new)))
                          (BasicWriteBuffer.mem wb))
                    (BasicWriteBuffer.m_begin wb + Z.of_nat (List.length new))
                    (BasicWriteBuffer.m_end wb)).
  { exists []. split; [ cbn; lia | now apply unchanged_form ]. }
  destruct op as [bytes | T value | T span | str | T span];
    cbn [run_write_op write_op_ok] in *.
  - (* skip *)
    unfold BasicWriteBuffer.skip. rewrite wrap_small by lia.
    set (n := if BasicWriteBuffer.m_begin wb + bytes
                 <=? BasicWriteBuffer.m_end wb
              then bytes
              else BasicWriteBuffer.m_end wb - BasicWriteBuffer.m_begin wb).
    assert (Hn : 0 <= n
                 /\ BasicWriteBuffer.m_begin wb + n
                    <= BasicWriteBuffer.m_end wb
                 /\ (if BasicWriteBuffer.m_begin wb + bytes
                        <=? BasicWriteBuffer.m_end wb
                     then BasicWriteBuffer.m_begin wb + bytes
                     else BasicWriteBuffer.m_end wb)
                    = BasicWriteBuffer.m_begin wb + n).
    { subst n.
      destruct (Z.leb_spec (BasicWriteBuffer.m_begin wb + bytes)
                  (BasicWriteBuffer.m_end wb)); lia. }
    destruct Hn as (Hn0 & Hn1 & ->).
    destruct (memory_at_cursor wb n Hok Hn0 Hn1)
      as (pre & old & post & Em & Ep & Eold & Epre & Epost).
    exists old. rewrite Eold. split; [ exact Hn1 | ].
    rewrite <- Epre, <- Epost. now rewrite <- Em.
  - (* pushBack *)
    destruct (Z.le_gt_cases (sizeof T)
                (BasicWriteBuffer.m_end wb - BasicWriteBuffer.m_begin wb))
      as [Hfit | Hshort].
    + rewrite (pushBack_form native Encoding T value wb Hop Hok Hfit).
      exists (object_bytes Encoding T value).
      rewrite (object_bytes_length Encoding T value).
      pose proof (sizeof_pos T). rewrite Z2Nat.id by lia.
      split; [ lia | reflexivity ].
    + unfold BasicWriteBuffer.pushBack.
      destruct (Z.leb_spec (BasicWriteBuffer.m_begin wb + sizeof T)
                  (BasicWriteBuffer.m_end wb)); [ lia | ].
      exact Hnil.
  - (* pushBack of a span *)
    destruct (Z.le_gt_cases (sizeof T * Z.of_nat (List.length span))
                (BasicWriteBuffer.m_end wb - BasicWriteBuffer.m_begin wb))
      as [Hfit | Hshort].
    + rewrite (pushBack_span_form native Encoding T span wb Hop Hok Hfit).
      exists (span_bytes Encoding T span).
      rewrite (span_bytes_length Encoding T span).
      split; [ lia | reflexivity ].
    + unfold BasicWriteBuffer.pushBack_span.
      destruct (Z.leb_spec
                  (BasicWriteBuffer.m_begin wb
                   + sizeof T * Z.of_nat (List.length span))
                  (BasicWriteBuffer.m_end wb)); [ lia | ].
      exact Hnil.
  - (* pushBack of a string *)
    destruct (Z.le_gt_cases (string_size str + 8)
                (BasicWriteBuffer.m_end wb - BasicWriteBuffer.m_begin wb))
      as [Hfit | Hshort].
    + rewrite (pushBack_string_form native Encoding str wb Hok Hfit).
      exists (string_frame Encoding str).
      rewrite (string_frame_length Encoding str).
      split; [ lia | reflexivity ].
    + unfold BasicWriteBuffer.pushBack_string,
        BasicWriteBuffer.calculateSerializedSize.
      destruct (Z.leb_spec
                  (BasicWriteBuffer.m_begin wb + (string_size str + 8))
                  (BasicWriteBuffer.m_end wb)); [ lia | ].
      exact Hnil.
  - (* pushBackSome *)
    destruct (pushBackSome_form native Encoding T span wb Hop Hok)
      as (Hc & Hfit & E).
    rewrite E. cbn [snd].
    set (count := Z.min ((BasicWriteBuffer.m_end wb
                          - BasicWriteBuffer.m_begin wb) / sizeof T)
                        (Z.of_nat (List.length span))) in *.
    exists (span_bytes Encoding T (firstn (Z.to_nat count) span)).
    rewrite (span_bytes_length Encoding T).
    rewrite length_firstn.
    replace (Z.of_nat (Nat.min (Z.to_nat count) (List.length span)))
      with count by (subst count; lia).
    split; [ lia | reflexivity ].
Qed.

Lemma write_form_frame (m new : list Z) (p e : Z) :
  write_buffer_ok (BasicWriteBuffer.mk m p e) ->
  p + Z.of_nat (List.length new) <= e ->
  let n := Z.of_nat (List.length new) in
  let m' := firstn (Z.to_nat p) m ++ new ++ skipn (Z.to_nat (p + n)) m in
  write_buffer_ok (BasicWriteBuffer.mk m' (p + n) e)
  /\ List.length m' = List.length m
  /\ firstn (Z.to_nat p) m' = firstn (Z.to_nat p) m
  /\ skipn (Z.to_nat (p + n)) m' = skipn (Z.to_nat (p + n)) m.
Proof.
  intros [Hb He] Hfit n m'.
  cbn [BasicWriteBuffer.mem BasicWriteBuffer.m_begin BasicWriteBuffer.m_end]
    in *.
  assert (Hl1 : List.length (firstn (Z.to_nat p) m) = Z.to_nat p)
    by (rewrite length_firstn; lia).
  assert (Hlen : List.length m' = List.length m).
  { subst m'. rewrite !length_app, length_skipn, Hl1. subst n. lia. }
  split; [ | split; [ exact Hlen | split ] ].
  - unfold write_buffer_ok.
    cbn [BasicWriteBuffer.mem BasicWriteBuffer.m_begin BasicWriteBuffer.m_end].
    rewrite Hlen. subst n. lia.
  - subst m'. rewrite firstn_app, Hl1, Nat.sub_diag. cbn [firstn].
    rewrite app_nil_r. rewrite firstn_firstn. f_equal. lia.
  - subst m'. rewrite app_assoc.
    rewrite skipn_app.
    rewrite (skipn_all2 (firstn (Z.to_nat p) m ++ new))
      by (rewrite length_app, Hl1; subst n; lia).
    rewrite length_app, Hl1.
    replace (Z.to_nat (p + n) - (Z.to_nat p + List.length new))%nat
      with 0%nat by (subst n; lia).
    reflexivity.
Qed.

Lemma skipn_eq_later {A : Type} (a b : nat) (l1 l2 : list A) :
  (a <= b)%nat ->
  skipn a l1 = skipn a l2 ->
  skipn b l1 = skipn b l2.
Proof.
  intros Hab H.
  replace b with ((b - a) + a)%nat by lia.
  rewrite <- !skipn_skipn. now rewrite H.
Qed.

Lemma firstn_eq_earlier {A : Type} (a b : nat) (l1 l2 : list A) :
  (a <= b)%nat ->
  firstn b l1 = firstn b l2 ->
  firstn a l1 = firstn a l2.
Proof.
  intros Hab H.
  replace a with (Nat.min a b) by lia.
  rewrite <- !firstn_firstn. now rewrite H.
Qed.

(** X11.  Whatever they return, the safe writing members ([skip], the value,
    span and string [pushBack], [pushBackSome]) called in any sequence on a
    buffer in a regular state keep it in a regular state, provided no [skip]
    is given so many bytes that the end of the buffer plus that number wraps
    around at [2 ^ 64]: the end never moves, the cursor only moves forwards
    and never past the end, and no byte of the memory before the initial
    cursor or from the final cursor on is changed. *)
Theorem write_ops_frame (native Encoding : endian) (ops : list write_op)
    (wb : BasicWriteBuffer.t) :
  write_buffer_ok wb ->
  Forall (write_op_ok (BasicWriteBuffer.m_end wb)) ops ->
  let wb' := run_write_ops native Encoding ops wb in
  write_buffer_ok wb'
  /\ BasicWriteBuffer.m_end wb' = BasicWriteBuffer.m_end wb
  /\ BasicWriteBuffer.m_begin wb <= BasicWriteBuffer.m_begin wb'
  /\ List.length (BasicWriteBuffer.mem wb')
     = List.length (BasicWriteBuffer.mem wb)
  /\ firstn (Z.to_nat (BasicWriteBuffer.m_begin wb)) (BasicWriteBuffer.mem wb')
     = firstn (Z.to_nat (BasicWriteBuffer.m_begin wb)) (BasicWriteBuffer.mem wb)
  /\ skipn (Z.to_nat (BasicWriteBuffer.m_begin wb')) (BasicWriteBuffer.mem wb')
     = skipn (Z.to_nat (BasicWriteBuffer.m_begin wb')) (BasicWriteBuffer.mem wb).
Proof.
  intros Hok Hops.
  remember (BasicWriteBuffer.m_end wb) as limit eqn:El in Hops.
  revert wb Hok El.
  induction Hops as [| op ops Hop Hops IH]; intros wb Hok El wb'.
  - subst wb'. cbn. repeat split; try lia; apply Hok.
  - subst wb' limit. unfold run_write_ops. cbn [fold_left].
    fold (run_write_ops native Encoding ops
            (run_write_op native Encoding op wb)).
    destruct (run_write_op_effect native Encoding op wb Hok Hop)
      as (new & Hfit & E).
    destruct wb as [m p e].
    cbn [BasicWriteBuffer.mem BasicWriteBuffer.m_begin BasicWriteBuffer.m_end]
      in *.
    destruct (write_form_frame m new p e Hok Hfit)
      as (Hok1 & Hlen1 & Hpre1 & Hpost1).
    rewrite E.
    specialize (IH _ Hok1 eq_refl). cbn zeta in IH.
    set (wb2 := run_write_ops native Encoding ops _) in *.
    cbn [BasicWriteBuffer.mem BasicWriteBuffer.m_begin BasicWriteBuffer.m_end]
      in IH.
    destruct IH as (Hok2 & He2 & Hb2 & Hlen2 & Hpre2 & Hpost2).
    destruct Hok as [Hb He].
    cbn [BasicWriteBuffer.mem BasicWriteBuffer.m_begin BasicWriteBuffer.m_end]
      in *.
    split; [ exact Hok2 | split; [ exact He2 | split; [ lia | ] ] ].
    split; [ congruence | split ].
    + rewrite <- Hpre1.
      apply (firstn_eq_earlier _
               (Z.to_nat (p + Z.of_nat (List.length new)))); [ lia | ].
      exact Hpre2.
    + rewrite Hpost2.
      apply (skipn_eq_later (Z.to_nat (p + Z.of_nat (List.length new))));
        [ lia | ].
      exact Hpost1.
Qed.

Lemma write_ops_frame_witness :
  write_buffer_ok (BasicWriteBuffer.mk [9; 0; 0; 0; 0; 0; 0; 9] 1 7)
  /\ Forall (write_op_ok 7)
       [op_pushBack (mkSwapType W2 false false) 0x0102;
        op_pushBack_string "toolong"; op_skip 1;
        op_pushBackSome (mkSwapType W2 false false) [0x0304; 0x0506]]
  /\ run_write_ops little big
       [op_pushBack (mkSwapType W2 false false) 0x0102;
        op_pushBack_string "toolong"; op_skip 1;
        op_pushBackSome (mkSwapType W2 false false) [0x0304; 0x0506]]
       (BasicWriteBuffer.mk [9; 0; 0; 0; 0; 0; 0; 9] 1 7)
     = BasicWriteBuffer.mk [9; 1; 2; 0; 3; 4; 0; 9] 6 7
  /\ write_buffer_ok
       (run_write_ops little big
          [op_pushBack (mkSwapType W2 false false) 0x0102;
           op_pushBack_string "toolong"; op_skip 1;
           op_pushBackSome (mkSwapType W2 false false) [0x0304; 0x0506]]
          (BasicWriteBuffer.mk [9; 0; 0; 0; 0; 0; 0; 9] 1 7)).
Proof.
  assert (H1 : write_buffer_ok
                 (BasicWriteBuffer.mk [9; 0; 0; 0; 0; 0; 0; 9] 1 7))
    by (unfold write_buffer_ok; simpl; lia).
  assert (H2 : Forall (write_op_ok 7)
                 [op_pushBack (mkSwapType W2 false false) 0x0102;
                  op_pushBack_string "toolong"; op_skip 1;
                  op_pushBackSome (mkSwapType W2 false false)
                    [0x0304; 0x0506]]).
  { repeat constructor; unfold in_range; simpl; lia. }
  split; [ exact H1 | split; [ exact H2 | split; [ reflexivity | ] ] ].
  exact (proj1 (write_ops_frame little big _ _ H1 H2)).
Defined.

(** ** What a successful string read has seen *)

Lemma chars_decode (cs : list Z) :
  Forall is_byte cs ->
  string_chars (chars_string cs) = cs
  /\ string_size (chars_string cs) = Z.of_nat (List.length cs).
Proof.
  intros Hcs. unfold string_chars, chars_string, string_size. split.
  - rewrite list_ascii_of_string_of_list_ascii, map_map.
    induction Hcs as [| c cs Hc _ IH]; cbn [map]; [ reflexivity | ].
    rewrite IH. f_equal. unfold char_value, char_of_value, is_byte in *.
    rewrite Z.mod_small by lia.
    rewrite N_ascii_embedding by lia. lia.
  - now rewrite string_of_list_ascii_length, length_map.
Qed.

Section Decoding.
Variables native Encoding : endian.

(** The string [popFront] on any two length fields around [n] bytes. *)
Lemma popFront_string_any (n n2 : Z) (cs : list Z) (old : string)
    (m pre post : list Z) (p e : Z) :
  in_range uint32_t n ->
  in_range uint32_t n2 ->
  Forall is_byte cs ->
  Z.of_nat (List.length cs) = n ->
  m = pre ++ object_bytes Encoding uint32_t n ++ cs
      ++ object_bytes Encoding uint32_t n2 ++ post ->
  p = Z.of_nat (List.length pre) ->
  p + n + 8 <= e ->
  BasicReadBuffer.popFront_string native Encoding old
    (BasicReadBuffer.mk m p e)
  = if n =? n2
    then (false, chars_string cs, BasicReadBuffer.mk m (p + n + 8) e)
    else (true, EmptyString, BasicReadBuffer.mk m p e).
Proof.
  intros Hn Hn2 Hcs Hlen Hm Hp He.
  set (B1 := object_bytes Encoding uint32_t n) in *.
  set (B2 := object_bytes Encoding uint32_t n2) in *.
  assert (LB1 : List.length B1 = 4%nat)
    by (subst B1; now rewrite object_bytes_length).
  assert (Hn0 : 0 <= n) by lia.
  unfold BasicReadBuffer.popFront_string.
  cbn [BasicReadBuffer.m_begin BasicReadBuffer.m_end].
  destruct (Z.leb_spec (p + 8) e); [ | lia ].
  rewrite (unsafePopFront_at native Encoding uint32_t n m pre
             (cs ++ B2 ++ post) p e) by auto.
  cbn [BasicReadBuffer.m_begin BasicReadBuffer.m_end].
  change (sizeof uint32_t) with 4.
  destruct (Z.leb_spec (p + 4 + n + 4) e); [ | lia ].
  rewrite string_empty_length, string_resize_length.
  destruct (Nat.eqb_spec (Z.to_nat n) 0) as [E0 | NE0]; cbn [negb].
  - assert (En : n = 0) by lia.
    assert (Ecs : cs = []) by (destruct cs; [ reflexivity | cbn in Hlen; lia ]).
    subst cs. cbn [app] in Hm.
    rewrite (unsafePopFront_at native Encoding uint32_t n2 m (pre ++ B1)
               post (p + 4) e); auto.
    2: { now rewrite <- app_assoc. }
    2: { rewrite length_app. lia. }
    change (sizeof uint32_t) with 4.
    destruct (n =? n2).
    + f_equal; [ f_equal | f_equal; lia ].
      rewrite En. unfold string_resize. reflexivity.
    + reflexivity.
  - rewrite (unsafePopFront_span_at native Encoding char cs (Z.to_nat n) m
               (pre ++ B1) (B2 ++ post) (p + 4) e); auto.
    2: { rewrite span_bytes_char by exact Hcs. now rewrite <- !app_assoc. }
    2: { rewrite length_app. lia. }
    2: { lia. }
    change (sizeof char) with 1.
    rewrite (unsafePopFront_at native Encoding uint32_t n2 m
               ((pre ++ B1) ++ cs) post); auto.
    2: { now rewrite <- !app_assoc. }
    2: { rewrite !length_app. lia. }
    change (sizeof uint32_t) with 4.
    destruct (n =? n2).
    + f_equal. f_equal. lia.
    + reflexivity.
Qed.

(** The string [popBack] on any two length fields around [n2] bytes. *)
Lemma popBack_string_any (n n2 : Z) (cs : list Z) (old : string)
    (m pre post : list Z) (b e : Z) :
  in_range uint32_t n ->
  in_range uint32_t n2 ->
  Forall is_byte cs ->
  Z.of_nat (List.length cs) = n2 ->
  m = pre ++ object_bytes Encoding uint32_t n ++ cs
      ++ object_bytes Encoding uint32_t n2 ++ post ->
  b <= Z.of_nat (List.length pre) ->
  e = Z.of_nat (List.length pre) + n2 + 8 ->
  BasicReadBuffer.popBack_string native Encoding old
    (BasicReadBuffer.mk m b e)
  = if n2 =? n
    then (false, chars_string cs,
          BasicReadBuffer.mk m b (Z.of_nat (List.length pre)))
    else (true, EmptyString, BasicReadBuffer.mk m b e).
Proof.
  intros Hn Hn2 Hcs Hlen Hm Hb He.
  set (B1 := object_bytes Encoding uint32_t n) in *.
  set (B2 := object_bytes Encoding uint32_t n2) in *.
  assert (LB1 : List.length B1 = 4%nat)
    by (subst B1; now rewrite object_bytes_length).
  assert (Hn0 : 0 <= n2) by lia.
  unfold BasicReadBuffer.popBack_string.
  cbn [BasicReadBuffer.m_begin BasicReadBuffer.m_end].
  destruct (Z.leb_spec (b + 8) e); [ | lia ].
  rewrite (unsafePopBack_at native Encoding uint32_t n2 m
             (pre ++ B1 ++ cs) post b e); auto.
  2: { now rewrite <- !app_assoc. }
  2: { rewrite !length_app. change (sizeof uint32_t) with 4. lia. }
  cbn [BasicReadBuffer.m_begin BasicReadBuffer.m_end].
  change (sizeof uint32_t) with 4.
  destruct (Z.leb_spec (b + n2 + 4) (e - 4)); [ | lia ].
  rewrite string_empty_length, string_resize_length.
  destruct (Nat.eqb_spec (Z.to_nat n2) 0) as [E0 | NE0]; cbn [negb].
  - assert (En : n2 = 0) by lia.
    assert (Ecs : cs = []) by (destruct cs; [ reflexivity | cbn in Hlen; lia ]).
    subst cs. cbn [app] in Hm.
    rewrite (unsafePopBack_at native Encoding uint32_t n m pre
               (B2 ++ post) b (e - 4)); auto.
    2: { change (sizeof uint32_t) with 4. lia. }
    change (sizeof uint32_t) with 4.
    destruct (n2 =? n).
    + f_equal; [ f_equal | f_equal; lia ].
      rewrite En. unfold string_resize. reflexivity.
    + reflexivity.
  - rewrite (unsafePopBack_span_at native Encoding char cs (Z.to_nat n2) m
               (pre ++ B1) (B2 ++ post) b (e - 4)); auto.
    2: { rewrite span_bytes_char by exact Hcs. now rewrite <- !app_assoc. }
    2: { rewrite length_app. change (sizeof char) with 1. lia. }
    2: { lia. }
    change (sizeof char) with 1.
    rewrite (unsafePopBack_at native Encoding uint32_t n m pre
               (cs ++ B2 ++ post)); auto.
    2: { change (sizeof uint32_t) with 4. lia. }
    change (sizeof uint32_t) with 4.
    destruct (n2 =? n).
    + f_equal. f_equal. lia.
    + reflexivity.
Qed.
End Decoding.

Lemma load_add (m : memory) (p a b : Z) :
  0 <= p -> 0 <= a -> 0 <= b ->
  load m p (a + b) = load m p a ++ load m (p + a) b.
Proof.
  intros Hp Ha Hb. unfold load.
  replace (Z.to_nat (a + b)) with (Z.to_nat a + Z.to_nat b)%nat by lia.
  replace (Z.to_nat (p + a)) with (Z.to_nat a + Z.to_nat p)%nat by lia.
  rewrite <- skipn_skipn.
  generalize (skipn (Z.to_nat p) m) as l. generalize (Z.to_nat a) as k.
  induction k as [| k IH]; intros l; [ reflexivity | ].
  destruct l as [| x l]; cbn [Nat.add firstn skipn app].
  - now rewrite firstn_nil.
  - now rewrite IH.
Qed.

Lemma memory_load_split (m : memory) (p n : Z) :
  0 <= p -> 0 <= n -> p + n <= Z.of_nat (List.length m) ->
  m = firstn (Z.to_nat p) m ++ load m p n ++ skipn (Z.to_nat (p + n)) m
  /\ p = Z.of_nat (List.length (firstn (Z.to_nat p) m)).
Proof.
  intros Hp Hn H. split.
  - unfold load.
    replace (Z.to_nat (p + n)) with (Z.to_nat n + Z.to_nat p)%nat by lia.
    rewrite <- skipn_skipn. now rewrite !firstn_skipn.
  - rewrite length_firstn. lia.
Qed.

Lemma load_is_byte (m : memory) (p n : Z) :
  Forall is_byte m -> Forall is_byte (load m p n).
Proof. intros H. now apply load_range. Qed.

Section Soundness.
Variables native Encoding : endian.

Lemma read_uint32 (m : memory) (p : Z) :
  Forall is_byte m ->
  0 <= p -> p + 4 <= Z.of_nat (List.length m) ->
  let n := Concepts.basicCopy_read native Encoding uint32_t p m in
  in_range uint32_t n
  /\ object_bytes Encoding uint32_t n = load m p 4.
Proof.
  intros Hm Hp Hfit n. subst n.
  assert (Hl : List.length (load m p 4) = 4%nat)
    by (rewrite load_length; lia).
  rewrite basicCopy_read_encoding; auto.
  apply object_bytes_value; [ now apply load_is_byte | exact Hl ].
Qed.

Lemma popFront_string_sound (old s : string)
    (rb rb' : BasicReadBuffer.t) :
  read_buffer_ok rb ->
  BasicReadBuffer.popFront_string native Encoding old rb = (false, s, rb') ->
  string_size s + 8 <= BasicReadBuffer.m_end rb - BasicReadBuffer.m_begin rb
  /\ rb' = BasicReadBuffer.mk (BasicReadBuffer.mem rb)
             (BasicReadBuffer.m_begin rb + (string_size s + 8))
             (BasicReadBuffer.m_end rb)
  /\ load (BasicReadBuffer.mem rb) (BasicReadBuffer.m_begin rb)
       (string_size s + 8)
     = string_frame Encoding s.
Proof.
  intros Hok H. destruct rb as [m p e].
  destruct Hok as (Hb & He & Hbytes).
  cbn [BasicReadBuffer.mem BasicReadBuffer.m_begin BasicReadBuffer.m_end]
    in *.
  destruct (Z.le_gt_cases (p + 8) e) as [H8 | H8].
  2: { rewrite popFront_string_short in H by (cbn; lia). discriminate. }
  destruct (read_uint32 m p Hbytes) as [Hn EB1]; try lia.
  set (n := Concepts.basicCopy_read native Encoding uint32_t p m) in *.
  assert (Hn0 : 0 <= n < 2 ^ 32) by exact Hn.
  destruct (Z.le_gt_cases (n + 4) (e - (p + 4))) as [Hfit | Hshort].
  2: { pose proof (popFront_string_truncated native Encoding old
                     (BasicReadBuffer.mk m p e)) as Ht.
       cbv zeta in Ht.
       cbn [BasicReadBuffer.mem BasicReadBuffer.m_begin
            BasicReadBuffer.m_end] in Ht.
       fold n in Ht. rewrite Ht in H by lia. discriminate. }
  destruct (read_uint32 m (p + 4 + n) Hbytes) as [Hn2 EB2]; try lia.
  set (n2 := Concepts.basicCopy_read native Encoding uint32_t (p + 4 + n) m)
    in *.
  destruct (memory_load_split m p (n + 8)) as [Em Ep]; try lia.
  assert (El : load m p (n + 8)
               = object_bytes Encoding uint32_t n ++ load m (p + 4) n
                 ++ object_bytes Encoding uint32_t n2).
  { replace (n + 8) with (4 + (n + 4)) by lia.
    rewrite load_add, load_add by lia. now rewrite EB1, EB2. }
  rewrite El in Em. rewrite <- !app_assoc in Em.
  assert (Hcs : Forall is_byte (load m (p + 4) n))
    by now apply load_is_byte.
  assert (Lcs : Z.of_nat (List.length (load m (p + 4) n)) = n)
    by (rewrite load_length; lia).
  rewrite (popFront_string_any native Encoding n n2 (load m (p + 4) n) old
             m _ _ p e Hn Hn2 Hcs Lcs Em Ep) in H by lia.
  destruct (Z.eqb_spec n n2) as [E | NE]; [ | discriminate ].
  injection H as <- <-.
  destruct (chars_decode _ Hcs) as [Echars Esize].
  rewrite Esize, Lcs.
  split; [ lia | split ].
  - f_equal. lia.
  - rewrite El. unfold string_frame. now rewrite Echars, Esize, Lcs, <- E.
Qed.

Lemma popBack_string_sound (old s : string)
    (rb rb' : BasicReadBuffer.t) :
  read_buffer_ok rb ->
  BasicReadBuffer.popBack_string native Encoding old rb = (false, s, rb') ->
  string_size s + 8 <= BasicReadBuffer.m_end rb - BasicReadBuffer.m_begin rb
  /\ rb' = BasicReadBuffer.mk (BasicReadBuffer.mem rb)
             (BasicReadBuffer.m_begin rb)
             (BasicReadBuffer.m_end rb - (string_size s + 8))
  /\ load (BasicReadBuffer.mem rb)
       (BasicReadBuffer.m_end rb - (string_size s + 8))
       (string_size s + 8)
     = string_frame Encoding s.
Proof.
  intros Hok H. destruct rb as [m b e].
  destruct Hok as (Hb & He & Hbytes).
  cbn [BasicReadBuffer.mem BasicReadBuffer.m_begin BasicReadBuffer.m_end]
    in *.
  destruct (Z.le_gt_cases (b + 8) e) as [H8 | H8].
  2: { rewrite popBack_string_short in H by (cbn; lia). discriminate. }
  destruct (read_uint32 m (e - 4) Hbytes) as [Hn2 EB2]; try lia.
  set (n2 := Concepts.basicCopy_read native Encoding uint32_t (e - 4) m)
    in *.
  assert (Hn0 : 0 <= n2 < 2 ^ 32) by exact Hn2.
  destruct (Z.le_gt_cases (n2 + 4) ((e - 4) - b)) as [Hfit | Hshort].
  2: { pose proof (popBack_string_truncated native Encoding old
                     (BasicReadBuffer.mk m b e)) as Ht.
       cbv zeta in Ht.
       cbn [BasicReadBuffer.mem BasicReadBuffer.m_begin
            BasicReadBuffer.m_end] in Ht.
       fold n2 in Ht. rewrite Ht in H by lia. discriminate. }
  set (p := e - (n2 + 8)).
  destruct (read_uint32 m p Hbytes) as [Hn EB1]; try (subst p; lia).
  set (n := Concepts.basicCopy_read native Encoding uint32_t p m) in *.
  destruct (memory_load_split m p (n2 + 8)) as [Em Ep]; try (subst p; lia).
  assert (El : load m p (n2 + 8)
               = object_bytes Encoding uint32_t n ++ load m (p + 4) n2
                 ++ object_bytes Encoding uint32_t n2).
  { replace (n2 + 8) with (4 + (n2 + 4)) by lia.
    rewrite load_add, load_add by (subst p; lia).
    rewrite EB1, EB2. do 3 f_equal. subst p. lia. }
  rewrite El in Em. rewrite <- !app_assoc in Em.
  assert (Hcs : Forall is_byte (load m (p + 4) n2))
    by now apply load_is_byte.
  assert (Lcs : Z.of_nat (List.length (load m (p + 4) n2)) = n2)
    by (rewrite load_length; subst p; lia).
  rewrite (popBack_string_any native Encoding n n2 (load m (p + 4) n2) old
             m _ _ b e Hn Hn2 Hcs Lcs Em) in H by (subst p; lia).
  destruct (Z.eqb_spec n2 n) as [E | NE]; [ | discriminate ].
  injection H as <- <-.
  destruct (chars_decode _ Hcs) as [Echars Esize].
  rewrite Esize, Lcs. fold p.
  split; [ lia | split ].
  - f_equal. lia.
  - rewrite El. unfold string_frame. now rewrite Echars, Esize, Lcs, <- E.
Qed.
End Soundness.

(** X12.  The string reads accept nothing but a frame.  When the string
    [popFront] (resp. [popBack]) of a buffer over bytes reports success with
    the string [s], the [size + 8] bytes at the front (resp. at the back) of
    the buffer are exactly the length of [s], its characters and its length
    again, in the order [Encoding]; the read never goes beyond the buffer
    and moves the cursor over exactly these bytes. *)
Theorem string_read_sound (native Encoding : endian) (old s : string)
    (rb rb' : BasicReadBuffer.t) :
  read_buffer_ok rb ->
  (BasicReadBuffer.popFront_string native Encoding old rb = (false, s, rb') ->
   string_size s + 8 <= BasicReadBuffer.m_end rb - BasicReadBuffer.m_begin rb
   /\ rb' = BasicReadBuffer.mk (BasicReadBuffer.mem rb)
              (BasicReadBuffer.m_begin rb + (string_size s + 8))
              (BasicReadBuffer.m_end rb)
   /\ load (BasicReadBuffer.mem rb) (BasicReadBuffer.m_begin rb)
        (string_size s + 8)
      = string_frame Encoding s)
  /\ (BasicReadBuffer.popBack_string native Encoding old rb = (false, s, rb') ->
      string_size s + 8
      <= BasicReadBuffer.m_end rb - BasicReadBuffer.m_begin rb
      /\ rb' = BasicReadBuffer.mk (BasicReadBuffer.mem rb)
                 (BasicReadBuffer.m_begin rb)
                 (BasicReadBuffer.m_end rb - (string_size s + 8))
      /\ load (BasicReadBuffer.mem rb)
           (BasicReadBuffer.m_end rb - (string_size s + 8))
           (string_size s + 8)
         = string_frame Encoding s).
Proof.
  intros Hok. split; intros H.
  - now apply (popFront_string_sound native Encoding old).
  - now apply (popBack_string_sound native Encoding old).
Qed.

Lemma string_read_sound_witness :
  read_buffer_ok (BasicReadBuffer.mk [9; 0; 0; 0; 2; 104; 105; 0; 0; 0; 2] 1 11)
  /\ BasicReadBuffer.popFront_string little big "stale"
       (BasicReadBuffer.mk [9; 0; 0; 0; 2; 104; 105; 0; 0; 0; 2] 1 11)
     = (false, "hi"%string,
        BasicReadBuffer.mk [9; 0; 0; 0; 2; 104; 105; 0; 0; 0; 2] 11 11)
  /\ load [9; 0; 0; 0; 2; 104; 105; 0; 0; 0; 2] 1 (string_size "hi" + 8)
     = string_frame big "hi".
Proof.
  assert (H1 : read_buffer_ok
                 (BasicReadBuffer.mk
                    [9; 0; 0; 0; 2; 104; 105; 0; 0; 0; 2] 1 11)).
  { unfold read_buffer_ok. cbn [BasicReadBuffer.mem BasicReadBuffer.m_begin
                                BasicReadBuffer.m_end].
    split; [ lia | split; [ simpl; lia | ] ].
    repeat constructor; unfold is_byte; lia. }
  assert (H2 : BasicReadBuffer.popFront_string little big "stale"
                 (BasicReadBuffer.mk
                    [9; 0; 0; 0; 2; 104; 105; 0; 0; 0; 2] 1 11)
               = (false, "hi"%string,
                  BasicReadBuffer.mk
                    [9; 0; 0; 0; 2; 104; 105; 0; 0; 0; 2] 11 11))
    by reflexivity.
  split; [ exact H1 | split; [ exact H2 | ] ].
  exact (proj2 (proj2 (proj1 (string_read_sound little big "stale" "hi" _ _ H1)
                         H2))).
Defined.

(** ** Wide strings on fixed buffers *)

Lemma wstring_frame_framed (Encoding : endian) (wchar_t : SwapType)
    (wstr : wstring) :
  wstring_frame Encoding wchar_t wstr
  = framed Encoding wchar_t (Z.of_nat (List.length wstr)) wstr.
Proof. reflexivity. Qed.

Lemma wstring_frame_length (Encoding : endian) (wchar_t : SwapType)
    (wstr : wstring) :
  Z.of_nat (List.length (wstring_frame Encoding wchar_t wstr))
  = wstring_wire_size wchar_t wstr.
Proof.
  rewrite wstring_frame_framed, framed_length. unfold wstring_wire_size. lia.
Qed.

Lemma wstring_resize_length (wstr : wstring) (n : Z) :
  List.length (BasicReadBuffer.wstring_resize wstr n) = Z.to_nat n.
Proof.
  unfold BasicReadBuffer.wstring_resize.
  rewrite length_app, length_firstn, repeat_length. lia.
Qed.

Section WideStrings.
Variables native Encoding : endian.
Variable wchar_t : SwapType.

Lemma unsafePushBack_wstring_at (wstr : wstring) (m pre old post : list Z)
    (p e : Z) :
  Forall (in_range wchar_t) wstr ->
  m = pre ++ old ++ post ->
  p = Z.of_nat (List.length pre) ->
  Z.of_nat (List.length old) = wstring_wire_size wchar_t wstr ->
  BasicWriteBuffer.unsafePushBack_wstring native Encoding wchar_t wstr
    (BasicWriteBuffer.mk m p e)
  = BasicWriteBuffer.mk (pre ++ wstring_frame Encoding wchar_t wstr ++ post)
      (p + wstring_wire_size wchar_t wstr) e.
Proof.
  intros Hw Hm Hp Hold. unfold wstring_wire_size in *.
  unfold BasicWriteBuffer.unsafePushBack_wstring. cbv zeta.
  rewrite (write_framed native Encoding wchar_t
             (Z.of_nat (List.length wstr) mod 2 ^ 32) wstr
             m pre old post p e); auto using uint32_mod_range.
  2: { lia. }
  rewrite wstring_frame_framed. unfold framed.
  rewrite object_bytes_uint32_mod.
  f_equal. lia.
Qed.

Lemma popFront_wstring_at (wstr old : wstring) (m pre post : list Z)
    (p e : Z) :
  Forall (in_range wchar_t) wstr ->
  Z.of_nat (List.length wstr) < 2 ^ 32 ->
  m = pre ++ wstring_frame Encoding wchar_t wstr ++ post ->
  p = Z.of_nat (List.length pre) ->
  p + wstring_wire_size wchar_t wstr <= e ->
  BasicReadBuffer.popFront_wstring native Encoding wchar_t old
    (BasicReadBuffer.mk m p e)
  = (false, wstr,
     BasicReadBuffer.mk m (p + wstring_wire_size wchar_t wstr) e).
Proof.
  intros Hw Hsize Hm Hp He. unfold wstring_wire_size in *.
  pose proof (sizeof_pos wchar_t) as Hs.
  set (n := Z.of_nat (List.length wstr)) in *.
  assert (Hn : in_range uint32_t n) by (apply uint32_range; lia).
  unfold wstring_frame in Hm. fold n in Hm. rewrite <- !app_assoc in Hm.
  set (B := object_bytes Encoding uint32_t n) in *.
  assert (LB : List.length B = 4%nat)
    by (subst B; now rewrite object_bytes_length).
  pose proof (span_bytes_length Encoding wchar_t wstr) as LS. fold n in LS.
  unfold BasicReadBuffer.popFront_wstring.
  cbn [BasicReadBuffer.m_begin BasicReadBuffer.m_end].
  destruct (Z.leb_spec (p + 8) e); [ | nia ].
  rewrite (unsafePopFront_at native Encoding uint32_t n m pre
             (span_bytes Encoding wchar_t wstr ++ B ++ post) p e) by auto.
  cbn [BasicReadBuffer.m_begin BasicReadBuffer.m_end].
  change (sizeof uint32_t) with 4.
  destruct (Z.leb_spec (p + 4 + n * sizeof wchar_t + 4) e); [ | lia ].
  pose proof (wstring_resize_length old n) as Lr.
  destruct (BasicReadBuffer.wstring_resize old n) as [| x r] eqn:Er.
  - assert (Ew : wstr = [])
      by (destruct wstr; [ reflexivity | cbn in Lr; subst n; cbn in *; lia ]).
    subst wstr. cbn [span_bytes map List.concat app] in Hm.
    rewrite (unsafePopFront_at native Encoding uint32_t n m (pre ++ B)
               post (p + 4) e); auto.
    2: { now rewrite <- app_assoc. }
    2: { rewrite length_app. lia. }
    rewrite Z.eqb_refl. f_equal.
    change (sizeof uint32_t) with 4. f_equal. subst n. cbn. lia.
  - rewrite (unsafePopFront_span_at native Encoding wchar_t wstr
               (Z.to_nat n) m (pre ++ B) (B ++ post) (p + 4) e); auto.
    2: { now rewrite <- !app_assoc. }
    2: { rewrite length_app. lia. }
    2: { subst n. lia. }
    rewrite (unsafePopFront_at native Encoding uint32_t n m
               ((pre ++ B) ++ span_bytes Encoding wchar_t wstr) post); auto.
    2: { now rewrite <- !app_assoc. }
    2: { rewrite !length_app. lia. }
    rewrite Z.eqb_refl. f_equal. f_equal.
    change (sizeof uint32_t) with 4. lia.
Qed.

Lemma popBack_wstring_at (wstr old : wstring) (m pre post : list Z)
    (b e : Z) :
  Forall (in_range wchar_t) wstr ->
  Z.of_nat (List.length wstr) < 2 ^ 32 ->
  m = pre ++ wstring_frame Encoding wchar_t wstr ++ post ->
  b <= Z.of_nat (List.length pre) ->
  e = Z.of_nat (List.length pre) + wstring_wire_size wchar_t wstr ->
  BasicReadBuffer.popBack_wstring native Encoding wchar_t old
    (BasicReadBuffer.mk m b e)
  = (false, wstr, BasicReadBuffer.mk m b (Z.of_nat (List.length pre))).
Proof.
  intros Hw Hsize Hm Hb He. unfold wstring_wire_size in *.
  pose proof (sizeof_pos wchar_t) as Hs.
  set (n := Z.of_nat (List.length wstr)) in *.
  assert (Hn : in_range uint32_t n) by (apply uint32_range; lia).
  unfold wstring_frame in Hm. fold n in Hm. rewrite <- !app_assoc in Hm.
  set (B := object_bytes Encoding uint32_t n) in *.
  assert (LB : List.length B = 4%nat)
    by (subst B; now rewrite object_bytes_length).
  pose proof (span_bytes_length Encoding wchar_t wstr) as LS. fold n in LS.
  unfold BasicReadBuffer.popBack_wstring.
  cbn [BasicReadBuffer.m_begin BasicReadBuffer.m_end].
  destruct (Z.leb_spec (b + 8) e); [ | nia ].
  rewrite (unsafePopBack_at native Encoding uint32_t n m
             (pre ++ B ++ span_bytes Encoding wchar_t wstr) post b e); auto.
  2: { now rewrite <- !app_assoc. }
  2: { rewrite !length_app. change (sizeof uint32_t) with 4. lia. }
  cbn [BasicReadBuffer.m_begin BasicReadBuffer.m_end].
  change (sizeof uint32_t) with 4.
  destruct (Z.leb_spec (b + n * sizeof wchar_t + 4) (e - 4)); [ | lia ].
  pose proof (wstring_resize_length old n) as Lr.
  destruct (BasicReadBuffer.wstring_resize old n) as [| x r] eqn:Er.
  - assert (Ew : wstr = [])
      by (destruct wstr; [ reflexivity | cbn in Lr; subst n; cbn in *; lia ]).
    subst wstr. cbn [span_bytes map List.concat app] in Hm.
    rewrite (unsafePopBack_at native Encoding uint32_t n m pre
               (B ++ post) b (e - 4)); auto.
    2: { change (sizeof uint32_t) with 4. subst n. cbn in *. lia. }
    rewrite Z.eqb_refl. f_equal.
    change (sizeof uint32_t) with 4. f_equal. subst n. cbn in *. lia.
  - rewrite (unsafePopBack_span_at native Encoding wchar_t wstr
               (Z.to_nat n) m (pre ++ B) (B ++ post) b (e - 4)); auto.
    2: { now rewrite <- !app_assoc. }
    2: { rewrite length_app. lia. }
    2: { subst n. lia. }
    rewrite (unsafePopBack_at native Encoding uint32_t n m pre
               (span_bytes Encoding wchar_t wstr ++ B ++ post)); auto.
    2: { change (sizeof uint32_t) with 4. lia. }
    rewrite Z.eqb_refl. f_equal. f_equal.
    change (sizeof uint32_t) with 4. lia.
Qed.
End WideStrings.

(** X13.  When the bytes remaining are at least the size the wide-string
    format really takes, [4 + size * sizeof(wchar_t) + 4], the wide-string
    [pushBack] succeeds for a [wchar_t] of two bytes or more and writes the
    length, the characters in the order [Encoding] and the length again; the
    wide-string [popFront] and [popBack] then return the string unchanged,
    on a reader of either native order with the same [wchar_t], and move
    over exactly the bytes written. *)
Theorem wstring_round_trip (writer reader Encoding : endian)
    (wchar_t : SwapType) (wstr old : wstring) (wb : BasicWriteBuffer.t) :
  write_buffer_ok wb ->
  Forall (in_range wchar_t) wstr ->
  Z.of_nat (List.length wstr) < 2 ^ 32 ->
  2 <= sizeof wchar_t ->
  wstring_wire_size wchar_t wstr
  <= BasicWriteBuffer.m_end wb - BasicWriteBuffer.m_begin wb ->
  let b := BasicWriteBuffer.m_begin wb in
  let r := BasicWriteBuffer.pushBack_wstring writer Encoding wchar_t wstr wb in
  let m := BasicWriteBuffer.mem (snd r) in
  let c := BasicWriteBuffer.m_begin (snd r) in
  fst r = false
  /\ c = b + wstring_wire_size wchar_t wstr
  /\ m = firstn (Z.to_nat b) (BasicWriteBuffer.mem wb)
         ++ wstring_frame Encoding wchar_t wstr
         ++ skipn (Z.to_nat c) (BasicWriteBuffer.mem wb)
  /\ BasicReadBuffer.popFront_wstring reader Encoding wchar_t old
       (BasicReadBuffer.mk m b (BasicWriteBuffer.m_end wb))
     = (false, wstr, BasicReadBuffer.mk m c (BasicWriteBuffer.m_end wb))
  /\ BasicReadBuffer.popBack_wstring reader Encoding wchar_t old
       (BasicReadBuffer.mk m b c)
     = (false, wstr, BasicReadBuffer.mk m b b).
Proof.
  intros Hok Hw Hsize Hwide Hfit b r m c. subst c m r.
  assert (Hpos : 0 <= wstring_wire_size wchar_t wstr)
    by (unfold wstring_wire_size; nia).
  destruct (memory_at_cursor wb (wstring_wire_size wchar_t wstr) Hok)
    as (pre & old' & post & Em & Ep & Eold & Epre & Epost); try lia.
  unfold BasicWriteBuffer.pushBack_wstring,
    BasicWriteBuffer.calculateSerializedSize_wstring.
  destruct (Z.leb_spec
              (BasicWriteBuffer.m_begin wb
               + (Z.of_nat (List.length wstr) * 2 + 8))
              (BasicWriteBuffer.m_end wb));
    [ | unfold wstring_wire_size in *; nia ].
  destruct wb as [m p e].
  cbn [BasicWriteBuffer.mem BasicWriteBuffer.m_begin BasicWriteBuffer.m_end]
    in *.
  subst b.
  rewrite (unsafePushBack_wstring_at writer Encoding wchar_t wstr m pre old'
             post p e); auto.
  cbn [fst snd BasicWriteBuffer.mem BasicWriteBuffer.m_begin].
  rewrite <- Epre, <- Epost.
  split; [ reflexivity | split; [ reflexivity | split; [ reflexivity | ] ] ].
  split.
  - apply (popFront_wstring_at reader Encoding wchar_t wstr old _ pre post);
      auto. lia.
  - rewrite (popBack_wstring_at reader Encoding wchar_t wstr old _ pre post p
               (p + wstring_wire_size wchar_t wstr)); auto; try lia.
    now rewrite Ep.
Qed.

Lemma wstring_round_trip_witness :
  write_buffer_ok (BasicWriteBuffer.mk (repeat 0 12) 0 12)
  /\ Forall (in_range wchar32) [97]
  /\ BasicReadBuffer.popFront_wstring big little wchar32 [1; 2; 3]
       (BasicReadBuffer.mk [1; 0; 0; 0; 97; 0; 0; 0; 1; 0; 0; 0] 0 12)
     = (false, [97],
        BasicReadBuffer.mk [1; 0; 0; 0; 97; 0; 0; 0; 1; 0; 0; 0] 12 12).
Proof.
  assert (H1 : write_buffer_ok (BasicWriteBuffer.mk (repeat 0 12) 0 12))
    by (unfold write_buffer_ok; simpl; lia).
  assert (H2 : Forall (in_range wchar32) [97])
    by (repeat constructor; unfold in_range; simpl; lia).
  split; [ exact H1 | split; [ exact H2 | ] ].
  refine (proj1 (proj2 (proj2 (proj2
     (wstring_round_trip little big little wchar32 [97] [1; 2; 3]
        (BasicWriteBuffer.mk (repeat 0 12) 0 12) H1 H2 _ _ _))))).
  - reflexivity.
  - vm_compute. discriminate.
  - vm_compute. discriminate.
Defined.

(** ** Growable buffer: strings *)

Lemma reserveExtra_grows (extraSize : Z) (v : BasicVector.t) :
  vector_ok v ->
  0 <= extraSize ->
  BasicVector.m_size (BasicVector.reserveExtra extraSize v)
  = BasicVector.m_size v
  /\ exists zs,
       BasicVector.m_data (BasicVector.reserveExtra extraSize v)
       = BasicVector.m_data v ++ zs
       /\ BasicVector.m_size v + extraSize
          <= Z.of_nat (List.length (BasicVector.m_data v ++ zs))
       /\ Z.of_nat (List.length (BasicVector.m_data v ++ zs))
          = Z.max (Z.of_nat (List.length (BasicVector.m_data v)))
              (BasicVector.m_size v + extraSize).
Proof.
  intros [Hs Hl] He. unfold BasicVector.reserveExtra.
  destruct (Z.ltb_spec (Z.of_nat (List.length (BasicVector.m_data v)))
              (BasicVector.m_size v + extraSize)) as [Hlt | Hge].
  - assert (E : forall v', BasicVector.m_data v' = BasicVector.m_data v ->
                BasicVector.m_size v' = BasicVector.m_size v ->
                BasicVector.m_size
                  (BasicVector.vector_resize
                     (BasicVector.m_size v + extraSize) v')
                = BasicVector.m_size v
                /\ BasicVector.m_data
                     (BasicVector.vector_resize
                        (BasicVector.m_size v + extraSize) v')
                   = BasicVector.m_data v
                     ++ repeat 0
                          (Z.to_nat (BasicVector.m_size v + extraSize)
                           - List.length (BasicVector.m_data v))).
    { intros v' Ed Es. unfold BasicVector.vector_resize.
      cbn [BasicVector.m_size BasicVector.m_data]. rewrite Ed, Es.
      split; [ reflexivity | ]. f_equal. apply firstn_all2. lia. }
    assert (E' : BasicVector.m_size
                   (BasicVector.vector_resize
                      (BasicVector.m_size v + extraSize)
                      (if 1024 <? extraSize
                       then BasicVector.vector_reserve
                              (BasicVector.m_size v + extraSize
                               + (BasicVector.m_size v + extraSize) / 2) v
                       else v))
                 = BasicVector.m_size v
                 /\ BasicVector.m_data
                      (BasicVector.vector_resize
                         (BasicVector.m_size v + extraSize)
                         (if 1024 <? extraSize
                          then BasicVector.vector_reserve
                                 (BasicVector.m_size v + extraSize
                                  + (BasicVector.m_size v + extraSize) / 2) v
                          else v))
                    = BasicVector.m_data v
                      ++ repeat 0
                           (Z.to_nat (BasicVector.m_size v + extraSize)
                            - List.length (BasicVector.m_data v)))
      by (apply E; destruct (1024 <? extraSize); reflexivity).
    destruct E' as [E1 E2]. split; [ exact E1 | ].
    eexists. split; [ exact E2 | ].
    rewrite length_app, repeat_length. lia.
  - split; [ reflexivity | ]. exists [].
    rewrite app_nil_r. split; [ reflexivity | lia ].
Qed.

Lemma expandBy_grows (length : Z) (v : BasicVector.t) :
  vector_ok v ->
  0 <= length ->
  BasicVector.m_size (BasicVector.expandBy length v)
  = BasicVector.m_size v + length
  /\ exists zs,
       BasicVector.m_data (BasicVector.expandBy length v)
       = BasicVector.m_data v ++ zs
       /\ BasicVector.m_size v + length
          <= Z.of_nat (List.length (BasicVector.m_data v ++ zs))
       /\ Z.of_nat (List.length (BasicVector.m_data v ++ zs))
          = Z.max (Z.of_nat (List.length (BasicVector.m_data v)))
              (BasicVector.m_size v + length).
Proof.
  intros Hok Hl.
  destruct (reserveExtra_grows length v Hok Hl) as (E1 & zs & E2 & H1 & H2).
  unfold BasicVector.expandBy.
  cbn [BasicVector.m_size BasicVector.m_data]. rewrite E1.
  split; [ reflexivity | ]. now exists zs.
Qed.

Lemma firstn_app_exact {A : Type} (n : nat) (l1 l2 : list A) :
  n = List.length l1 -> firstn n (l1 ++ l2) = l1.
Proof.
  intros ->. rewrite firstn_app, firstn_all, Nat.sub_diag. cbn [firstn].
  apply app_nil_r.
Qed.

(** The storage of a grown vector, split at the old logical size. *)
Lemma grown_storage (v : BasicVector.t) (zs : list Z) (n : Z) :
  vector_ok v ->
  0 <= n ->
  BasicVector.m_size v + n
  <= Z.of_nat (List.length (BasicVector.m_data v ++ zs)) ->
  exists old post,
    BasicVector.m_data v ++ zs = BasicVector.contents v ++ old ++ post
    /\ BasicVector.m_size v = Z.of_nat (List.length (BasicVector.contents v))
    /\ Z.of_nat (List.length old) = n.
Proof.
  intros [Hs Hl] Hn Hfit.
  destruct (memory_split (BasicVector.m_data v ++ zs) (BasicVector.m_size v) n)
    as (pre & old & post & Em & Ep & Eold & Epre & Epost); try lia.
  exists old, post.
  assert (E : pre = BasicVector.contents v).
  { rewrite Epre. unfold BasicVector.contents, BasicVector.size.
    rewrite firstn_app.
    replace (Z.to_nat (BasicVector.m_size v)
             - List.length (BasicVector.m_data v))%nat with 0%nat by lia.
    cbn [firstn]. apply app_nil_r. }
  rewrite <- E. split; [ exact Em | split; [ exact Ep | lia ] ].
Qed.

Section VectorStrings.
Variables native Encoding : endian.

Lemma BasicVector_pushBack_string_data (str : string) (v : BasicVector.t) :
  vector_ok v ->
  exists post,
    BasicVector.m_data (BasicVector.pushBack_string native Encoding str v)
    = BasicVector.contents v ++ string_frame Encoding str ++ post
    /\ BasicVector.m_size (BasicVector.pushBack_string native Encoding str v)
       = BasicVector.m_size v + (string_size str + 8)
    /\ Z.of_nat (List.length
                   (BasicVector.contents v ++ string_frame Encoding str
                    ++ post))
       = Z.max (Z.of_nat (List.length (BasicVector.m_data v)))
           (BasicVector.m_size v + (string_size str + 8)).
Proof.
  intros Hok.
  assert (Hn : 0 <= string_size str + 8) by (unfold string_size; lia).
  unfold BasicVector.pushBack_string, BasicVector.calculateStringSize.
  cbv zeta.
  replace (4 + string_size str + 4) with (string_size str + 8) by lia.
  destruct (expandBy_grows (string_size str + 8) v Hok Hn)
    as (E1 & zs & E2 & H1 & H2).
  destruct (grown_storage v zs (string_size str + 8) Hok Hn H1)
    as (old & post & Em & Ep & Eold).
  cbn [BasicVector.m_size BasicVector.m_data BasicVector.m_capacity].
  rewrite E1, E2. unfold BasicVector.size at 1 2.
  set (buffer := BasicWriteBuffer.mk _ _ _).
  assert (Ew : BasicWriteBuffer.unsafePushBack native Encoding uint32_t
                 (string_size str mod 2 ^ 32)
                 (if negb (string_empty str)
                  then BasicWriteBuffer.unsafePushBack_span native Encoding
                         char (string_chars str)
                         (BasicWriteBuffer.unsafePushBack native Encoding
                            uint32_t (string_size str mod 2 ^ 32) buffer)
                  else BasicWriteBuffer.unsafePushBack native Encoding
                         uint32_t (string_size str mod 2 ^ 32) buffer)
               = BasicWriteBuffer.unsafePushBack_string native Encoding str
                   buffer).
  { unfold BasicWriteBuffer.unsafePushBack_string. cbv zeta.
    destruct str as [| c str]; cbn [string_empty negb]; [ | reflexivity ].
    cbn [string_chars list_ascii_of_string map].
    rewrite unsafePushBack_span_nil; [ reflexivity | ].
    cbn [BasicWriteBuffer.unsafePushBack BasicWriteBuffer.m_begin].
    subst buffer. cbn [BasicWriteBuffer.m_begin].
    destruct Hok as [Hs _]. change (sizeof uint32_t) with 4. lia. }
  rewrite Ew. subst buffer.
  rewrite (unsafePushBack_string_at native Encoding str _
             (BasicVector.contents v) old post _ _ Em Ep Eold).
  cbn [BasicWriteBuffer.mem].
  exists post. split; [ reflexivity | split; [ reflexivity | ] ].
  rewrite <- H2, Em, !length_app.
  pose proof (string_frame_length Encoding str). lia.
Qed.
End VectorStrings.

(** X14.  The string [pushBack] of the growable buffer appends to its
    contents the length of the string, its characters and the length again,
    in the order [Encoding], whatever the storage held before; the string
    [popBack] then returns the string, on a reader of either native order,
    and restores the logical size and the contents. *)
Theorem vector_string_round_trip (writer reader Encoding : endian)
    (str old : string) (v : BasicVector.t) :
  vector_ok v ->
  string_size str < 2 ^ 32 ->
  BasicVector.m_size v + string_size str + 8 < 2 ^ 64 ->
  let v' := BasicVector.pushBack_string writer Encoding str v in
  BasicVector.size v' = BasicVector.size v + string_size str + 8
  /\ BasicVector.contents v'
     = BasicVector.contents v ++ string_frame Encoding str
  /\ vector_ok v'
  /\ exists v'',
       BasicVector.popBack_string reader Encoding old v' = (false, str, v'')
       /\ BasicVector.size v'' = BasicVector.size v
       /\ BasicVector.contents v'' = BasicVector.contents v.
Proof.
  intros Hok Hsize Hmax v'.
  destruct (BasicVector_pushBack_string_data writer Encoding str v Hok)
    as (post & Ed & Es & El).
  fold v' in Ed, Es.
  pose proof (string_frame_length Encoding str) as Hfl.
  assert (Hc : Z.of_nat (List.length (BasicVector.contents v))
               = BasicVector.m_size v).
  { unfold BasicVector.contents, BasicVector.size.
    rewrite length_firstn. destruct Hok. lia. }
  assert (Hn : 0 <= string_size str) by (unfold string_size; lia).
  assert (Ec' : BasicVector.contents v'
                = BasicVector.contents v ++ string_frame Encoding str).
  { unfold BasicVector.contents at 1, BasicVector.size. rewrite Ed, Es.
    rewrite app_assoc. apply firstn_app_exact. rewrite length_app. lia. }
  split; [ unfold BasicVector.size; lia | split; [ exact Ec' | split ] ].
  - unfold vector_ok. rewrite Es, Ed, El.
    destruct Hok as [Hs Hl]. lia.
  - unfold BasicVector.popBack_string.
    rewrite (popBack_string_at reader Encoding str old
               (BasicVector.m_data v') (BasicVector.contents v) post 0
               (BasicVector.size v')); auto; try lia.
    2: { unfold BasicVector.size. lia. }
    cbn [negb]. eexists. split; [ reflexivity | ].
    unfold BasicReadBuffer.size.
    cbn [BasicReadBuffer.m_begin BasicReadBuffer.m_end].
    rewrite Z.sub_0_r, Hc, Z.mod_small by (destruct Hok; lia).
    split; [ reflexivity | ].
    unfold BasicVector.contents at 1, BasicVector.size at 1.
    cbn [BasicVector.m_size BasicVector.m_data]. rewrite Ed.
    apply firstn_app_exact. lia.
Qed.

Lemma vector_string_round_trip_witness :
  vector_ok (BasicVector.mk 1 [7; 8; 9] 3)
  /\ BasicVector.contents
       (BasicVector.pushBack_string big little "hi"
          (BasicVector.mk 1 [7; 8; 9] 3))
     = [7; 2; 0; 0; 0; 104; 105; 2; 0; 0; 0].
Proof.
  assert (H1 : vector_ok (BasicVector.mk 1 [7; 8; 9] 3))
    by (unfold vector_ok; simpl; lia).
  split; [ exact H1 | ].
  refine (proj1 (proj2 (vector_string_round_trip big little little "hi" "x"
                          (BasicVector.mk 1 [7; 8; 9] 3) H1 _ _))).
  - reflexivity.
  - reflexivity.
Defined.

(** ** Growable buffer: wide strings *)

Section VectorWideStrings.
Variables native Encoding : endian.
Variable wchar_t : SwapType.

Lemma BasicVector_pushBack_wstring_data (wstr : wstring)
    (v : BasicVector.t) :
  vector_ok v ->
  Forall (in_range wchar_t) wstr ->
  exists post,
    BasicVector.m_data
      (BasicVector.pushBack_wstring native Encoding wchar_t wstr v)
    = BasicVector.contents v ++ wstring_frame Encoding wchar_t wstr ++ post
    /\ BasicVector.m_size
         (BasicVector.pushBack_wstring native Encoding wchar_t wstr v)
       = BasicVector.m_size v + wstring_wire_size wchar_t wstr
    /\ Z.of_nat (List.length
                   (BasicVector.contents v
                    ++ wstring_frame Encoding wchar_t wstr ++ post))
       = Z.max (Z.of_nat (List.length (BasicVector.m_data v)))
           (BasicVector.m_size v + wstring_wire_size wchar_t wstr).
Proof.
  intros Hok Hw. pose proof (sizeof_pos wchar_t) as Hs.
  assert (Hn : 0 <= wstring_wire_size wchar_t wstr)
    by (unfold wstring_wire_size; nia).
  unfold BasicVector.pushBack_wstring, BasicVector.calculateWideStringSize.
  cbv zeta. fold (wstring_wire_size wchar_t wstr).
  destruct (expandBy_grows (wstring_wire_size wchar_t wstr) v Hok Hn)
    as (E1 & zs & E2 & H1 & H2).
  destruct (grown_storage v zs (wstring_wire_size wchar_t wstr) Hok Hn H1)
    as (old & post & Em & Ep & Eold).
  cbn [BasicVector.m_size BasicVector.m_data BasicVector.m_capacity].
  rewrite E1, E2. unfold BasicVector.size at 1 2.
  set (buffer := BasicWriteBuffer.mk _ _ _).
  assert (Ew : BasicWriteBuffer.unsafePushBack native Encoding uint32_t
                 (Z.of_nat (List.length wstr) mod 2 ^ 32)
                 match wstr with
                 | [] =>
                     BasicWriteBuffer.unsafePushBack native Encoding
                       uint32_t (Z.of_nat (List.length wstr) mod 2 ^ 32)
                       buffer
                 | _ :: _ =>
                     BasicWriteBuffer.unsafePushBack_span native Encoding
                       wchar_t wstr
                       (BasicWriteBuffer.unsafePushBack native Encoding
                          uint32_t (Z.of_nat (List.length wstr) mod 2 ^ 32)
                          buffer)
                 end
               = BasicWriteBuffer.unsafePushBack_wstring native Encoding
                   wchar_t wstr buffer).
  { unfold BasicWriteBuffer.unsafePushBack_wstring. cbv zeta.
    destruct wstr as [| c wstr]; [ | reflexivity ].
    rewrite unsafePushBack_span_nil; [ reflexivity | ].
    cbn [BasicWriteBuffer.unsafePushBack BasicWriteBuffer.m_begin].
    subst buffer. cbn [BasicWriteBuffer.m_begin].
    destruct Hok as [Hs' _]. change (sizeof uint32_t) with 4. lia. }
  rewrite Ew. subst buffer.
  rewrite (unsafePushBack_wstring_at native Encoding wchar_t wstr _
             (BasicVector.contents v) old post _ _ Hw Em Ep Eold).
  cbn [BasicWriteBuffer.mem].
  exists post. split; [ reflexivity | split; [ reflexivity | ] ].
  rewrite <- H2, Em, !length_app.
  pose proof (wstring_frame_length Encoding wchar_t wstr). lia.
Qed.
End VectorWideStrings.

(** X15.  The wide-string [pushBack] of the growable buffer sizes the record
    with [sizeof(wchar_t)]: it appends to the contents the length, the
    characters in the order [Encoding] and the length again,
    [4 + size * sizeof(wchar_t) + 4] bytes in all, for every width of
    [wchar_t]; the wide-string [popBack] then returns the string and restores
    the logical size and the contents. *)
Theorem vector_wstring_round_trip (writer reader Encoding : endian)
    (wchar_t : SwapType) (wstr old : wstring) (v : BasicVector.t) :
  vector_ok v ->
  Forall (in_range wchar_t) wstr ->
  Z.of_nat (List.length wstr) < 2 ^ 32 ->
  BasicVector.m_size v + wstring_wire_size wchar_t wstr < 2 ^ 64 ->
  let v' := BasicVector.pushBack_wstring writer Encoding wchar_t wstr v in
  BasicVector.size v' = BasicVector.size v + wstring_wire_size wchar_t wstr
  /\ BasicVector.contents v'
     = BasicVector.contents v ++ wstring_frame Encoding wchar_t wstr
  /\ vector_ok v'
  /\ exists v'',
       BasicVector.popBack_wstring reader Encoding wchar_t old v'
       = (false, wstr, v'')
       /\ BasicVector.size v'' = BasicVector.size v
       /\ BasicVector.contents v'' = BasicVector.contents v.
Proof.
  intros Hok Hw Hsize Hmax v'.
  destruct (BasicVector_pushBack_wstring_data writer Encoding wchar_t wstr v
              Hok Hw) as (post & Ed & Es & El).
  fold v' in Ed, Es.
  pose proof (wstring_frame_length Encoding wchar_t wstr) as Hfl.
  pose proof (sizeof_pos wchar_t) as Hsz.
  assert (Hc : Z.of_nat (List.length (BasicVector.contents v))
               = BasicVector.m_size v).
  { unfold BasicVector.contents, BasicVector.size.
    rewrite length_firstn. destruct Hok. lia. }
  assert (Hn : 0 <= wstring_wire_size wchar_t wstr)
    by (unfold wstring_wire_size; nia).
  assert (Ec' : BasicVector.contents v'
                = BasicVector.contents v ++ wstring_frame Encoding wchar_t wstr).
  { unfold BasicVector.contents at 1, BasicVector.size. rewrite Ed, Es.
    rewrite app_assoc. apply firstn_app_exact. rewrite length_app. lia. }
  split; [ unfold BasicVector.size; lia | split; [ exact Ec' | split ] ].
  - unfold vector_ok. rewrite Es, Ed, El.
    destruct Hok as [Hs Hl]. lia.
  - unfold BasicVector.popBack_wstring.
    rewrite (popBack_wstring_at reader Encoding wchar_t wstr old
               (BasicVector.m_data v') (BasicVector.contents v) post 0
               (BasicVector.size v')); auto; try lia.
    2: { unfold BasicVector.size. lia. }
    cbn [negb]. eexists. split; [ reflexivity | ].
    unfold BasicReadBuffer.size.
    cbn [BasicReadBuffer.m_begin BasicReadBuffer.m_end].
    rewrite Z.sub_0_r, Hc, Z.mod_small by (destruct Hok; lia).
    split; [ reflexivity | ].
    unfold BasicVector.contents at 1, BasicVector.size at 1.
    cbn [BasicVector.m_size BasicVector.m_data]. rewrite Ed.
    apply firstn_app_exact. lia.
Qed.

Lemma vector_wstring_round_trip_witness :
  vector_ok (BasicVector.mk 0 [] 0)
  /\ Forall (in_range wchar32) [97]
  /\ BasicVector.contents
       (BasicVector.pushBack_wstring big little wchar32 [97]
          (BasicVector.mk 0 [] 0))
     = [1; 0; 0; 0; 97; 0; 0; 0; 1; 0; 0; 0].
Proof.
  assert (H1 : vector_ok (BasicVector.mk 0 [] 0))
    by (unfold vector_ok; simpl; lia).
  assert (H2 : Forall (in_range wchar32) [97])
    by (repeat constructor; unfold in_range; simpl; lia).
  split; [ exact H1 | split; [ exact H2 | ] ].
  refine (proj1 (proj2 (vector_wstring_round_trip big little little wchar32
                          [97] [] (BasicVector.mk 0 [] 0) H1 H2 _ _))).
  - reflexivity.
  - reflexivity.
Defined.

(** ** Growable buffer: raw bytes, spans and sizes *)

Lemma contents_length (v : BasicVector.t) :
  vector_ok v ->
  Z.of_nat (List.length (BasicVector.contents v)) = BasicVector.m_size v.
Proof.
  intros [Hs Hl]. unfold BasicVector.contents, BasicVector.size.
  rewrite length_firstn. lia.
Qed.

Lemma storage_contents (v : BasicVector.t) :
  BasicVector.m_data v
  = BasicVector.contents v
    ++ skipn (Z.to_nat (BasicVector.m_size v)) (BasicVector.m_data v).
Proof.
  unfold BasicVector.contents, BasicVector.size.
  now rewrite firstn_skipn.
Qed.

(** X16.  [pushBackRaw] appends the bytes of the object as they are, and
    [popBackRaw] for an object of the same size returns these bytes and
    restores the logical size and the contents; [popBackRaw] fails, changing
    nothing, when the buffer holds fewer bytes than the object has. *)
Theorem vector_raw_round_trip (value old : list Z) (v : BasicVector.t) :
  vector_ok v ->
  BasicVector.m_size v + Z.of_nat (List.length value) < 2 ^ 64 ->
  let n := Z.of_nat (List.length value) in
  let v' := BasicVector.pushBackRaw value v in
  BasicVector.size v' = BasicVector.size v + n
  /\ BasicVector.contents v' = BasicVector.contents v ++ value
  /\ vector_ok v'
  /\ (exists v'',
        BasicVector.popBackRaw n old v' = (false, value, v'')
        /\ BasicVector.size v'' = BasicVector.size v
        /\ BasicVector.contents v'' = BasicVector.contents v)
  /\ (forall k, BasicVector.size v' < k ->
        BasicVector.popBackRaw k old v' = (true, old, v')).
Proof.
  intros Hok Hmax n v'.
  assert (Hn : 0 <= n) by (subst n; lia).
  pose proof (contents_length v Hok) as Hc.
  destruct (expandBy_grows n v Hok Hn) as (E1 & zs & E2 & H1 & H2).
  destruct (grown_storage v zs n Hok Hn H1) as (old' & post & Em & Ep & Eold).
  assert (Ed : BasicVector.m_data v' = BasicVector.contents v ++ value ++ post).
  { subst v'. unfold BasicVector.pushBackRaw. cbv zeta.
    cbn [BasicVector.m_data]. fold n. rewrite E2, Em.
    apply memcpy_app; [ exact Ep | subst n; lia ]. }
  assert (Es : BasicVector.m_size v' = BasicVector.m_size v + n).
  { subst v'. unfold BasicVector.pushBackRaw. cbv zeta.
    cbn [BasicVector.m_size]. fold n. exact E1. }
  assert (El : Z.of_nat (List.length (BasicVector.m_data v'))
               = Z.max (Z.of_nat (List.length (BasicVector.m_data v)))
                   (BasicVector.m_size v + n)).
  { rewrite Ed, <- H2, Em, !length_app. lia. }
  assert (Ec : BasicVector.contents v' = BasicVector.contents v ++ value).
  { unfold BasicVector.contents at 1, BasicVector.size. rewrite Ed, Es.
    rewrite app_assoc. apply firstn_app_exact. rewrite length_app.
    subst n. lia. }
  split; [ exact Es | split; [ exact Ec | split; [ | split ] ] ].
  - unfold vector_ok. rewrite Es, El. destruct Hok. lia.
  - unfold BasicVector.popBackRaw. rewrite Es.
    destruct (Z.leb_spec n (BasicVector.m_size v + n)); [ | lia ].
    eexists. split.
    + f_equal. f_equal. unfold BasicVector.size.
      cbn [BasicVector.m_size BasicVector.m_data]. rewrite Ed.
      apply load_app; [ lia | reflexivity ].
    + unfold BasicVector.contents, BasicVector.size.
      cbn [BasicVector.m_size BasicVector.m_data].
      replace (BasicVector.m_size v + n - n) with (BasicVector.m_size v)
        by lia.
      split; [ reflexivity | ].
      rewrite Ed. fold (BasicVector.size v). fold (BasicVector.contents v).
      apply firstn_app_exact. unfold BasicVector.size. lia.
  - intros k Hk. unfold BasicVector.popBackRaw.
    destruct (Z.leb_spec k (BasicVector.m_size v'));
      [ unfold BasicVector.size in Hk; lia | reflexivity ].
Qed.

Lemma vector_raw_round_trip_witness :
  vector_ok (BasicVector.mk 1 [7; 8] 2)
  /\ BasicVector.contents (BasicVector.pushBackRaw [1; 2; 3]
                             (BasicVector.mk 1 [7; 8] 2))
     = [7; 1; 2; 3].
Proof.
  assert (H1 : vector_ok (BasicVector.mk 1 [7; 8] 2))
    by (unfold vector_ok; simpl; lia).
  split; [ exact H1 | ].
  refine (proj1 (proj2 (vector_raw_round_trip [1; 2; 3] []
                          (BasicVector.mk 1 [7; 8] 2) H1 _))).
  reflexivity.
Defined.

(** X17.  The span [popBack] of the growable buffer removes
    [sizeof(T) * size] bytes from the end and decodes them front to back:
    when the contents end with the encodings of [vs], in this order, it
    returns [vs] in the same order and leaves the rest of the contents; it
    fails, changing nothing, when the buffer holds fewer bytes. *)
Theorem vector_popBack_span_order (native Encoding : endian) (T : SwapType)
    (vs olds rest : list Z) (v : BasicVector.t) :
  vector_ok v ->
  Forall (in_range T) vs ->
  List.length olds = List.length vs ->
  BasicVector.contents v = rest ++ span_bytes Encoding T vs ->
  let n := sizeof T * Z.of_nat (List.length vs) in
  let v' := BasicVector.mk (BasicVector.m_size v - n) (BasicVector.m_data v)
              (BasicVector.m_capacity v) in
  BasicVector.popBack_span native Encoding T olds v = (false, vs, v')
  /\ BasicVector.contents v' = rest
  /\ (forall olds', BasicVector.size v
                    < sizeof T * Z.of_nat (List.length olds') ->
        BasicVector.popBack_span native Encoding T olds' v = (true, olds', v)).
Proof.
  intros Hok Hvs Holds Hc n v'.
  pose proof (contents_length v Hok) as Hl.
  pose proof (span_bytes_length Encoding T vs) as Hsl.
  pose proof (sizeof_pos T) as Hs.
  rewrite Hc, length_app in Hl.
  assert (Hrest : Z.of_nat (List.length rest) = BasicVector.m_size v - n)
    by (subst n; lia).
  assert (Ed : BasicVector.m_data v
               = rest ++ span_bytes Encoding T vs
                 ++ skipn (Z.to_nat (BasicVector.m_size v))
                      (BasicVector.m_data v)).
  { rewrite (storage_contents v) at 1. rewrite Hc. now rewrite <- app_assoc. }
  split; [ | split ].
  - unfold BasicVector.popBack_span. rewrite Holds. fold n.
    destruct (Z.leb_spec n (BasicVector.m_size v)); [ | lia ].
    cbn [BasicVector.m_size BasicVector.m_data BasicVector.size].
    unfold BasicVector.size. cbn [BasicVector.m_size].
    rewrite (unsafePopFront_span_at native Encoding T vs (List.length vs)
               (BasicVector.m_data v) rest
               (skipn (Z.to_nat (BasicVector.m_size v))
                  (BasicVector.m_data v))); auto.
  - subst v'. unfold BasicVector.contents, BasicVector.size.
    cbn [BasicVector.m_size BasicVector.m_data]. rewrite Ed.
    apply firstn_app_exact. lia.
  - intros olds' H. unfold BasicVector.popBack_span.
    destruct (Z.leb_spec (sizeof T * Z.of_nat (List.length olds'))
                (BasicVector.m_size v));
      [ unfold BasicVector.size in H; lia | reflexivity ].
Qed.

Lemma vector_popBack_span_order_witness :
  vector_ok (BasicVector.mk 5 [9; 0; 1; 0; 2; 7] 6)
  /\ BasicVector.popBack_span little big (mkSwapType W2 false false) [0; 0]
       (BasicVector.mk 5 [9; 0; 1; 0; 2; 7] 6)
     = (false, [1; 2], BasicVector.mk 1 [9; 0; 1; 0; 2; 7] 6).
Proof.
  assert (H1 : vector_ok (BasicVector.mk 5 [9; 0; 1; 0; 2; 7] 6))
    by (unfold vector_ok; simpl; lia).
  split; [ exact H1 | ].
  refine (proj1 (vector_popBack_span_order little big
                   (mkSwapType W2 false false) [1; 2] [0; 0] [9]
                   (BasicVector.mk 5 [9; 0; 1; 0; 2; 7] 6) H1 _ _ _)).
  - repeat constructor; unfold in_range; simpl; lia.
  - reflexivity.
  - reflexivity.
Defined.

(** ** Growable buffer: sizes, comparison and copies *)

Lemma firstn_app_le {A : Type} (n : nat) (l1 l2 : list A) :
  (n <= List.length l1)%nat -> firstn n (l1 ++ l2) = firstn n l1.
Proof.
  intros H. rewrite firstn_app.
  replace (n - List.length l1)%nat with 0%nat by lia.
  cbn [firstn]. apply app_nil_r.
Qed.

Ltac vector_fields :=
  unfold BasicVector.contents, vector_ok, BasicVector.capacity,
    BasicVector.size;
  cbn [BasicVector.m_size BasicVector.m_data BasicVector.m_capacity].

Lemma vector_resize_data (n : Z) (v : BasicVector.t) :
  Z.of_nat (List.length (BasicVector.m_data v)) <= n ->
  BasicVector.m_data (BasicVector.vector_resize n v)
  = BasicVector.m_data v
    ++ repeat 0 (Z.to_nat n - List.length (BasicVector.m_data v)).
Proof.
  intros H. unfold BasicVector.vector_resize. cbn [BasicVector.m_data].
  f_equal. apply firstn_all2. lia.
Qed.

(** X18.  The members that change the size never alter a byte that stays
    within the logical size, and keep the vector in a regular state:
    [reserve] changes neither size nor contents and brings the capacity to
    at least the one asked; [expandBy] adds [n] to the size, the old
    contents coming first; [shrinkBy] removes [min(n, size)] bytes, returns
    that number and keeps the first bytes; [resize] sets the size to [n],
    the first [min(n, size)] bytes being kept; [clear] empties the vector. *)
Theorem vector_size_changes (n : Z) (v : BasicVector.t) :
  vector_ok v ->
  0 <= n ->
  BasicVector.m_size v + n < 2 ^ 64 ->
  let k := Z.min n (BasicVector.size v) in
  (BasicVector.size (BasicVector.reserve n v) = BasicVector.size v
   /\ BasicVector.contents (BasicVector.reserve n v) = BasicVector.contents v
   /\ n <= BasicVector.capacity (BasicVector.reserve n v)
   /\ vector_ok (BasicVector.reserve n v))
  /\ (BasicVector.size (BasicVector.expandBy n v) = BasicVector.size v + n
      /\ firstn (Z.to_nat (BasicVector.size v))
           (BasicVector.contents (BasicVector.expandBy n v))
         = BasicVector.contents v
      /\ vector_ok (BasicVector.expandBy n v))
  /\ (fst (BasicVector.shrinkBy n v) = k
      /\ BasicVector.size (snd (BasicVector.shrinkBy n v))
         = BasicVector.size v - k
      /\ BasicVector.contents (snd (BasicVector.shrinkBy n v))
         = firstn (Z.to_nat (BasicVector.size v - k)) (BasicVector.contents v)
      /\ vector_ok (snd (BasicVector.shrinkBy n v)))
  /\ (BasicVector.size (BasicVector.resize n v) = n
      /\ firstn (Z.to_nat k) (BasicVector.contents (BasicVector.resize n v))
         = firstn (Z.to_nat k) (BasicVector.contents v)
      /\ vector_ok (BasicVector.resize n v))
  /\ BasicVector.contents (BasicVector.clear v) = [].
Proof.
  intros Hok Hn Hmax k. pose proof Hok as [Hs Hl].
  pose proof (contents_length v Hok) as Hc.
  split; [ | split; [ | split; [ | split ] ] ].
  - (* reserve *)
    unfold BasicVector.reserve. cbv zeta.
    cbn [BasicVector.vector_reserve BasicVector.m_data].
    destruct (Z.ltb_spec (Z.of_nat (List.length (BasicVector.m_data v))) n)
      as [Hlt | Hge].
    + unfold BasicVector.size, BasicVector.contents, BasicVector.capacity,
        vector_ok.
      rewrite vector_resize_data
        by (cbn [BasicVector.m_data BasicVector.vector_reserve]; lia).
      cbn [BasicVector.vector_resize BasicVector.vector_reserve
           BasicVector.m_size BasicVector.m_data BasicVector.m_capacity].
      rewrite length_app, repeat_length.
      split; [ reflexivity | split; [ | split; [ | lia ] ] ].
      * apply firstn_app_le. unfold BasicVector.size. lia.
      * destruct (Z.ltb_spec (Z.max (BasicVector.m_capacity v) n) n); lia.
    + unfold BasicVector.size, BasicVector.contents, BasicVector.capacity,
        vector_ok, BasicVector.vector_reserve.
      cbn [BasicVector.m_size BasicVector.m_data BasicVector.m_capacity].
      split; [ reflexivity | split; [ reflexivity | split; [ lia | lia ] ] ].
  - (* expandBy *)
    destruct (expandBy_grows n v Hok Hn) as (E1 & zs & E2 & H1 & H2).
    unfold BasicVector.contents, vector_ok, BasicVector.size.
    rewrite !E1, !E2.
    split; [ reflexivity | split; [ | lia ] ].
    rewrite firstn_firstn.
    replace (Nat.min (Z.to_nat (BasicVector.m_size v))
               (Z.to_nat (BasicVector.m_size v + n)))
      with (Z.to_nat (BasicVector.m_size v)) by lia.
    apply firstn_app_le. lia.
  - (* shrinkBy *)
    unfold BasicVector.shrinkBy. cbv zeta. cbn [fst snd].
    assert (E : (if n <? BasicVector.m_size v then n else BasicVector.m_size v)
                = k).
    { subst k. unfold BasicVector.size.
      destruct (Z.ltb_spec n (BasicVector.m_size v)); lia. }
    rewrite E. vector_fields.
    split; [ reflexivity | split; [ reflexivity | split ] ].
    + rewrite firstn_firstn. f_equal.
      subst k. unfold BasicVector.size. lia.
    + subst k. unfold BasicVector.size. lia.
  - (* resize *)
    unfold BasicVector.resize. cbv zeta.
    destruct (Z.ltb_spec (Z.of_nat (List.length (BasicVector.m_data v))) n)
      as [Hlt | Hge].
    + vector_fields.
      rewrite vector_resize_data by lia.
      rewrite length_app, repeat_length.
      split; [ reflexivity | split; [ | lia ] ].
      rewrite !firstn_firstn, firstn_app_le
        by (subst k; unfold BasicVector.size; lia).
      f_equal. subst k. unfold BasicVector.size. lia.
    + vector_fields.
      split; [ reflexivity | split; [ | lia ] ].
      rewrite !firstn_firstn. f_equal.
      subst k. unfold BasicVector.size. lia.
  - reflexivity.
Qed.

Lemma vector_size_changes_witness :
  vector_ok (BasicVector.mk 2 [7; 8; 9] 3)
  /\ BasicVector.shrinkBy 5 (BasicVector.mk 2 [7; 8; 9] 3)
     = (2, BasicVector.mk 0 [7; 8; 9] 3)
  /\ BasicVector.contents (BasicVector.reserve 5 (BasicVector.mk 2 [7; 8; 9] 3))
     = BasicVector.contents (BasicVector.mk 2 [7; 8; 9] 3).
Proof.
  assert (H1 : vector_ok (BasicVector.mk 2 [7; 8; 9] 3))
    by (unfold vector_ok; simpl; lia).
  split; [ exact H1 | split; [ reflexivity | ] ].
  refine (proj1 (proj2 (proj1 (vector_size_changes 5
                                 (BasicVector.mk 2 [7; 8; 9] 3) H1 _ _)))).
  - lia.
  - reflexivity.
Defined.

Lemma compare_bytes_eq (a : list Z) :
  forall b, List.length a = List.length b ->
  compare_bytes a b = 0 <-> a = b.
Proof.
  induction a as [| x a IH]; intros [| y b] Hlen; try discriminate.
  - split; reflexivity.
  - cbn [compare_bytes]. injection Hlen as Hlen.
    destruct (Z.ltb_spec x y); [ split; [ discriminate | intros [= ]; lia ] | ].
    destruct (Z.ltb_spec y x); [ split; [ discriminate | intros [= ]; lia ] | ].
    assert (x = y) by lia. subst y.
    rewrite (IH b Hlen). split; [ intros ->; reflexivity | now intros [= ] ].
Qed.

Lemma load_contents (v : BasicVector.t) :
  load (BasicVector.m_data v) 0 (BasicVector.m_size v) = BasicVector.contents v.
Proof. reflexivity. Qed.

Lemma copy_of_contents (v : BasicVector.t) :
  vector_ok v ->
  BasicVector.size (BasicVector.copy_of v) = BasicVector.size v
  /\ BasicVector.contents (BasicVector.copy_of v) = BasicVector.contents v
  /\ vector_ok (BasicVector.copy_of v).
Proof.
  intros Hok. pose proof Hok as [Hs Hl].
  pose proof (contents_length v Hok) as Hc.
  unfold BasicVector.copy_of. cbv zeta.
  assert (Ed : BasicVector.m_data
                 (BasicVector.vector_resize (BasicVector.m_size v)
                    (BasicVector.mk (BasicVector.m_size v) [] 0))
               = repeat 0 (Z.to_nat (BasicVector.m_size v))).
  { unfold BasicVector.vector_resize. cbn [BasicVector.m_data List.length].
    rewrite firstn_nil, Nat.sub_0_r. reflexivity. }
  cbn [BasicVector.vector_resize BasicVector.m_size] in *.
  destruct (Z.ltb_spec 0 (BasicVector.m_size v)) as [Hpos | H0].
  - unfold BasicVector.size, BasicVector.contents, vector_ok.
    cbn [BasicVector.m_size BasicVector.m_data] in *.
    rewrite Ed, load_contents.
    assert (Em : memcpy (repeat 0 (Z.to_nat (BasicVector.m_size v))) 0
                   (BasicVector.contents v)
                 = BasicVector.contents v).
    { unfold memcpy. cbn [Z.to_nat firstn app Nat.add].
      rewrite skipn_all2 by (rewrite repeat_length; lia).
      rewrite app_nil_r. apply firstn_all2. rewrite repeat_length. lia. }
    rewrite Em. unfold BasicVector.size.
    cbn [BasicVector.m_size BasicVector.m_data].
    split; [ reflexivity | split; [ | lia ] ].
    apply firstn_all2.
    unfold BasicVector.contents, BasicVector.size in *.
    cbn [BasicVector.m_size]. lia.
  - assert (E0 : BasicVector.m_size v = 0) by lia.
    unfold BasicVector.size, BasicVector.contents, vector_ok.
    cbn [BasicVector.m_size BasicVector.m_data] in *.
    unfold BasicVector.size. rewrite E0. cbn.
    split; [ reflexivity | split; [ reflexivity | lia ] ].
Qed.

(** X19.  [operator==] of [Vector] holds exactly when the two vectors have
    the same contents (size and bytes within the size), whatever their
    storage holds beyond it; [operator!=] is its negation; and the copy
    constructor gives a vector equal to its source. *)
Theorem Vector_equality (lhs rhs : BasicVector.t) :
  vector_ok lhs ->
  vector_ok rhs ->
  (Vector.eqb lhs rhs = true
   <-> BasicVector.contents lhs = BasicVector.contents rhs)
  /\ (Vector.neqb lhs rhs = true
      <-> BasicVector.contents lhs <> BasicVector.contents rhs)
  /\ Vector.eqb (BasicVector.copy_of lhs) lhs = true.
Proof.
  assert (Heq : forall a b, vector_ok a -> vector_ok b ->
            (Vector.eqb a b = true
             <-> BasicVector.contents a = BasicVector.contents b)).
  { intros a b Ha Hb.
    pose proof (contents_length a Ha) as Hca.
    pose proof (contents_length b Hb) as Hcb.
    unfold Vector.eqb, memcmp, BasicVector.size.
    rewrite load_contents. rewrite Bool.andb_true_iff, !Z.eqb_eq. split.
    - intros [Es Ec]. rewrite Es, load_contents in Ec.
      apply compare_bytes_eq in Ec; [ exact Ec | lia ].
    - intros Ec.
      assert (Es : BasicVector.m_size a = BasicVector.m_size b)
        by (rewrite <- Hca, <- Hcb, Ec; reflexivity).
      split; [ exact Es | ].
      rewrite Es, load_contents.
      apply compare_bytes_eq; [ lia | exact Ec ]. }
  intros Hl Hr. split; [ now apply Heq | split ].
  - unfold Vector.neqb. rewrite Bool.negb_true_iff.
    rewrite <- (Heq lhs rhs Hl Hr).
    destruct (Vector.eqb lhs rhs); split; congruence.
  - destruct (copy_of_contents lhs Hl) as (_ & Ec & Hok).
    now apply Heq.
Qed.

Lemma Vector_equality_witness :
  vector_ok (BasicVector.mk 2 [7; 8; 9] 3)
  /\ vector_ok (BasicVector.mk 2 [7; 8] 8)
  /\ Vector.eqb (BasicVector.mk 2 [7; 8; 9] 3) (BasicVector.mk 2 [7; 8] 8)
     = true.
Proof.
  assert (H1 : vector_ok (BasicVector.mk 2 [7; 8; 9] 3))
    by (unfold vector_ok; simpl; lia).
  assert (H2 : vector_ok (BasicVector.mk 2 [7; 8] 8))
    by (unfold vector_ok; simpl; lia).
  split; [ exact H1 | split; [ exact H2 | ] ].
  apply (proj1 (Vector_equality _ _ H1 H2)). reflexivity.
Defined.

(** X20.  [popBackBuffer(Len)] removes [min(Len, size)] bytes from the end of
    the vector and returns a read buffer of that size over exactly the bytes
    removed; the vector keeps the bytes before them. *)
Theorem popBackBuffer_view (Len : Z) (v : BasicVector.t) :
  vector_ok v ->
  0 <= Len ->
  let k := Z.min Len (BasicVector.size v) in
  let r := Vector.popBackBuffer Len v in
  BasicReadBuffer.size (fst r) = k
  /\ load (BasicReadBuffer.mem (fst r)) (BasicReadBuffer.m_begin (fst r)) k
     = skipn (Z.to_nat (BasicVector.size v - k)) (BasicVector.contents v)
  /\ BasicVector.contents (snd r)
     = firstn (Z.to_nat (BasicVector.size v - k)) (BasicVector.contents v)
  /\ BasicVector.size (snd r) = BasicVector.size v - k.
Proof.
  intros Hok HLen k r. pose proof Hok as [Hs Hl].
  subst r. unfold Vector.popBackBuffer, BasicVector.shrinkBy. cbv zeta.
  assert (E : (if Len <? BasicVector.m_size v
               then Len else BasicVector.m_size v) = k).
  { subst k. unfold BasicVector.size.
    destruct (Z.ltb_spec Len (BasicVector.m_size v)); lia. }
  rewrite E. cbn [fst snd].
  unfold BasicReadBuffer.size, BasicVector.size, BasicVector.contents.
  cbn [BasicReadBuffer.mem BasicReadBuffer.m_begin BasicReadBuffer.m_end
       BasicVector.m_size BasicVector.m_data].
  unfold BasicVector.size.
  assert (Hk : 0 <= k <= BasicVector.m_size v)
    by (subst k; unfold BasicVector.size; lia).
  clearbody k.
  split; [ | split; [ | split; [ | reflexivity ] ] ].
  - replace (BasicVector.m_size v - k + k - (BasicVector.m_size v - k))
      with k by lia.
    apply Z.mod_small. lia.
  - unfold load. rewrite skipn_firstn_comm. f_equal.
    lia.
  - rewrite firstn_firstn. f_equal. cbn [BasicVector.m_size]. lia.
Qed.

Lemma popBackBuffer_view_witness :
  vector_ok (BasicVector.mk 3 [7; 8; 9; 5] 4)
  /\ load [7; 8; 9; 5] 1 2 = [8; 9]
  /\ BasicReadBuffer.size
       (fst (Vector.popBackBuffer 2 (BasicVector.mk 3 [7; 8; 9; 5] 4)))
     = 2.
Proof.
  assert (H1 : vector_ok (BasicVector.mk 3 [7; 8; 9; 5] 4))
    by (unfold vector_ok; simpl; lia).
  split; [ exact H1 | split; [ reflexivity | ] ].
  refine (proj1 (popBackBuffer_view 2 (BasicVector.mk 3 [7; 8; 9; 5] 4) H1 _)).
  lia.
Defined.

(** ** Fixed-size byte array: the hash *)

Lemma load_cons (m : memory) (i k : Z) :
  0 <= i < Z.of_nat (List.length m) ->
  0 <= k ->
  load m i (k + 1) = ByteArray.at_index m i :: load m (i + 1) k.
Proof.
  intros Hi Hk. unfold load, ByteArray.at_index.
  replace (Z.to_nat (k + 1)) with (S (Z.to_nat k)) by lia.
  replace (Z.to_nat (i + 1)) with (S (Z.to_nat i)) by lia.
  assert (Hlt : (Z.to_nat i < List.length m)%nat) by lia.
  revert Hlt. generalize (Z.to_nat i) as j. clear Hi.
  induction m as [| x m IH]; intros j Hj; [ cbn in Hj; lia | ].
  destruct j as [| j]; [ reflexivity | ].
  cbn [skipn nth]. apply IH. cbn in Hj. lia.
Qed.

Lemma hash_while_fold (fuel : nat) :
  forall (m : memory) (maxIndex index hash : Z),
  0 <= index <= maxIndex ->
  maxIndex <= Z.of_nat (List.length m) ->
  maxIndex - index <= Z.of_nat fuel ->
  ByteArray.hash_while fuel m maxIndex index hash
  = (maxIndex,
     fold_left ByteArray.computeNextHash (load m index (maxIndex - index))
       hash).
Proof.
  induction fuel as [| fuel IH]; intros m maxIndex index hash Hi Hm Hf.
  - assert (index = maxIndex) by lia. subst index.
    cbn [ByteArray.hash_while]. now rewrite Z.sub_diag.
  - cbn [ByteArray.hash_while].
    destruct (Z.ltb_spec index maxIndex).
    + rewrite IH by lia.
      replace (maxIndex - index) with ((maxIndex - (index + 1)) + 1) by lia.
      rewrite load_cons by lia. cbn [fold_left]. reflexivity.
    + assert (index = maxIndex) by lia. subst index.
      now rewrite Z.sub_diag.
Qed.

Lemma load_eight (m : memory) (i k : Z) :
  0 <= i -> i + 8 <= Z.of_nat (List.length m) -> 0 <= k ->
  load m i (k + 8)
  = ByteArray.at_index m i :: ByteArray.at_index m (i + 1)
    :: ByteArray.at_index m (i + 2) :: ByteArray.at_index m (i + 3)
    :: ByteArray.at_index m (i + 4) :: ByteArray.at_index m (i + 5)
    :: ByteArray.at_index m (i + 6) :: ByteArray.at_index m (i + 7)
    :: load m (i + 8) k.
Proof.
  intros Hi Hm Hk.
  replace (k + 8) with (k + 1 + 1 + 1 + 1 + 1 + 1 + 1 + 1) by lia.
  rewrite (load_cons m i) by lia.
  rewrite (load_cons m (i + 1)) by lia.
  rewrite (load_cons m (i + 1 + 1)) by lia.
  rewrite (load_cons m (i + 1 + 1 + 1)) by lia.
  rewrite (load_cons m (i + 1 + 1 + 1 + 1)) by lia.
  rewrite (load_cons m (i + 1 + 1 + 1 + 1 + 1)) by lia.
  rewrite (load_cons m (i + 1 + 1 + 1 + 1 + 1 + 1)) by lia.
  rewrite (load_cons m (i + 1 + 1 + 1 + 1 + 1 + 1 + 1)) by lia.
  replace (i + 1 + 1) with (i + 2) by lia.
  replace (i + 2 + 1) with (i + 3) by lia.
  replace (i + 3 + 1) with (i + 4) by lia.
  replace (i + 4 + 1) with (i + 5) by lia.
  replace (i + 5 + 1) with (i + 6) by lia.
  replace (i + 6 + 1) with (i + 7) by lia.
  replace (i + 7 + 1) with (i + 8) by lia.
  reflexivity.
Qed.

Lemma hash_bulk_step (fuel : nat) (m : memory) (bulkEnd index hash : Z) :
  ByteArray.hash_bulk (S fuel) m bulkEnd index hash
  = if index <? bulkEnd
    then ByteArray.hash_bulk fuel m bulkEnd (index + 8)
           (ByteArray.computeNextHash (ByteArray.computeNextHash (ByteArray.computeNextHash (ByteArray.computeNextHash (ByteArray.computeNextHash (ByteArray.computeNextHash (ByteArray.computeNextHash (ByteArray.computeNextHash hash (ByteArray.at_index m index)) (ByteArray.at_index m (index + 1))) (ByteArray.at_index m (index + 2))) (ByteArray.at_index m (index + 3))) (ByteArray.at_index m (index + 4))) (ByteArray.at_index m (index + 5))) (ByteArray.at_index m (index + 6))) (ByteArray.at_index m (index + 7)))
    else (index, hash).
Proof. cbn [ByteArray.hash_bulk]. reflexivity. Qed.

Lemma fold_eight {A : Type} (f : A -> Z -> A) (m : memory) (i k : Z)
    (h : A) :
  0 <= i -> i + 8 <= Z.of_nat (List.length m) -> 0 <= k ->
  fold_left f (load m i (k + 8)) h
  = fold_left f (load m (i + 8) k)
      (f (f (f (f (f (f (f (f h (ByteArray.at_index m i))
                           (ByteArray.at_index m (i + 1)))
                        (ByteArray.at_index m (i + 2)))
                     (ByteArray.at_index m (i + 3)))
                  (ByteArray.at_index m (i + 4)))
               (ByteArray.at_index m (i + 5)))
            (ByteArray.at_index m (i + 6)))
         (ByteArray.at_index m (i + 7))).
Proof.
  intros Hi Hm Hk. rewrite load_eight by lia. reflexivity.
Qed.

Lemma hash_bulk_fold (fuel : nat) :
  forall (m : memory) (q index hash : Z),
  0 <= index ->
  0 <= q ->
  index + 8 * q <= Z.of_nat (List.length m) ->
  q <= Z.of_nat fuel ->
  ByteArray.hash_bulk fuel m (index + 8 * q) index hash
  = (index + 8 * q,
     fold_left ByteArray.computeNextHash (load m index (8 * q)) hash).
Proof.
  induction fuel as [| fuel IH]; intros m q index hash Hi Hq Hm Hf.
  - assert (q = 0) by lia. subst q.
    cbn [ByteArray.hash_bulk]. now rewrite Z.mul_0_r, Z.add_0_r.
  - rewrite hash_bulk_step.
    destruct (Z.ltb_spec index (index + 8 * q)).
    + replace (index + 8 * q) with (index + 8 + 8 * (q - 1)) by lia.
      rewrite IH by lia.
      replace (8 * q) with (8 * (q - 1) + 8) by lia.
      rewrite (fold_eight ByteArray.computeNextHash) by lia. reflexivity.
    + assert (q = 0) by lia. subst q.
      now rewrite Z.mul_0_r, Z.add_0_r.
Qed.

(** [maxIndex & ~0x7ULL] *)
Lemma bulkEnd_multiple (x : Z) :
  0 <= x < 2 ^ 64 ->
  Z.land x (Z.lnot 7 mod 2 ^ 64) = 8 * (x / 8).
Proof.
  intros Hx.
  rewrite <- (Z.land_ones (Z.lnot 7) 64) by lia.
  rewrite (Z.land_comm (Z.lnot 7)), Z.land_assoc.
  rewrite (Z.land_ones x 64), (Z.mod_small x) by lia.
  rewrite <- Z.ldiff_land.
  change 7 with (Z.ones 3).
  rewrite Z.ldiff_ones_r by lia.
  rewrite Z.shiftl_mul_pow2, Z.shiftr_div_pow2 by lia.
  change (2 ^ 3) with 8. lia.
Qed.

Lemma computeHash_fold (m : memory) (initialHash maxIndex : Z) :
  0 <= maxIndex <= Z.of_nat (List.length m) ->
  maxIndex < 2 ^ 64 ->
  ByteArray.computeHash m initialHash maxIndex
  = fold_left ByteArray.computeNextHash (firstn (Z.to_nat maxIndex) m)
      initialHash.
Proof.
  intros Hm Hmax. unfold ByteArray.computeHash.
  change (firstn (Z.to_nat maxIndex) m) with (load m 0 maxIndex).
  destruct (Z.leb_spec maxIndex 8).
  - rewrite hash_while_fold by lia. cbn [snd]. now rewrite Z.sub_0_r.
  - rewrite bulkEnd_multiple by lia.
    pose proof (Z.mul_div_le maxIndex 8 ltac:(lia)) as Hq.
    assert (Hq0 : 0 <= maxIndex / 8) by (apply Z.div_pos; lia).
    change (8 * (maxIndex / 8)) with (0 + 8 * (maxIndex / 8)) at 1.
    rewrite hash_bulk_fold by lia.
    rewrite hash_while_fold by lia. cbn [snd].
    rewrite <- fold_left_app. f_equal.
    rewrite Z.add_0_l. rewrite <- load_add by lia. f_equal. lia.
Qed.

(** X21.  The unrolled [computeHash] is the plain FNV-1a fold: for every
    array and every [maxIndex] within it the result is [computeNextHash]
    applied byte by byte, from the initial hash, to the first [maxIndex]
    bytes; the eight-fold unrolling and the tail loop never skip or repeat a
    byte.  [generateHash] is this fold over the whole array from 0. *)
Theorem computeHash_is_byte_fold (N : Z) (m_bytes : list Z)
    (initialHash maxIndex : Z) :
  Z.of_nat (List.length m_bytes) = N ->
  N < 2 ^ 64 ->
  0 <= maxIndex <= N ->
  ByteArray.computeHash m_bytes initialHash maxIndex
  = fold_left ByteArray.computeNextHash (firstn (Z.to_nat maxIndex) m_bytes)
      initialHash
  /\ ByteArray.generateHash N m_bytes
     = fold_left ByteArray.computeNextHash m_bytes 0.
Proof.
  intros HN Hmax Hi. split.
  - apply computeHash_fold; lia.
  - unfold ByteArray.generateHash. rewrite computeHash_fold by lia.
    rewrite firstn_all2 by lia. reflexivity.
Qed.

Lemma computeHash_is_byte_fold_witness :
  Z.of_nat (List.length [1; 2; 3; 4; 5; 6; 7; 8; 9; 10; 11; 12]) = 12
  /\ 0 <= 11 <= 12
  /\ ByteArray.computeHash [1; 2; 3; 4; 5; 6; 7; 8; 9; 10; 11; 12]
       ByteArray.HashInit 11
     = fold_left ByteArray.computeNextHash
         [1; 2; 3; 4; 5; 6; 7; 8; 9; 10; 11] ByteArray.HashInit.
Proof.
  split; [ reflexivity | split; [ lia | ] ].
  refine (proj1 (computeHash_is_byte_fold 12
                   [1; 2; 3; 4; 5; 6; 7; 8; 9; 10; 11; 12]
                   ByteArray.HashInit 11 _ _ _)).
  - reflexivity.
  - reflexivity.
  - lia.
Defined.

(** ** Fixed-size byte array: comparison, emptiness, ranges *)

Lemma load_whole (m : memory) (N : Z) :
  Z.of_nat (List.length m) = N -> load m 0 N = m.
Proof.
  intros H. unfold load. cbn [Z.to_nat skipn]. apply firstn_all2. lia.
Qed.

Lemma compare_bytes_opp (a : list Z) :
  forall b, compare_bytes b a = - compare_bytes a b.
Proof.
  induction a as [| x a IH]; intros [| y b]; try reflexivity.
  cbn [compare_bytes].
  destruct (Z.ltb_spec x y), (Z.ltb_spec y x); try lia; try reflexivity.
  apply IH.
Qed.

Lemma compare_bytes_lt_trans (a : list Z) :
  forall b c,
  List.length a = List.length b ->
  List.length b = List.length c ->
  compare_bytes a b < 0 -> compare_bytes b c < 0 -> compare_bytes a c < 0.
Proof.
  induction a as [| x a IH]; intros [| y b] [| z c] Hab Hbc;
    try discriminate; cbn [compare_bytes]; try lia.
  injection Hab as Hab. injection Hbc as Hbc.
  destruct (Z.ltb_spec x y), (Z.ltb_spec y x), (Z.ltb_spec y z),
    (Z.ltb_spec z y), (Z.ltb_spec x z), (Z.ltb_spec z x);
    try lia; intros L1 L2; try lia.
  now apply (IH b c).
Qed.

(** X22.  The comparison operators of [ByteArray] order the arrays
    lexicographically by their bytes: [==] holds exactly for identical
    arrays, exactly one of [<], [==], [>] holds for any two arrays, [<] is
    transitive, and [<=], [>=] are [<] or [==], [>] or [==]. *)
Theorem ByteArray_comparisons (N : Z) (a b c : list Z) :
  Z.of_nat (List.length a) = N ->
  Z.of_nat (List.length b) = N ->
  Z.of_nat (List.length c) = N ->
  (ByteArray.eqb N a b = true <-> a = b)
  /\ (ByteArray.ltb N a b = true
      -> ByteArray.eqb N a b = false /\ ByteArray.gtb N a b = false)
  /\ (ByteArray.ltb N a b = true \/ ByteArray.eqb N a b = true
      \/ ByteArray.gtb N a b = true)
  /\ (ByteArray.ltb N a b = true -> ByteArray.ltb N b c = true
      -> ByteArray.ltb N a c = true)
  /\ ByteArray.leb N a b = ByteArray.ltb N a b || ByteArray.eqb N a b
  /\ ByteArray.geb N a b = ByteArray.gtb N a b || ByteArray.eqb N a b
  /\ ByteArray.neqb N a b = negb (ByteArray.eqb N a b).
Proof.
  intros Ha Hb Hc.
  unfold ByteArray.leb, ByteArray.geb, ByteArray.gtb, ByteArray.neqb,
    ByteArray.ltb, ByteArray.eqb, memcmp.
  rewrite !(load_whole a N), !(load_whole b N), !(load_whole c N) by assumption.
  pose proof (compare_bytes_opp a b) as Hopp.
  pose proof (compare_bytes_eq a b ltac:(lia)) as Heq.
  pose proof (compare_bytes_lt_trans a b c ltac:(lia) ltac:(lia)) as Htr.
  rewrite Hopp.
  destruct (Z.ltb_spec (compare_bytes a b) 0),
    (Z.eqb_spec (compare_bytes a b) 0),
    (Z.ltb_spec (- compare_bytes a b) 0); try lia; cbn [negb orb].
  all: repeat split; try tauto; try discriminate; auto; try lia.
  all: try (intros _; rewrite !Z.ltb_lt; intros H2; apply Htr; lia).
  all: try (intros E; apply Heq in E; contradiction).
  all: try (intros E; apply Heq in E; lia).
Qed.

Lemma ByteArray_comparisons_witness :
  Z.of_nat (List.length [1; 2; 3]) = 3
  /\ Z.of_nat (List.length [1; 3; 0]) = 3
  /\ Z.of_nat (List.length [2; 0; 0]) = 3
  /\ ByteArray.ltb 3 [1; 2; 3] [1; 3; 0] = true
  /\ ByteArray.ltb 3 [1; 3; 0] [2; 0; 0] = true
  /\ ByteArray.ltb 3 [1; 2; 3] [2; 0; 0] = true.
Proof.
  repeat (split; [ reflexivity | ]).
  refine (proj1 (proj2 (proj2 (proj2
     (ByteArray_comparisons 3 [1; 2; 3] [1; 3; 0] [2; 0; 0] _ _ _)))) _ _);
    reflexivity.
Defined.

Lemma empty_for_zeros (N : Z) (fuel : nat) :
  forall (done rest : list Z),
  Z.of_nat (List.length done) + Z.of_nat (List.length rest) = N ->
  List.length rest = fuel ->
  ByteArray.empty_for N fuel (Z.of_nat (List.length done)) (done ++ rest)
  = true
  <-> rest = repeat 0 fuel.
Proof.
  induction fuel as [| fuel IH]; intros done rest HN Hf.
  - destruct rest; [ | discriminate ]. cbn. tauto.
  - destruct rest as [| x rest]; [ discriminate | ].
    cbn [ByteArray.empty_for repeat]. injection Hf as Hf.
    cbn [List.length] in HN.
    destruct (Z.ltb_spec (Z.of_nat (List.length done)) N); [ | lia ].
    unfold ByteArray.at_index. rewrite Nat2Z.id, nth_middle.
    destruct (Z.eqb_spec x 0) as [-> | Hx]; cbn [negb].
    + replace (Z.of_nat (List.length done) + 1)
        with (Z.of_nat (List.length (done ++ [0])))
        by (rewrite length_app; cbn; lia).
      replace (done ++ 0 :: rest) with ((done ++ [0]) ++ rest)
        by now rewrite <- app_assoc.
      rewrite IH; [ | rewrite length_app; cbn; lia | exact Hf ].
      split; [ intros ->; reflexivity | now intros [= ] ].
    + split; [ discriminate | intros [= ]; contradiction ].
Qed.

(** X23.  [empty()] holds exactly when every one of the [N] bytes is zero;
    in particular it holds after [clear()]. *)
Theorem ByteArray_empty_zeros (N : Z) (m_bytes : list Z) :
  Z.of_nat (List.length m_bytes) = N ->
  (ByteArray.empty N m_bytes = true <-> m_bytes = repeat 0 (Z.to_nat N))
  /\ ByteArray.empty N (ByteArray.clear N m_bytes) = true.
Proof.
  intros HN.
  assert (H : forall m, Z.of_nat (List.length m) = N ->
            (ByteArray.empty N m = true <-> m = repeat 0 (Z.to_nat N))).
  { intros m Hm. unfold ByteArray.empty.
    apply (empty_for_zeros N (Z.to_nat N) [] m); cbn [List.length]; lia. }
  split; [ now apply H | ].
  apply H; [ | reflexivity ].
  unfold ByteArray.clear. rewrite repeat_length. lia.
Qed.

Lemma ByteArray_empty_zeros_witness :
  Z.of_nat (List.length [0; 0; 1]) = 3
  /\ (ByteArray.empty 3 [0; 0; 1] = true <-> [0; 0; 1] = repeat 0 3).
Proof.
  split; [ reflexivity | ].
  exact (proj1 (ByteArray_empty_zeros 3 [0; 0; 1] eq_refl)).
Defined.

Lemma store_middle (done rest : list Z) (x b : Z) :
  ByteArray.store (done ++ x :: rest) (Z.of_nat (List.length done)) b
  = done ++ b :: rest.
Proof.
  unfold ByteArray.store.
  change (x :: rest) with ([x] ++ rest). change (b :: rest) with ([b] ++ rest).
  now apply memcpy_app.
Qed.

Lemma range_value (i initial step : Z) :
  0 <= i ->
  (((i * (step mod 2 ^ 64)) mod 2 ^ 64 + initial mod 2 ^ 64) mod 2 ^ 64)
  mod 256
  = (initial + i * step) mod 256.
Proof.
  intros Hi.
  assert (H : forall x, (x mod 2 ^ 64) mod 256 = x mod 256).
  { intros x. change (2 ^ 64) with (256 * 2 ^ 56).
    rewrite Z.rem_mul_r by lia.
    rewrite Z.add_mod, Z.mul_comm, Z.mod_mul, Z.add_0_r by lia.
    now rewrite !Z.mod_mod by lia. }
  rewrite H.
  rewrite Z.add_mod, !H by lia.
  rewrite (Z.mul_mod i), H by lia.
  rewrite <- (Z.mul_mod i), <- Z.add_mod by lia.
  f_equal. lia.
Qed.

Lemma fillWithRange_for_values (N initial step : Z) (fuel : nat) :
  forall (done rest : list Z),
  Z.of_nat (List.length done) + Z.of_nat (List.length rest) = N ->
  List.length rest = fuel ->
  ByteArray.fillWithRange_for N fuel initial step
    (Z.of_nat (List.length done)) (done ++ rest)
  = done
    ++ map (fun i => (initial + Z.of_nat i * step) mod 256)
         (seq (List.length done) fuel).
Proof.
  induction fuel as [| fuel IH]; intros done rest HN Hf.
  - destruct rest; [ | discriminate ]. reflexivity.
  - destruct rest as [| x rest]; [ discriminate | ].
    cbn [ByteArray.fillWithRange_for seq map]. injection Hf as Hf.
    cbn [List.length] in HN.
    destruct (Z.ltb_spec (Z.of_nat (List.length done)) N); [ | lia ].
    rewrite store_middle, range_value by lia.
    set (b := (initial + Z.of_nat (List.length done) * step) mod 256).
    replace (Z.of_nat (List.length done) + 1)
      with (Z.of_nat (List.length (done ++ [b])))
      by (rewrite length_app; cbn; lia).
    replace (done ++ b :: rest) with ((done ++ [b]) ++ rest)
      by now rewrite <- app_assoc.
    rewrite IH; [ | rewrite length_app; cbn; lia | exact Hf ].
    rewrite <- app_assoc. cbn [app].
    rewrite length_app. cbn [List.length]. rewrite Nat.add_1_r.
    reflexivity.
Qed.

(** X24.  [fillWithRange(initial, step)] overwrites the whole array with the
    arithmetic progression reduced to a byte: byte [i] becomes
    [(initial + i * step) mod 256], for negative arguments too, whatever the
    array held. *)
Theorem fillWithRange_progression (N initial step : Z) (m_bytes : list Z) :
  Z.of_nat (List.length m_bytes) = N ->
  ByteArray.fillWithRange N initial step m_bytes
  = map (fun i => (initial + Z.of_nat i * step) mod 256)
      (seq 0 (Z.to_nat N)).
Proof.
  intros HN. unfold ByteArray.fillWithRange.
  apply (fillWithRange_for_values N initial step (Z.to_nat N) [] m_bytes);
    cbn [List.length]; lia.
Qed.

Lemma fillWithRange_progression_witness :
  Z.of_nat (List.length [9; 9; 9; 9]) = 4
  /\ ByteArray.fillWithRange 4 (-1) 100 [9; 9; 9; 9] = [255; 99; 199; 43].
Proof.
  split; [ reflexivity | ].
  exact (fillWithRange_progression 4 (-1) 100 [9; 9; 9; 9] eq_refl).
Defined.

(** ** Fixed-size byte array: built from a string, read back *)

Lemma unwritten_padding_length (count : nat) :
  forall hashValue, List.length (unwritten_padding count hashValue) = count.
Proof.
  induction count as [| count IH]; intros h; cbn [unwritten_padding List.length];
    [ reflexivity | ].
  now rewrite IH.
Qed.

Lemma filter_nonzero (l : list Z) :
  Forall (fun c => c <> 0) (filter nonzero l).
Proof.
  apply Forall_forall. intros c Hc. apply filter_In in Hc as [_ Hc].
  unfold nonzero in Hc. destruct (Z.eqb_spec c 0); [ discriminate | assumption ].
Qed.

Lemma prefix_nonzero_length (N : Z) (str : string) :
  0 <= N -> Z.of_nat (List.length (prefix_nonzero N str)) <= N.
Proof.
  intros HN. unfold prefix_nonzero.
  pose proof (filter_length_le nonzero
                (firstn (Z.to_nat N) (string_chars str))) as H.
  rewrite length_firstn in H. lia.
Qed.

Lemma chars_string_chars (str : string) :
  chars_string (string_chars str) = str.
Proof.
  unfold chars_string, string_chars. rewrite map_map.
  rewrite (map_ext _ (fun c => c)), map_id.
  - apply string_of_list_ascii_of_string.
  - intros c. unfold char_of_value, char_value.
    pose proof (N_ascii_bounded c).
    rewrite Z.mod_small by lia.
    now rewrite N2Z.id, ascii_N_embedding.
Qed.

(** The array built from a string: the bytes copied, then nothing, or a
    zero byte and the padding. *)
Lemma of_string_parts (N : Z) (str : string) :
  0 < N ->
  exists tail,
    ByteArray.of_string N str = prefix_nonzero N str ++ tail
    /\ Z.of_nat (List.length (prefix_nonzero N str))
       + Z.of_nat (List.length tail) = N
    /\ (tail = [] \/ exists t, tail = 0 :: t).
Proof.
  intros HN.
  pose proof (prefix_nonzero_length N str ltac:(lia)) as Hk.
  set (head := prefix_nonzero N str) in *.
  set (k := Z.of_nat (List.length head)) in *.
  destruct (Z.eq_dec k 0) as [E0 | NE0];
    [ | destruct (Z.eq_dec k N) as [EN | NEN] ].
  - assert (Eh : head = []) by (destruct head; [ reflexivity | cbn in *; lia ]).
    exists (repeat 0 (Z.to_nat N)).
    unfold ByteArray.of_string, ByteArray.fill.
    rewrite (fillHead_copies N str) by lia. cbv zeta. fold head.
    rewrite Eh. cbn [List.length Z.of_nat app].
    unfold ByteArray.fillTail. cbn [Z.eqb snd].
    rewrite repeat_length.
    split; [ reflexivity | split; [ lia | right ] ].
    destruct (Z.to_nat N) as [| n] eqn:En; [ lia | ].
    now exists (repeat 0 n).
  - exists []. rewrite app_nil_r.
    unfold ByteArray.of_string, ByteArray.fill.
    rewrite (fillHead_copies N str) by lia. cbv zeta. fold head. fold k.
    rewrite EN, fillTail_full by lia.
    unfold partial_array.
    replace (Z.to_nat N - List.length head)%nat with 0%nat by lia.
    cbn [repeat List.length]. rewrite app_nil_r.
    split; [ reflexivity | split; [ lia | now left ] ].
  - pose proof (of_string_padding N str) as E. cbv zeta in E.
    fold head in E. fold k in E.
    eexists. split; [ apply E; lia | ].
    cbn [List.length]. rewrite unwritten_padding_length.
    split; [ lia | right; eexists; reflexivity ].
Qed.

Lemma toString_while_stops (N : Z) (fuel : nat) :
  forall (done rest tail : list Z),
  Forall (fun c => c <> 0) rest ->
  (tail = [] \/ exists t, tail = 0 :: t) ->
  Z.of_nat (List.length done) + Z.of_nat (List.length rest)
  + Z.of_nat (List.length tail) = N ->
  (List.length rest <= fuel)%nat ->
  ByteArray.toString_while N fuel (Z.of_nat (List.length done))
    (done ++ rest ++ tail)
  = Z.of_nat (List.length done) + Z.of_nat (List.length rest).
Proof.
  induction fuel as [| fuel IH]; intros done rest tail Hrest Htail HN Hf.
  - destruct rest; [ | cbn in Hf; lia ].
    cbn [ByteArray.toString_while List.length]. lia.
  - cbn [ByteArray.toString_while].
    destruct rest as [| x rest].
    + cbn [app List.length] in *. rewrite Z.add_0_r.
      destruct Htail as [-> | [t ->]].
      * cbn [List.length] in HN.
        destruct (Z.ltb_spec (Z.of_nat (List.length done)) N); [ lia | ].
        reflexivity.
      * unfold ByteArray.at_index. rewrite Nat2Z.id, nth_middle.
        cbn [Z.eqb negb]. now rewrite Bool.andb_false_r.
    + apply Forall_cons_iff in Hrest as [Hx Hrest'].
      cbn [app List.length] in *.
      destruct (Z.ltb_spec (Z.of_nat (List.length done)) N); [ | lia ].
      unfold ByteArray.at_index. rewrite Nat2Z.id, nth_middle.
      destruct (Z.eqb_spec x 0); [ contradiction | ]. cbn [andb negb].
      replace (Z.of_nat (List.length done) + 1)
        with (Z.of_nat (List.length (done ++ [x])))
        by (rewrite length_app; cbn; lia).
      replace (done ++ x :: rest ++ tail) with ((done ++ [x]) ++ rest ++ tail)
        by now rewrite <- app_assoc.
      rewrite IH; auto.
      * rewrite length_app. cbn [List.length]. lia.
      * rewrite length_app. cbn [List.length]. lia.
      * lia.
Qed.

(** X25.  The array built from a string holds, first, the non-zero bytes
    among the first [N] characters, in order; when these are fewer than [N]
    a zero byte follows them.  [toString()] returns exactly these bytes, so
    a string without zero characters and of at most [N] characters is read
    back unchanged, whatever padding follows it. *)
Theorem of_string_toString (N : Z) (str : string) :
  0 < N ->
  let head := prefix_nonzero N str in
  let k := Z.of_nat (List.length head) in
  let arr := ByteArray.of_string N str in
  Z.of_nat (List.length arr) = N
  /\ firstn (Z.to_nat k) arr = head
  /\ (k < N -> ByteArray.at_index arr k = 0)
  /\ ByteArray.toString N arr = chars_string head
  /\ (string_size str <= N ->
      Forall (fun c => c <> 0) (string_chars str) ->
      ByteArray.toString N arr = str).
Proof.
  intros HN head k arr.
  destruct (of_string_parts N str HN) as (tail & E & Hlen & Htail).
  fold head in E, Hlen. fold arr in E. fold k in Hlen.
  assert (Hts : ByteArray.toString N arr = chars_string head).
  { unfold ByteArray.toString, ByteArray.toString_count. rewrite E.
    pose proof (toString_while_stops N (Z.to_nat N) [] head tail
                  (filter_nonzero _) Htail) as Hw.
    cbn [List.length Z.of_nat app] in Hw. rewrite Hw by (fold k; lia).
    f_equal. unfold load. cbn [Z.to_nat skipn Z.add]. fold k.
    replace (Z.min k N) with k by lia.
    apply firstn_app_exact. subst k. lia. }
  split; [ | split; [ | split; [ | split ] ] ].
  - rewrite E, length_app. fold k. lia.
  - rewrite E. apply firstn_app_exact. subst k. lia.
  - intros Hk. rewrite E. unfold ByteArray.at_index.
    subst k. rewrite Nat2Z.id.
    destruct Htail as [-> | [t ->]]; [ cbn [List.length] in Hlen; lia | ].
    apply nth_middle.
  - exact Hts.
  - intros Hsize Hnz. rewrite Hts. subst head. unfold prefix_nonzero.
    pose proof (string_chars_length str) as Hl.
    rewrite firstn_all2 by lia.
    rewrite filter_all; [ apply chars_string_chars | ].
    eapply Forall_impl; [ | exact Hnz ].
    intros c Hc. unfold nonzero. now destruct (Z.eqb_spec c 0).
Qed.

Lemma of_string_toString_witness :
  0 < 8
  /\ ByteArray.toString 8 (ByteArray.of_string 8 "key") = "key"%string.
Proof.
  split; [ reflexivity | ].
  refine (proj2 (proj2 (proj2 (proj2 (of_string_toString 8 "key" eq_refl))))
            _ _).
  - vm_compute. discriminate.
  - repeat constructor; discriminate.
Defined.

(** ** Fixed-size byte array: wide strings *)

Lemma wide_byte_little (c : Z) :
  0 <= c < 256 ->
  Z.land c 0xFF mod 256 = c /\ Z.shiftr c 8 mod 256 = 0.
Proof.
  intros Hc. change 0xFF with (Z.ones 8).
  rewrite Z.land_ones, Z.shiftr_div_pow2 by lia. change (2 ^ 8) with 256.
  rewrite Z.mod_mod, Z.mod_small, Z.div_small by lia. split; reflexivity.
Qed.

Lemma wide_byte_swapped (c : Z) :
  0 <= c < 256 ->
  Z.land (byteSwap wchar16 c) 0xFF mod 256 = 0
  /\ Z.shiftr (byteSwap wchar16 c) 8 mod 256 = c.
Proof.
  intros Hc.
  assert (H : forallb
                (fun c => (Z.land (byteSwap wchar16 c) 0xFF mod 256 =? 0)
                          && (Z.shiftr (byteSwap wchar16 c) 8 mod 256 =? c))
                (map Z.of_nat (seq 0 256)) = true)
    by (vm_compute; reflexivity).
  rewrite forallb_forall in H.
  specialize (H c). rewrite Bool.andb_true_iff, !Z.eqb_eq in H.
  apply H. apply in_map_iff. exists (Z.to_nat c).
  split; [ lia | apply in_seq; lia ].
Qed.

Section WideKeys.
Variable N : Z.
Variable native : endian.
Variable wchar_t : SwapType.
Hypothesis platform : native = little \/ wchar_t = wchar16.

Lemma fillHead_wide_narrow (cs : list Z) :
  forall (index : Z) (m_bytes : list Z),
  Forall (fun c => 0 <= c < 256) cs ->
  ByteArray.fillHead_wide N native wchar_t cs index m_bytes
  = ByteArray.fillHead_range N cs index m_bytes.
Proof.
  induction cs as [| c cs IH]; intros index m_bytes Hcs; [ reflexivity | ].
  apply Forall_cons_iff in Hcs as [Hc Hcs].
  cbn [ByteArray.fillHead_wide ByteArray.fillHead_range].
  rewrite (Z.mod_small c 256) by lia.
  set (w := if negb (endian_eqb native little)
            then byteSwap wchar_t c else c).
  assert (Hw : (Z.land w 0xFF mod 256 = c /\ Z.shiftr w 8 mod 256 = 0)
               \/ (Z.land w 0xFF mod 256 = 0 /\ Z.shiftr w 8 mod 256 = c)).
  { subst w. destruct native; cbn [endian_eqb negb].
    - left. now apply wide_byte_little.
    - destruct platform as [E | ->]; [ discriminate | ].
      right. now apply wide_byte_swapped. }
  destruct Hw as [[-> ->] | [-> ->]]; unfold ByteArray.fillHead_byte;
    cbn [Z.eqb negb];
    destruct (Z.eqb_spec c 0) as [-> | Hc0]; cbn [negb];
    try (now apply IH);
    destruct (Z.eqb_spec (index + 1) N); try reflexivity; now apply IH.
Qed.
End WideKeys.

(** X26.  For a string of at most [N] characters, the array built from the
    wide string with the same character codes is the array built from the
    narrow string: on a little-endian platform for every width of
    [wchar_t], and on a big-endian platform for a two-byte [wchar_t]. *)
Theorem wide_key_of_narrow (N : Z) (native : endian) (wchar_t : SwapType)
    (str : string) :
  string_size str <= N ->
  native = little \/ wchar_t = wchar16 ->
  ByteArray.of_wstring N native wchar_t (string_chars str)
  = ByteArray.of_string N str.
Proof.
  intros Hsize Hp.
  unfold ByteArray.of_wstring, ByteArray.fill_wide, ByteArray.of_string,
    ByteArray.fill, ByteArray.fillHead.
  destruct (Z.leb_spec (string_size str) N); [ | lia ].
  rewrite (fillHead_wide_narrow N native wchar_t Hp)
    by apply string_chars_range.
  reflexivity.
Qed.

Lemma wide_key_of_narrow_witness :
  string_size "ab" <= 4
  /\ ByteArray.of_wstring 4 big wchar16 [97; 98] = ByteArray.of_string 4 "ab".
Proof.
  assert (H : string_size "ab" <= 4) by (vm_compute; discriminate).
  split; [ exact H | ].
  exact (wide_key_of_narrow 4 big wchar16 "ab" H (or_intror eq_refl)).
Defined.

(** ** The default copies *)

(** X27.  The default [copy] functions are [basicCopy] for the stream order:
    on either platform [copy] stores a value, and each element of a span, as
    its little-endian bytes, changes no other byte, and the reading [copy]
    returns the value, or the elements, stored. *)
Theorem copy_stream_order (native : endian) (T : SwapType) (value : Z)
    (span : list Z) (pre old olds post : list Z) :
  in_range T value ->
  Forall (in_range T) span ->
  Z.of_nat (List.length old) = sizeof T ->
  Z.of_nat (List.length olds) = sizeof T * Z.of_nat (List.length span) ->
  let p := Z.of_nat (List.length pre) in
  Concepts.copy_value native T p value (pre ++ old ++ post)
  = pre ++ object_bytes little T value ++ post
  /\ Concepts.copy_read native T p
       (pre ++ object_bytes little T value ++ post) = value
  /\ Concepts.copy_span native T p span (pre ++ olds ++ post)
     = pre ++ span_bytes little T span ++ post
  /\ Concepts.copy_read_span native T (List.length span) p
       (pre ++ span_bytes little T span ++ post) = span.
Proof.
  intros Hv Hvs Hold Holds p.
  change (Concepts.copy_value native T)
    with (Concepts.basicCopy_value native Concepts.stream_endian T).
  change (Concepts.copy_read native T)
    with (Concepts.basicCopy_read native Concepts.stream_endian T).
  change (Concepts.copy_span native T)
    with (Concepts.basicCopy_span native Concepts.stream_endian T).
  change (Concepts.copy_read_span native T)
    with (Concepts.basicCopy_read_span native Concepts.stream_endian T).
  rewrite <- (span_bytes_stream native little).
  rewrite <- (stream_bytes_encoding native little).
  change little with Concepts.stream_endian.
  split; [ | split; [ | split ] ].
  - apply basicCopy_value_app; auto. lia.
  - now apply basicCopy_read_app.
  - now apply basicCopy_span_app.
  - now apply basicCopy_read_span_app.
Qed.

Lemma copy_stream_order_witness :
  in_range uint32_t 0x01020304
  /\ Concepts.copy_value big uint32_t 1 0x01020304 [9; 0; 0; 0; 0; 9]
     = [9; 4; 3; 2; 1; 9].
Proof.
  assert (H : in_range uint32_t 0x01020304) by (unfold in_range; simpl; lia).
  split; [ exact H | ].
  exact (proj1 (copy_stream_order big uint32_t 0x01020304 [] [9] [0; 0; 0; 0]
                  [] [9] H (Forall_nil _) eq_refl eq_refl)).
Defined.

(** ** What the safe reads leave alone *)

Section ReadFrame.
Variables native Encoding : endian.
Variable wchar_t : SwapType.

Lemma run_read_op_within (lo hi : Z) (op : read_op)
    (rb : BasicReadBuffer.t) :
  read_buffer_ok rb ->
  lo <= BasicReadBuffer.m_begin rb ->
  BasicReadBuffer.m_end rb <= hi ->
  read_op_ok lo hi op ->
  let rb' := run_read_op native Encoding wchar_t op rb in
  BasicReadBuffer.mem rb' = BasicReadBuffer.mem rb
  /\ BasicReadBuffer.m_begin rb <= BasicReadBuffer.m_begin rb'
  /\ BasicReadBuffer.m_begin rb' <= BasicReadBuffer.m_end rb'
  /\ BasicReadBuffer.m_end rb' <= BasicReadBuffer.m_end rb.
Proof.
  intros (Hb & He & Hbytes) Hlo Hhi Hop rb'. subst rb'.
  destruct rb as [m b e].
  cbn [BasicReadBuffer.mem BasicReadBuffer.m_begin BasicReadBuffer.m_end]
    in *.
  pose proof (sizeof_pos wchar_t) as Hw.
  destruct op as [bytes | bytes | T | T | T n | T n | | | | ];
    cbn [run_read_op read_op_ok] in *;
    try pose proof (sizeof_pos T) as Hs.
  - unfold BasicReadBuffer.skipFront, BasicReadBuffer.set_begin.
    cbn [BasicReadBuffer.mem BasicReadBuffer.m_begin BasicReadBuffer.m_end].
    rewrite wrap_small by lia.
    destruct (Z.leb_spec (b + bytes) e); repeat split; lia.
  - unfold BasicReadBuffer.skipBack, BasicReadBuffer.set_end.
    cbn [BasicReadBuffer.mem BasicReadBuffer.m_begin BasicReadBuffer.m_end].
    rewrite wrap_small by lia.
    destruct (Z.leb_spec b (e - bytes)); repeat split; lia.
  - unfold BasicReadBuffer.popFront, BasicReadBuffer.unsafePopFront,
      BasicReadBuffer.set_begin.
    cbn [BasicReadBuffer.mem BasicReadBuffer.m_begin BasicReadBuffer.m_end].
    destruct (Z.leb_spec (b + sizeof T) e);
      cbn [snd BasicReadBuffer.mem BasicReadBuffer.m_begin
           BasicReadBuffer.m_end]; repeat split; lia.
  - unfold BasicReadBuffer.popBack, BasicReadBuffer.unsafePopBack,
      BasicReadBuffer.set_end.
    cbn [BasicReadBuffer.mem BasicReadBuffer.m_begin BasicReadBuffer.m_end].
    destruct (Z.leb_spec (b + sizeof T) e);
      cbn [snd BasicReadBuffer.mem BasicReadBuffer.m_begin
           BasicReadBuffer.m_end]; repeat split; lia.
  - unfold BasicReadBuffer.popFront_span, BasicReadBuffer.unsafePopFront_span,
      BasicReadBuffer.set_begin.
    cbn [BasicReadBuffer.mem BasicReadBuffer.m_begin BasicReadBuffer.m_end].
    rewrite repeat_length.
    destruct (Z.leb_spec (b + sizeof T * Z.of_nat n) e);
      cbn [snd BasicReadBuffer.mem BasicReadBuffer.m_begin
           BasicReadBuffer.m_end]; repeat split; nia.
  - unfold BasicReadBuffer.popBack_span, BasicReadBuffer.unsafePopBack_span,
      BasicReadBuffer.set_end.
    cbn [BasicReadBuffer.mem BasicReadBuffer.m_begin BasicReadBuffer.m_end].
    rewrite repeat_length.
    destruct (Z.leb_spec (b + sizeof T * Z.of_nat n) e);
      cbn [snd BasicReadBuffer.mem BasicReadBuffer.m_begin
           BasicReadBuffer.m_end]; repeat split; nia.
  - (* string, from the front *)
    unfold BasicReadBuffer.popFront_string.
    cbn [BasicReadBuffer.m_begin BasicReadBuffer.m_end].
    destruct (Z.leb_spec (b + 8) e);
      [ | cbn [snd BasicReadBuffer.set_begin BasicReadBuffer.mem
               BasicReadBuffer.m_begin BasicReadBuffer.m_end];
          repeat split; lia ].
    destruct (read_uint32 native Encoding m b Hbytes) as [Hn _]; try lia.
    unfold BasicReadBuffer.unsafePopFront_span,
      BasicReadBuffer.unsafePopFront, BasicReadBuffer.set_begin.
    cbn [BasicReadBuffer.mem BasicReadBuffer.m_begin BasicReadBuffer.m_end].
    change (sizeof uint32_t) with 4. change (sizeof char) with 1.
    set (size := Concepts.basicCopy_read native Encoding uint32_t b m) in *.
    assert (Hsize : 0 <= size < 2 ^ 32) by exact Hn.
    destruct (Z.leb_spec (b + 4 + size + 4) e);
      [ | cbn [snd BasicReadBuffer.set_begin BasicReadBuffer.set_end
               BasicReadBuffer.mem BasicReadBuffer.m_begin
               BasicReadBuffer.m_end]; repeat split; lia ].
    destruct (negb _);
      cbn [BasicReadBuffer.mem BasicReadBuffer.m_begin
           BasicReadBuffer.m_end];
      destruct (Z.eqb _ _);
      cbn [snd BasicReadBuffer.mem BasicReadBuffer.m_begin
           BasicReadBuffer.m_end]; repeat split; lia.
  - (* string, from the back *)
    unfold BasicReadBuffer.popBack_string.
    cbn [BasicReadBuffer.m_begin BasicReadBuffer.m_end].
    destruct (Z.leb_spec (b + 8) e);
      [ | cbn [snd BasicReadBuffer.set_end BasicReadBuffer.mem
               BasicReadBuffer.m_begin BasicReadBuffer.m_end];
          repeat split; lia ].
    destruct (read_uint32 native Encoding m (e - 4) Hbytes) as [Hn _];
      try lia.
    unfold BasicReadBuffer.unsafePopBack_span,
      BasicReadBuffer.unsafePopBack, BasicReadBuffer.set_end.
    cbn [BasicReadBuffer.mem BasicReadBuffer.m_begin BasicReadBuffer.m_end].
    change (sizeof uint32_t) with 4. change (sizeof char) with 1.
    set (size := Concepts.basicCopy_read native Encoding uint32_t (e - 4) m)
      in *.
    assert (Hsize : 0 <= size < 2 ^ 32) by exact Hn.
    destruct (Z.leb_spec (b + size + 4) (e - 4));
      [ | cbn [snd BasicReadBuffer.set_begin BasicReadBuffer.set_end
               BasicReadBuffer.mem BasicReadBuffer.m_begin
               BasicReadBuffer.m_end]; repeat split; lia ].
    destruct (negb _);
      cbn [BasicReadBuffer.mem BasicReadBuffer.m_begin
           BasicReadBuffer.m_end];
      destruct (Z.eqb _ _);
      cbn [snd BasicReadBuffer.mem BasicReadBuffer.m_begin
           BasicReadBuffer.m_end]; repeat split; lia.
  - (* wide string, from the front *)
    unfold BasicReadBuffer.popFront_wstring.
    cbn [BasicReadBuffer.m_begin BasicReadBuffer.m_end].
    destruct (Z.leb_spec (b + 8) e);
      [ | cbn [snd BasicReadBuffer.set_begin BasicReadBuffer.mem
               BasicReadBuffer.m_begin BasicReadBuffer.m_end];
          repeat split; lia ].
    destruct (read_uint32 native Encoding m b Hbytes) as [Hn _]; try lia.
    unfold BasicReadBuffer.unsafePopFront_span,
      BasicReadBuffer.unsafePopFront, BasicReadBuffer.set_begin.
    cbn [BasicReadBuffer.mem BasicReadBuffer.m_begin BasicReadBuffer.m_end].
    change (sizeof uint32_t) with 4. change (sizeof char) with 1.
    set (size := Concepts.basicCopy_read native Encoding uint32_t b m) in *.
    assert (Hsize : 0 <= size < 2 ^ 32) by exact Hn.
    destruct (Z.leb_spec (b + 4 + size * sizeof wchar_t + 4) e);
      [ | cbn [snd BasicReadBuffer.set_begin BasicReadBuffer.set_end
               BasicReadBuffer.mem BasicReadBuffer.m_begin
               BasicReadBuffer.m_end]; repeat split; lia ].
    destruct (BasicReadBuffer.wstring_resize [] size);
      cbn [BasicReadBuffer.mem BasicReadBuffer.m_begin
           BasicReadBuffer.m_end];
      destruct (Z.eqb _ _);
      cbn [snd BasicReadBuffer.mem BasicReadBuffer.m_begin
           BasicReadBuffer.m_end]; repeat split; nia.
  - (* wide string, from the back *)
    unfold BasicReadBuffer.popBack_wstring.
    cbn [BasicReadBuffer.m_begin BasicReadBuffer.m_end].
    destruct (Z.leb_spec (b + 8) e);
      [ | cbn [snd BasicReadBuffer.set_end BasicReadBuffer.mem
               BasicReadBuffer.m_begin BasicReadBuffer.m_end];
          repeat split; lia ].
    destruct (read_uint32 native Encoding m (e - 4) Hbytes) as [Hn _];
      try lia.
    unfold BasicReadBuffer.unsafePopBack_span,
      BasicReadBuffer.unsafePopBack, BasicReadBuffer.set_end.
    cbn [BasicReadBuffer.mem BasicReadBuffer.m_begin BasicReadBuffer.m_end].
    change (sizeof uint32_t) with 4. change (sizeof char) with 1.
    set (size := Concepts.basicCopy_read native Encoding uint32_t (e - 4) m)
      in *.
    assert (Hsize : 0 <= size < 2 ^ 32) by exact Hn.
    destruct (Z.leb_spec (b + size * sizeof wchar_t + 4) (e - 4));
      [ | cbn [snd BasicReadBuffer.set_begin BasicReadBuffer.set_end
               BasicReadBuffer.mem BasicReadBuffer.m_begin
               BasicReadBuffer.m_end]; repeat split; lia ].
    destruct (BasicReadBuffer.wstring_resize [] size);
      cbn [BasicReadBuffer.mem BasicReadBuffer.m_begin
           BasicReadBuffer.m_end];
      destruct (Z.eqb _ _);
      cbn [snd BasicReadBuffer.mem BasicReadBuffer.m_begin
           BasicReadBuffer.m_end]; repeat split; nia.
Qed.
End ReadFrame.

(** X28.  The safe reading members ([skipFront], [skipBack], the value, span,
    string and wide-string [popFront] and [popBack]) called in any sequence
    on a buffer over bytes never change the memory and never leave the
    buffer, provided no skip is given so many bytes that its address wraps
    around at [2 ^ 64] (the end of the buffer plus the bytes of a
    [skipFront] stays below [2 ^ 64], the bytes of a [skipBack] are at most
    the address of the front): the front cursor only moves forwards, the back
    cursor only backwards, and they never cross. *)
Theorem read_ops_frame (native Encoding : endian) (wchar_t : SwapType)
    (ops : list read_op) (rb : BasicReadBuffer.t) :
  read_buffer_ok rb ->
  Forall (read_op_ok (BasicReadBuffer.m_begin rb) (BasicReadBuffer.m_end rb))
    ops ->
  let rb' := run_read_ops native Encoding wchar_t ops rb in
  BasicReadBuffer.mem rb' = BasicReadBuffer.mem rb
  /\ BasicReadBuffer.m_begin rb <= BasicReadBuffer.m_begin rb'
  /\ BasicReadBuffer.m_begin rb' <= BasicReadBuffer.m_end rb'
  /\ BasicReadBuffer.m_end rb' <= BasicReadBuffer.m_end rb
  /\ read_buffer_ok rb'.
Proof.
  intros Hok Hops.
  assert (Hlo : BasicReadBuffer.m_begin rb <= BasicReadBuffer.m_begin rb)
    by lia.
  assert (Hhi : BasicReadBuffer.m_end rb <= BasicReadBuffer.m_end rb) by lia.
  revert Hops Hlo Hhi.
  generalize (BasicReadBuffer.m_begin rb) at 1 2 as lo.
  generalize (BasicReadBuffer.m_end rb) at 1 3 as hi.
  intros hi lo Hops. revert rb Hok.
  induction Hops as [| op ops Hop Hops IH]; intros rb Hok Hlo Hhi rb'.
  - subst rb'. cbn. destruct Hok as (Hb & He & Hbytes).
    repeat split; try lia; assumption.
  - subst rb'. unfold run_read_ops. cbn [fold_left].
    fold (run_read_ops native Encoding wchar_t ops
            (run_read_op native Encoding wchar_t op rb)).
    destruct (run_read_op_within native Encoding wchar_t lo hi op rb Hok
                Hlo Hhi Hop)
      as (Em & H1 & H2 & H3).
    set (rb1 := run_read_op native Encoding wchar_t op rb) in *.
    assert (Hok1 : read_buffer_ok rb1).
    { destruct Hok as (Hb & He & Hbytes). unfold read_buffer_ok.
      rewrite Em. repeat split; try lia; assumption. }
    destruct (IH rb1 Hok1 ltac:(lia) ltac:(lia))
      as (Em2 & G1 & G2 & G3 & Hok2).
    split; [ congruence | ]. repeat split; try lia; apply Hok2.
Qed.

Lemma read_ops_frame_witness :
  read_buffer_ok (BasicReadBuffer.mk [1; 0; 0; 0; 97; 1; 0; 0; 0; 7; 7] 0 11)
  /\ Forall (read_op_ok 0 11)
       [op_popFront_string; op_popBack uint32_t; op_skipFront 1;
        op_popFront_wstring]
  /\ run_read_ops big little wchar16
       [op_popFront_string; op_popBack uint32_t; op_skipFront 1;
        op_popFront_wstring]
       (BasicReadBuffer.mk [1; 0; 0; 0; 97; 1; 0; 0; 0; 7; 7] 0 11)
     = BasicReadBuffer.mk [1; 0; 0; 0; 97; 1; 0; 0; 0; 7; 7] 10 11
  /\ read_buffer_ok
       (run_read_ops big little wchar16
          [op_popFront_string; op_popBack uint32_t; op_skipFront 1;
           op_popFront_wstring]
          (BasicReadBuffer.mk [1; 0; 0; 0; 97; 1; 0; 0; 0; 7; 7] 0 11)).
Proof.
  assert (H1 : read_buffer_ok
                 (BasicReadBuffer.mk [1; 0; 0; 0; 97; 1; 0; 0; 0; 7; 7] 0 11)).
  { unfold read_buffer_ok.
    cbn [BasicReadBuffer.mem BasicReadBuffer.m_begin BasicReadBuffer.m_end].
    split; [ lia | split; [ simpl; lia | ] ].
    repeat constructor; unfold is_byte; lia. }
  assert (H2 : Forall (read_op_ok 0 11)
                 [op_popFront_string; op_popBack uint32_t; op_skipFront 1;
                  op_popFront_wstring]).
  { repeat constructor; simpl; lia. }
  split; [ exact H1 | split; [ exact H2 | split; [ reflexivity | ] ] ].
  exact (proj2 (proj2 (proj2 (proj2
           (read_ops_frame big little wchar16 _ _ H1 H2))))).
Defined.

(** ** Safe access to one value *)

(** The value [basicCopy<Encoding>] reads is decided by the [sizeof(T)]
    bytes at the source alone. *)
Lemma basicCopy_read_stored (native Encoding : endian) (T : SwapType)
    (p : Z) (m : memory) :
  Forall is_byte (load m p (sizeof T)) ->
  List.length (load m p (sizeof T)) = Z.to_nat (sizeof T) ->
  Concepts.basicCopy_read native Encoding T p m
  = object_value Encoding T (load m p (sizeof T)).
Proof.
  intros Hbs Hlen. unfold Concepts.basicCopy_read, Concepts.mismatch.
  destruct (swapped_value T _ Hbs Hlen) as [H1 H2].
  destruct native, Encoding; cbn [endian_eqb negb]; auto.
Qed.

Section ReadBounds.
Variables native Encoding : endian.
Variable T : SwapType.

(** A successful [popFront] returns the value that the bytes at the cursor
    represent in the order [Encoding]. *)
Lemma popFront_stored (old : Z) (rb : BasicReadBuffer.t) :
  0 <= BasicReadBuffer.m_begin rb ->
  BasicReadBuffer.m_end rb
  <= Z.of_nat (List.length (BasicReadBuffer.mem rb)) ->
  sizeof T <= BasicReadBuffer.m_end rb - BasicReadBuffer.m_begin rb ->
  let stored :=
    load (BasicReadBuffer.mem rb) (BasicReadBuffer.m_begin rb) (sizeof T) in
  Forall is_byte stored ->
  BasicReadBuffer.popFront native Encoding T old rb
  = (false, object_value Encoding T stored,
     BasicReadBuffer.mk (BasicReadBuffer.mem rb)
       (BasicReadBuffer.m_begin rb + sizeof T) (BasicReadBuffer.m_end rb))
  /\ in_range T (object_value Encoding T stored)
  /\ object_bytes Encoding T (object_value Encoding T stored) = stored.
Proof.
  intros Hb He Hfit stored Hbytes. pose proof (sizeof_pos T) as Hs.
  assert (Hlen : List.length stored = Z.to_nat (sizeof T))
    by (apply load_length; lia).
  rewrite (popFront_available native Encoding T old rb Hfit).
  rewrite (basicCopy_read_stored native Encoding T _ _ Hbytes Hlen).
  fold stored. split; [ reflexivity | ].
  now apply object_bytes_value.
Qed.

(** Where the bytes at the cursor are those of [value] in the order
    [Encoding], a successful [popFront] returns [value]. *)
Lemma popFront_value (value old : Z) (rb : BasicReadBuffer.t) :
  in_range T value ->
  0 <= BasicReadBuffer.m_begin rb ->
  BasicReadBuffer.m_end rb
  <= Z.of_nat (List.length (BasicReadBuffer.mem rb)) ->
  sizeof T <= BasicReadBuffer.m_end rb - BasicReadBuffer.m_begin rb ->
  load (BasicReadBuffer.mem rb) (BasicReadBuffer.m_begin rb) (sizeof T)
  = object_bytes Encoding T value ->
  BasicReadBuffer.popFront native Encoding T old rb
  = (false, value,
     BasicReadBuffer.mk (BasicReadBuffer.mem rb)
       (BasicReadBuffer.m_begin rb + sizeof T) (BasicReadBuffer.m_end rb)).
Proof.
  intros Hv Hb He Hfit Hstored.
  destruct (popFront_stored old rb Hb He Hfit) as (E & _ & _).
  { rewrite Hstored. apply object_bytes_range. }
  rewrite E, Hstored. now rewrite object_value_bytes.
Qed.
End ReadBounds.

(** C4.  The safe [pushBack] of a value of [T] fails ([true]) and leaves
    the cursors and the memory unchanged when fewer than [sizeof(T)] bytes
    remain, in every buffer state; when at least [sizeof(T)] bytes remain
    (the buffer lying inside its memory) it succeeds ([false]), advances the
    cursor by [sizeof(T)] and stores the value in the order [Encoding] at
    the old cursor, every other byte being kept.  A four-byte value fails
    against 3 remaining bytes and succeeds against 4, leaving the buffer
    empty.  The safe [popFront] of a value mirrors this against the
    available data: with fewer than [sizeof(T)] bytes available it fails and
    leaves the buffer and the value passed unchanged, in every buffer state;
    with at least [sizeof(T)] bytes available (the buffer lying inside its
    memory) it succeeds, advances the front cursor by [sizeof(T)], keeps the
    memory, and returns the value of [T] whose representation in the order
    [Encoding] is the [sizeof(T)] bytes at the old cursor, so the value
    written there is the value read.  A four-byte value fails against 3
    available bytes and succeeds against 4, leaving the buffer empty. *)
Theorem safe_value_bounds (native Encoding : endian) (T : SwapType)
    (value old : Z) (wb : BasicWriteBuffer.t) (rb : BasicReadBuffer.t) :
  in_range T value ->
  let remaining := BasicWriteBuffer.m_end wb - BasicWriteBuffer.m_begin wb in
  let available := BasicReadBuffer.m_end rb - BasicReadBuffer.m_begin rb in
  let inside :=
    0 <= BasicWriteBuffer.m_begin wb
    /\ BasicWriteBuffer.m_end wb
       <= Z.of_nat (List.length (BasicWriteBuffer.mem wb)) in
  let readable :=
    0 <= BasicReadBuffer.m_begin rb
    /\ BasicReadBuffer.m_end rb
       <= Z.of_nat (List.length (BasicReadBuffer.mem rb)) in
  let b := BasicWriteBuffer.m_begin wb in
  let r := BasicWriteBuffer.pushBack native Encoding T value wb in
  let m' := BasicWriteBuffer.mem (snd r) in
  let q := BasicReadBuffer.popFront native Encoding T old rb in
  let stored :=
    load (BasicReadBuffer.mem rb) (BasicReadBuffer.m_begin rb) (sizeof T) in
  let rb' :=
    BasicReadBuffer.mk (BasicReadBuffer.mem rb)
      (BasicReadBuffer.m_begin rb + sizeof T) (BasicReadBuffer.m_end rb) in
  (remaining < sizeof T -> r = (true, wb))
  /\ (sizeof T <= remaining -> inside ->
      fst r = false
      /\ BasicWriteBuffer.m_begin (snd r) = b + sizeof T
      /\ BasicWriteBuffer.m_end (snd r) = BasicWriteBuffer.m_end wb
      /\ load m' b (sizeof T) = object_bytes Encoding T value
      /\ firstn (Z.to_nat b) m' = firstn (Z.to_nat b) (BasicWriteBuffer.mem wb)
      /\ skipn (Z.to_nat (b + sizeof T)) m'
         = skipn (Z.to_nat (b + sizeof T)) (BasicWriteBuffer.mem wb))
  /\ (sizeof T = 4 -> remaining = 3 -> r = (true, wb))
  /\ (sizeof T = 4 -> remaining = 4 ->
      fst r = false /\ BasicWriteBuffer.empty (snd r) = true)
  /\ (available < sizeof T -> q = (true, old, rb))
  /\ (sizeof T <= available ->
      q = (false,
           Concepts.basicCopy_read native Encoding T
             (BasicReadBuffer.m_begin rb) (BasicReadBuffer.mem rb),
           rb'))
  /\ (sizeof T <= available -> readable -> Forall is_byte stored ->
      q = (false, object_value Encoding T stored, rb')
      /\ in_range T (object_value Encoding T stored)
      /\ object_bytes Encoding T (object_value Encoding T stored) = stored)
  /\ (sizeof T <= available -> readable ->
      stored = object_bytes Encoding T value ->
      q = (false, value, rb'))
  /\ (sizeof T = 4 -> available = 3 -> q = (true, old, rb))
  /\ (sizeof T = 4 -> available = 4 ->
      fst (fst q) = false /\ BasicReadBuffer.empty (snd q) = true).
Proof.
  intros Hv remaining available inside readable b r m' q stored rb'.
  split; [ | split; [ | split; [ | split; [ | split ] ] ] ].
  - now apply pushBack_overflow.
  - intros Hfit [Hb He].
    now apply (pushBack_fits native Encoding T value wb).
  - intros Hs Hr. apply pushBack_overflow. fold remaining. lia.
  - intros Hs Hr. subst r.
    unfold BasicWriteBuffer.pushBack, BasicWriteBuffer.empty.
    destruct (Z.leb_spec (BasicWriteBuffer.m_begin wb + sizeof T)
                (BasicWriteBuffer.m_end wb)); [ | subst remaining; lia ].
    split; [ reflexivity | ].
    cbn [snd BasicWriteBuffer.unsafePushBack BasicWriteBuffer.m_begin
         BasicWriteBuffer.m_end].
    apply Z.eqb_eq. subst remaining. lia.
  - now apply popFront_underflow.
  - split; [ | split; [ | split; [ | split ] ] ].
    + now apply popFront_available.
    + intros Hfit [Hb He] Hbytes.
      now apply (popFront_stored native Encoding T old rb).
    + intros Hfit [Hb He] Hstored.
      now apply (popFront_value native Encoding T value old rb).
    + intros Hs Ha. apply popFront_underflow. fold available. lia.
    + intros Hs Ha. subst q.
      rewrite (popFront_available native Encoding T old rb)
        by (fold available; lia).
      cbn [fst snd]. split; [ reflexivity | ].
      unfold BasicReadBuffer.empty.
      cbn [BasicReadBuffer.m_begin BasicReadBuffer.m_end].
      apply Z.eqb_eq. subst available. lia.
Qed.

Lemma safe_value_bounds_witness :
  in_range uint32_t 0x12345678
  /\ BasicWriteBuffer.pushBack big little uint32_t 0x12345678
       (BasicWriteBuffer.mk [0; 0; 0; 0; 0] 1 4)
     = (true, BasicWriteBuffer.mk [0; 0; 0; 0; 0] 1 4)
  /\ BasicWriteBuffer.pushBack big little uint32_t 0x12345678
       (BasicWriteBuffer.mk [0; 0; 0; 0; 0] 1 5)
     = (false, BasicWriteBuffer.mk [0; 0x78; 0x56; 0x34; 0x12] 5 5)
  /\ BasicReadBuffer.popFront big little uint32_t 0
       (BasicReadBuffer.mk [0; 0x78; 0x56; 0x34; 0x12] 1 5)
     = (false, 0x12345678,
        BasicReadBuffer.mk [0; 0x78; 0x56; 0x34; 0x12] 5 5).
Proof.
  assert (Hr : in_range uint32_t 0x12345678)
    by (unfold in_range; simpl; lia).
  split; [ exact Hr | split; [ | split ] ].
  - refine (proj1 (safe_value_bounds big little uint32_t 0x12345678 0
              (BasicWriteBuffer.mk [0; 0; 0; 0; 0] 1 4)
              (BasicReadBuffer.mk [0; 0x78; 0x56; 0x34; 0x12] 1 5) Hr) _).
    vm_compute. reflexivity.
  - reflexivity.
  - refine (proj1 (proj2 (proj2 (proj2 (proj2 (proj2 (proj2 (proj2
              (safe_value_bounds big little uint32_t 0x12345678 0
                 (BasicWriteBuffer.mk [0; 0; 0; 0; 0] 1 4)
                 (BasicReadBuffer.mk [0; 0x78; 0x56; 0x34; 0x12] 1 5)
                 Hr)))))))) _ _ _).
    + vm_compute. intros Hc. discriminate Hc.
    + split; vm_compute; intros Hc; discriminate Hc.
    + reflexivity.
Defined.

(** ** Growable buffer: the room made by the growth policy *)

(** Without room nothing is stored: a value written at the end of the
    storage leaves the storage as it is. *)
Lemma memcpy_no_room (m : memory) (src : list Z) :
  memcpy m (Z.of_nat (List.length m)) src = m.
Proof.
  unfold memcpy. rewrite Nat2Z.id, firstn_all.
  rewrite firstn_app, firstn_all, Nat.sub_diag. cbn [firstn].
  apply app_nil_r.
Qed.

Lemma reserveExtra_capacity (extraSize : Z) (v : BasicVector.t) :
  vector_ok v ->
  0 <= extraSize ->
  Z.of_nat (List.length (BasicVector.m_data v)) <= BasicVector.m_capacity v ->
  Z.of_nat (List.length
              (BasicVector.m_data (BasicVector.reserveExtra extraSize v)))
  <= BasicVector.m_capacity (BasicVector.reserveExtra extraSize v).
Proof.
  intros [Hs Hl] He Hcap. unfold BasicVector.reserveExtra.
  destruct (Z.ltb_spec (Z.of_nat (List.length (BasicVector.m_data v)))
              (BasicVector.m_size v + extraSize)) as [Hlt | Hge];
    [ | exact Hcap ].
  assert (E : forall v', BasicVector.m_data v' = BasicVector.m_data v ->
              Z.of_nat (List.length
                          (BasicVector.m_data
                             (BasicVector.vector_resize
                                (BasicVector.m_size v + extraSize) v')))
              <= BasicVector.m_capacity
                   (BasicVector.vector_resize
                      (BasicVector.m_size v + extraSize) v')).
  { intros v' Ed. unfold BasicVector.vector_resize.
    cbn [BasicVector.m_data BasicVector.m_capacity]. rewrite Ed.
    rewrite length_app, length_firstn, repeat_length.
    destruct (Z.ltb_spec (BasicVector.m_capacity v')
                (BasicVector.m_size v + extraSize)); lia. }
  destruct (1024 <? extraSize); apply E; reflexivity.
Qed.

Section GrowthRoom.
Variables native Encoding : endian.

(** One append to a vector in any regular state, whose storage may be
    longer than its logical size. *)
Lemma BasicVector_pushBack_step (T : SwapType) (value : Z)
    (v : BasicVector.t) :
  vector_ok v ->
  in_range T value ->
  BasicVector.m_size v + sizeof T < 2 ^ 64 ->
  let v1 := BasicVector.pushBack native Encoding T value v in
  vector_ok v1
  /\ BasicVector.size v1 = BasicVector.size v + sizeof T
  /\ BasicVector.contents v1
     = BasicVector.contents v ++ stream_bytes native Encoding T value
  /\ Z.of_nat (List.length (BasicVector.m_data v1))
     = Z.max (Z.of_nat (List.length (BasicVector.m_data v)))
         (BasicVector.size v + sizeof T)
  /\ (Z.of_nat (List.length (BasicVector.m_data v))
      <= BasicVector.capacity v ->
      Z.of_nat (List.length (BasicVector.m_data v1))
      <= BasicVector.capacity v1).
Proof.
  intros Hok Hv Hmax v1. pose proof (sizeof_pos T) as Hs.
  pose proof Hok as [Hsz Hl].
  assert (He : 0 <= sizeof T) by lia.
  destruct (reserveExtra_grows (sizeof T) v Hok He)
    as (Es & zs & Ed & Hfit & Hlen).
  pose proof (reserveExtra_capacity (sizeof T) v Hok He) as Hcap.
  destruct (grown_storage v zs (sizeof T) Hok He Hfit)
    as (old & post & Esplit & Ec & Eold).
  assert (Ed1 : BasicVector.m_data v1
                = BasicVector.contents v
                  ++ stream_bytes native Encoding T value ++ post).
  { subst v1. unfold BasicVector.pushBack, BasicVector.unsafePushBack,
      BasicVector.size.
    cbn [BasicVector.m_data]. rewrite Es, Ed, Esplit.
    unfold Concepts.basic_copy_value.
    apply basicCopy_value_app; [ exact Hv | exact Ec | lia ]. }
  assert (El : List.length (BasicVector.m_data v1)
               = List.length (BasicVector.m_data v ++ zs)).
  { rewrite Ed1, Esplit, !length_app, stream_bytes_length. lia. }
  assert (Es1 : BasicVector.m_size v1 = BasicVector.m_size v + sizeof T).
  { subst v1. unfold BasicVector.pushBack, BasicVector.unsafePushBack.
    cbn [BasicVector.m_size]. now rewrite Es. }
  assert (Ecap : BasicVector.m_capacity v1
                 = BasicVector.m_capacity
                     (BasicVector.reserveExtra (sizeof T) v))
    by reflexivity.
  unfold vector_ok, BasicVector.size, BasicVector.capacity,
    BasicVector.contents.
  rewrite Es1, El, Ecap. rewrite <- Ed.
  split; [ rewrite Ed; lia | ].
  split; [ reflexivity | ].
  split; [ | split; [ rewrite Ed; exact Hlen | exact Hcap ] ].
  rewrite Ed1. unfold BasicVector.contents, BasicVector.size.
  rewrite app_assoc. apply firstn_app_exact.
  rewrite length_app, stream_bytes_length.
  unfold BasicVector.contents, BasicVector.size in Ec. lia.
Qed.

(** Appending a sequence of values to a vector in any regular state. *)
Lemma vector_pushBack_all_step (vals : list typed_value) :
  forall v : BasicVector.t,
  vector_ok v ->
  Forall well_typed vals ->
  BasicVector.m_size v + encoded_length vals < 2 ^ 64 ->
  let v1 := vector_pushBack_all native Encoding vals v in
  vector_ok v1
  /\ BasicVector.size v1 = BasicVector.size v + encoded_length vals
  /\ BasicVector.contents v1
     = BasicVector.contents v ++ encoding native Encoding vals
  /\ Z.of_nat (List.length (BasicVector.m_data v1))
     = Z.max (Z.of_nat (List.length (BasicVector.m_data v)))
         (BasicVector.size v + encoded_length vals)
  /\ (Z.of_nat (List.length (BasicVector.m_data v))
      <= BasicVector.capacity v ->
      Z.of_nat (List.length (BasicVector.m_data v1))
      <= BasicVector.capacity v1).
Proof.
  induction vals as [| [T value] vals IH]; intros v Hok Hvals Hmax v1.
  - subst v1. cbn [vector_pushBack_all fold_left encoded_length fold_right
                   encoding map List.concat].
    destruct Hok as [Hsz Hl]. unfold BasicVector.size.
    rewrite app_nil_r, Z.add_0_r.
    repeat split; lia.
  - apply Forall_cons_iff in Hvals as [Hv Hvals'].
    unfold well_typed in Hv. cbn [fst snd] in Hv.
    pose proof (sizeof_pos T) as Hs.
    pose proof (encoding_length native Encoding vals) as Hel.
    cbn [encoded_length fold_right fst] in Hmax |- *.
    fold (encoded_length vals) in Hmax |- *.
    destruct (BasicVector_pushBack_step T value v Hok Hv)
      as (Hok1 & Es1 & Ec1 & El1 & Hcap1); [ lia | ].
    subst v1. unfold vector_pushBack_all. cbn [fold_left fst snd].
    fold (vector_pushBack_all native Encoding vals
            (BasicVector.pushBack native Encoding T value v)).
    set (v1 := BasicVector.pushBack native Encoding T value v) in *.
    unfold BasicVector.size in Es1.
    destruct (IH v1 Hok1 Hvals') as (Hok2 & Es2 & Ec2 & El2 & Hcap2);
      [ lia | ].
    unfold BasicVector.size in *.
    split; [ exact Hok2 | split; [ lia | split; [ | split ] ] ].
    + rewrite Ec2, Ec1. unfold encoding. cbn [map List.concat fst snd].
      now rewrite <- app_assoc.
    + lia.
    + intros Hcap. apply Hcap2, Hcap1, Hcap.
Qed.
End GrowthRoom.

(** C9.  Appending a sequence of swappable values one at a time to an empty
    growable buffer gives the logical size and the bytes that writing them
    in order, with the safe [pushBack], into a fixed buffer of exactly the
    total encoded length gives; every write into that buffer succeeds and
    fills it.  The growth made the room the values are stored in: the
    storage has grown to exactly the logical size, within the capacity.
    Appended to a growable buffer in any regular state, whose storage may
    hold more bytes than its logical size, the values leave the bytes already
    there in place and add those same bytes after them, the storage growing
    only where it was too short. *)
Theorem growth_preserves_content (native Encoding : endian)
    (vals : list typed_value) (buf : list Z) :
  Forall well_typed vals ->
  Z.of_nat (List.length buf) = encoded_length vals ->
  let v := vector_pushBack_all native Encoding vals BasicVector.empty_vector in
  let r := buffer_pushBack_all native Encoding vals
             (BasicWriteBuffer.mk buf 0 (encoded_length vals)) in
  fst r = false
  /\ BasicWriteBuffer.empty (snd r) = true
  /\ BasicVector.size v = encoded_length vals
  /\ BasicVector.contents v = BasicWriteBuffer.mem (snd r)
  /\ Z.of_nat (List.length (BasicVector.m_data v)) = BasicVector.size v
  /\ BasicVector.size v <= BasicVector.capacity v
  /\ (forall v0 : BasicVector.t,
      vector_ok v0 ->
      BasicVector.size v0 + encoded_length vals < 2 ^ 64 ->
      let v1 := vector_pushBack_all native Encoding vals v0 in
      vector_ok v1
      /\ BasicVector.size v1 = BasicVector.size v0 + encoded_length vals
      /\ BasicVector.contents v1
         = BasicVector.contents v0 ++ BasicWriteBuffer.mem (snd r)
      /\ Z.of_nat (List.length (BasicVector.m_data v1))
         = Z.max (Z.of_nat (List.length (BasicVector.m_data v0)))
             (BasicVector.size v0 + encoded_length vals)).
Proof.
  intros Hvals Hbuf v r.
  destruct (vector_pushBack_all_append native Encoding vals [] 0 Hvals)
    as (cap & Ev & Hcap); [ cbn; lia | ].
  change (BasicVector.mk (Z.of_nat (List.length (@nil Z))) [] 0)
    with BasicVector.empty_vector in Ev. fold v in Ev.
  pose proof (buffer_pushBack_all_fill native Encoding vals [] buf Hvals Hbuf)
    as Er.
  cbn [List.length Z.of_nat app Z.add] in Er, Ev, Hcap. fold r in Er.
  rewrite Ev, Er. cbn [fst snd BasicWriteBuffer.mem].
  unfold BasicWriteBuffer.empty, BasicVector.contents, BasicVector.size,
    BasicVector.capacity.
  cbn [BasicWriteBuffer.m_begin BasicWriteBuffer.m_end BasicVector.m_size
       BasicVector.m_data BasicVector.m_capacity].
  rewrite Z.eqb_refl, Nat2Z.id, firstn_all.
  split; [ reflexivity | split; [ reflexivity | ] ].
  split; [ apply encoding_length | split; [ reflexivity | ] ].
  split; [ reflexivity | split; [ exact Hcap | ] ].
  intros v0 Hok0 Hmax.
  destruct (vector_pushBack_all_step native Encoding vals v0 Hok0 Hvals Hmax)
    as (Hok1 & Es1 & Ec1 & El1 & _).
  unfold BasicVector.size, BasicVector.contents in *.
  repeat split; try assumption; apply Hok1.
Qed.

Lemma growth_preserves_content_witness :
  Forall well_typed [(uint32_t, 0x01020304); (mkSwapType W2 true true, -2)]
  /\ BasicVector.contents
       (vector_pushBack_all big little
          [(uint32_t, 0x01020304); (mkSwapType W2 true true, -2)]
          BasicVector.empty_vector)
     = [4; 3; 2; 1; 254; 255]
  /\ Z.of_nat
       (List.length
          (BasicVector.m_data
             (vector_pushBack_all big little
                [(uint32_t, 0x01020304); (mkSwapType W2 true true, -2)]
                BasicVector.empty_vector)))
     = 6
  /\ 6 <= BasicVector.capacity
            (vector_pushBack_all big little
               [(uint32_t, 0x01020304); (mkSwapType W2 true true, -2)]
               BasicVector.empty_vector).
Proof.
  assert (H : Forall well_typed
                [(uint32_t, 0x01020304); (mkSwapType W2 true true, -2)]).
  { repeat constructor; unfold well_typed, in_range; simpl; lia. }
  pose proof (growth_preserves_content big little
                [(uint32_t, 0x01020304); (mkSwapType W2 true true, -2)]
                [0; 0; 0; 0; 0; 0] H eq_refl) as G.
  split; [ exact H | ].
  split; [ exact (proj1 (proj2 (proj2 (proj2 G)))) | ].
  split; [ exact (proj1 (proj2 (proj2 (proj2 (proj2 G))))) | ].
  exact (proj1 (proj2 (proj2 (proj2 (proj2 (proj2 G)))))).
Defined.
